(** * Lead pipeline of the TGE reporting tool: a shallow embedding

    The pipeline lives in Supabase edge functions (TypeScript) and in the
    PL/pgSQL functions of the migrations.  This development embeds
    - the normalisation functions of the migration "Utility functions and
      triggers" ([normalize_phone], [normalize_address]) and the generated
      column [email_normalized],
    - the scorer [find_fub_matches],
    - the matcher and the review resolver of [_shared/matching.ts]
      ([processMatches], [approveCandidate]) with the [lead-matcher] handler,
    - the staging loop of [email-ingest],
    - the counters of [csv-parser],
    - the de-duplication of [lead-transformer],
    - the embedding queue worker of [_shared/embeddings.ts].

    Database tables are lists of rows (records); a statement of the
    Supabase client becomes a function on the store.  Definitions come first,
    the theorems follow in the second part of the file. *)

From Stdlib Require Import String Ascii List Bool Arith PeanoNat Lia.
From Stdlib Require Import QArith Permutation Sorted Orders Mergesort.
Import ListNotations.

Close Scope Q_scope.
Open Scope nat_scope.

Set Implicit Arguments.

(* ================================================================== *)
(** * Part I: definitions *)
(* ================================================================== *)

(** ** Normalizer (migration "Utility functions and triggers") *)

Module Normalizer.

(** PostgreSQL [text] is read as a list of (ASCII) characters; [lower] on
    other characters depends on the database locale and is left out. *)
Definition text := list ascii.

Definition on_text (f : text -> text) (s : string) : string :=
  string_of_list_ascii (f (list_ascii_of_string s)).

Definition space : ascii := ascii_of_nat 32.
Definition backspace : ascii := ascii_of_nat 8.

(** The bracket expression [[^0-9]]. *)
Definition is_digit (c : ascii) : bool :=
  let n := nat_of_ascii c in (48 <=? n) && (n <=? 57).

(** [regexp_replace(phone, '[^0-9]', '', 'g')]: every character that is not a
    digit is deleted. *)
Definition digits_only (s : text) : text := filter is_digit s.

(** [normalize_phone(phone text)]: NULL stays NULL. *)
Definition normalize_phone (phone : option string) : option string :=
  option_map (on_text digits_only) phone.

(** [trim(addr)] is [trim(both ' ' from addr)]: PostgreSQL strips the space
    character only, neither tabs nor line breaks. *)
Fixpoint ltrim (s : text) : text :=
  match s with
  | [] => []
  | c :: t => if Ascii.eqb c space then ltrim t else s
  end.

Fixpoint rtrim (s : text) : text :=
  match s with
  | [] => []
  | c :: t =>
      match rtrim t with
      | [] => if Ascii.eqb c space then [] else [c]
      | t' => c :: t'
      end
  end.

Definition pg_trim (s : text) : text := rtrim (ltrim s).

(** [lower]. *)
Definition lower_char (c : ascii) : ascii :=
  let n := nat_of_ascii c in
  if (65 <=? n) && (n <=? 90) then ascii_of_nat (n + 32) else c.

Definition pg_lower (s : text) : text := map lower_char s.

(** The class [\s] of PostgreSQL regular expressions: space, tab, line feed,
    vertical tab, form feed, carriage return. *)
Definition is_pg_space (c : ascii) : bool :=
  let n := nat_of_ascii c in ((9 <=? n) && (n <=? 13)) || (n =? 32).

Fixpoint starts_with (pat s : text) : bool :=
  match pat, s with
  | [], _ => true
  | _ :: _, [] => false
  | p :: pat', c :: s' => Ascii.eqb p c && starts_with pat' s'
  end.

(** [regexp_replace(s, pat, rep, 'g')] for a pattern without operators: the
    occurrences of [pat] are replaced from left to right, without overlap.
    [skip] counts the characters of a match still to be consumed. *)
Fixpoint replace_all_aux (pat rep : text) (skip : nat) (s : text) : text :=
  match s with
  | [] => []
  | c :: t =>
      match skip with
      | S k => replace_all_aux pat rep k t
      | O =>
          if starts_with pat s
          then rep ++ replace_all_aux pat rep (length pat - 1) t
          else c :: replace_all_aux pat rep 0 t
      end
  end.

Definition regexp_replace_all (pat rep s : text) : text :=
  replace_all_aux pat rep 0 s.

(** The thirteen rewriting rules of [normalize_address], in source order. *)
Definition abbreviations : list (string * string) :=
  [ ("street", "st"); ("avenue", "ave"); ("boulevard", "blvd");
    ("drive", "dr"); ("road", "rd"); ("lane", "ln"); ("court", "ct");
    ("apartment", "apt"); ("suite", "ste"); ("north", "n"); ("south", "s");
    ("east", "e"); ("west", "w") ]%string.

(** The patterns are written ['\bstreet\b'].  In PostgreSQL's regular
    expressions the escape [\b] is the backspace character (as in C); the
    word-boundary escapes are [\y], [\m] and [\M].  The body of the function
    is dollar-quoted, so the backslashes reach the regular expression
    unchanged: each pattern is the literal token between two backspace
    characters. *)
Definition rule_pattern (token : string) : text :=
  backspace :: list_ascii_of_string token ++ [backspace].

Definition apply_rule (s : text) (rule : string * string) : text :=
  regexp_replace_all (rule_pattern (fst rule)) (list_ascii_of_string (snd rule)) s.

Definition apply_rules (s : text) : text := fold_left apply_rule abbreviations s.

(** [regexp_replace(result, '\s+', ' ', 'g')]: every maximal run of white
    space becomes one space.  [in_run] tells that the previous character was
    white space. *)
Fixpoint collapse_aux (in_run : bool) (s : text) : text :=
  match s with
  | [] => []
  | c :: t =>
      if is_pg_space c
      then (if in_run then collapse_aux true t else space :: collapse_aux true t)
      else c :: collapse_aux false t
  end.

Definition collapse_spaces (s : text) : text := collapse_aux false s.

Definition normalize_address_text (s : text) : text :=
  collapse_spaces (apply_rules (pg_lower (pg_trim s))).

(** [normalize_address(addr text)]: NULL stays NULL. *)
Definition normalize_address (addr : option string) : option string :=
  option_map (on_text normalize_address_text) addr.

(** [email_normalized text generated always as (lower(trim(email)))]. *)
Definition normalize_email_text (s : text) : text := pg_lower (pg_trim s).

Definition normalize_email (email : option string) : option string :=
  option_map (on_text normalize_email_text) email.

(** Addresses on which the amended idempotence is stated: no backspace, and
    no white space other than the space character. *)
Definition plain_char (c : ascii) : bool :=
  negb (Ascii.eqb c backspace) && (negb (is_pg_space c) || Ascii.eqb c space).

Definition plain_address (addr : option string) : Prop :=
  match addr with
  | None => True
  | Some s => forallb plain_char (list_ascii_of_string s) = true
  end.

Definition tab : ascii := ascii_of_nat 9.

(** Predicates of the proofs: no space in front, and only plain characters. *)
Definition no_lead_space (s : text) : Prop :=
  match s with [] => True | c :: _ => Ascii.eqb c space = false end.

Definition plain (s : text) : Prop := forallb plain_char s = true.

End Normalizer.

(** ** Schema (migrations): the rows of the tables the pipeline touches *)

Module Schema.

(** [uuid] primary keys.  They are opaque; an order is needed only for the
    [ORDER BY fub_lead_id] of the scorer. *)
Abbreviation uuid := nat (only parsing).

(** [source_leads.match_status]. *)
Inductive lead_status :=
  lead_pending | lead_matched | lead_unmatched | lead_multiple | lead_review.

(** [lead_matches.match_type]. *)
Inductive match_type :=
  email_exact | phone_exact | address_exact | email_fuzzy | phone_fuzzy
| address_fuzzy | name_address | manual | ai_suggested.

(** [lead_matches.matched_by]. *)
Inductive matched_by := by_system | by_ai | by_manual.

(** [lead_matches.status], default ['active']. *)
Inductive match_row_status := match_active | match_disputed | match_invalidated.

(** [match_candidates.status], default ['pending']. *)
Inductive candidate_status :=
  cand_pending | cand_approved | cand_rejected | cand_expired.

Definition lead_status_eqb (a b : lead_status) : bool :=
  match a, b with
  | lead_pending, lead_pending | lead_matched, lead_matched
  | lead_unmatched, lead_unmatched | lead_multiple, lead_multiple
  | lead_review, lead_review => true
  | _, _ => false
  end.

Definition candidate_status_eqb (a b : candidate_status) : bool :=
  match a, b with
  | cand_pending, cand_pending | cand_approved, cand_approved
  | cand_rejected, cand_rejected | cand_expired, cand_expired => true
  | _, _ => false
  end.

Definition is_active (s : match_row_status) : bool :=
  match s with match_active => true | _ => false end.

(** [source_leads]: the identity columns and the matching columns.  The
    names, city, state, zip, lead type, the source's own id and date, the
    embedding columns, [raw_data], [created_at] and [updated_at] are left
    out: no function below reads them.  Timestamps are numbers.  The columns
    of type [numeric(5,4)] keep the value they are given (the database rounds
    it to four decimals). *)
Record source_lead := mk_source_lead {
  sl_id : uuid;
  sl_raw_row_id : option uuid;
  sl_ingestion_id : option uuid;
  sl_lead_source_id : uuid;
  sl_organization_id : uuid;
  sl_email : option string;
  sl_phone : option string;
  sl_property_address : option string;
  sl_match_status : lead_status;
  sl_match_confidence : option Q;
  sl_matched_at : option nat
}.

(** [email_normalized] is a generated column; [phone_normalized] and
    [property_address_normalized] are set by the trigger
    [trg_source_leads_normalize] before every insert and update.  All three
    are therefore functions of the raw columns. *)
Definition sl_email_normalized (l : source_lead) : option string :=
  Normalizer.normalize_email (sl_email l).
Definition sl_phone_normalized (l : source_lead) : option string :=
  Normalizer.normalize_phone (sl_phone l).
Definition sl_property_address_normalized (l : source_lead) : option string :=
  Normalizer.normalize_address (sl_property_address l).

(** [fub_leads]: the columns the scorer and the attribution read, with the
    trigger [trg_fub_leads_normalize]. *)
Record fub_lead := mk_fub_lead {
  fl_id : uuid;
  fl_organization_id : uuid;
  fl_email : option string;
  fl_phone : option string;
  fl_address : option string;
  fl_assigned_user_id : option nat
}.

Definition fl_email_normalized (f : fub_lead) : option string :=
  Normalizer.normalize_email (fl_email f).
Definition fl_phone_normalized (f : fub_lead) : option string :=
  Normalizer.normalize_phone (fl_phone f).
Definition fl_address_normalized (f : fub_lead) : option string :=
  Normalizer.normalize_address (fl_address f).

(** [agents]: the columns of the attribution lookup. *)
Record agent := mk_agent {
  ag_id : uuid;
  ag_team_id : option uuid;
  ag_fub_user_id : option nat
}.

(** The [jsonb] built by [find_fub_matches]. *)
Inductive match_details :=
| matched_email (e : option string)
| matched_phone (p : option string)
| address_similarity (source_address fub_address : option string) (similarity : Q).

(** One row returned by [find_fub_matches] ([MatchResult] in matching.ts). *)
Record MatchResult := mk_MatchResult {
  fub_lead_id : uuid;
  result_type : match_type;
  confidence : Q;
  result_details : match_details
}.

(** An element of [match_candidates.match_reasons]. *)
Record MatchReason := mk_MatchReason {
  reason_type : match_type;
  reason_field : string;
  reason_score : Q;
  reason_details : match_details
}.

(** [lead_matches.match_details]. *)
Inductive lead_match_details :=
| scorer_details (d : match_details)
| approved_from_candidate (reasons : list MatchReason).

Record lead_match := mk_lead_match {
  lm_id : uuid;
  lm_source_lead_id : uuid;
  lm_fub_lead_id : uuid;
  lm_match_type : match_type;
  lm_match_confidence : Q;
  lm_match_details : lead_match_details;
  lm_matched_by : matched_by;
  lm_matched_by_user_id : option uuid;
  lm_attributed_agent_id : option uuid;
  lm_attributed_team_id : option uuid;
  lm_status : match_row_status
}.

Record match_candidate := mk_match_candidate {
  mc_id : uuid;
  mc_source_lead_id : uuid;
  mc_fub_lead_id : uuid;
  mc_confidence_score : Q;
  mc_match_reasons : list MatchReason;
  mc_status : candidate_status;
  mc_reviewed_by : option uuid;
  mc_reviewed_at : option nat;
  mc_lead_match_id : option uuid
}.

(** [data_lineage], append-only. *)
Record lineage := mk_lineage {
  dl_id : uuid;
  dl_source_table : string;
  dl_source_id : uuid;
  dl_target_table : string;
  dl_target_id : uuid;
  dl_operation : string;
  dl_transformation_type : string;
  dl_performed_by : string
}.

(** [.single()] of the Supabase client: the row when the query returns
    exactly one, an error (no data) otherwise. *)
Definition single {A : Type} (rows : list A) : option A :=
  match rows with
  | [r] => Some r
  | _ => None
  end.

(** SQL [a = b] in a [WHERE] clause: NULL on either side is not a match. *)
Definition sql_eq (a b : option string) : bool :=
  match a, b with
  | Some x, Some y => String.eqb x y
  | _, _ => false
  end.

(** [a is not null and a != '']. *)
Definition present (a : option string) : bool :=
  match a with
  | Some s => negb (String.eqb s EmptyString)
  | None => false
  end.

(** [raw_ingestions.status]. *)
Inductive ingestion_status :=
  ing_pending | ing_processing | ing_parsed | ing_transforming
| ing_completed | ing_failed | ing_partial.

(** An element of [processing_log] or of [errors]. *)
Record log_entry := mk_log_entry {
  log_timestamp : nat;
  log_action : string;
  log_error : option string
}.

(** A storage path [ingestions/<epoch_ms>_<filename>] of the bucket
    [lead-files]. *)
Definition storage_path := (nat * string)%type.

(** [raw_ingestions]; the three e-mail columns are left out. *)
Record raw_ingestion := mk_raw_ingestion {
  ri_id : uuid;
  ri_lead_source_id : option uuid;
  ri_organization_id : option uuid;
  ri_ingest_type : string;
  ri_file_name : string;
  ri_file_url : storage_path;
  ri_file_hash : string;
  ri_status : ingestion_status;
  ri_total_rows : option nat;
  ri_parsed_rows : nat;
  ri_valid_rows : nat;
  ri_duplicate_rows : nat;
  ri_error_rows : nat;
  ri_processing_log : list log_entry;
  ri_errors : list log_entry;
  ri_started_at : option nat;
  ri_completed_at : option nat
}.

(** A parsed CSV row, [Record<string, string>]: column name and value. *)
Definition csv_row := list (string * string).

Definition row_get (row : csv_row) (col : string) : option string :=
  option_map snd (find (fun kv => String.eqb (fst kv) col) row).

(** [raw_lead_rows]. *)
Record raw_lead_row := mk_raw_lead_row {
  rr_id : uuid;
  rr_ingestion_id : uuid;
  rr_row_number : nat;
  rr_raw_data : csv_row;
  rr_is_valid : bool;
  rr_validation_errors : list string;
  rr_is_duplicate : bool;
  rr_duplicate_of : option uuid;
  rr_source_lead_id : option uuid
}.

(** [lead_sources]: the configuration the parser and the transformer read. *)
Record lead_source := mk_lead_source {
  ls_id : uuid;
  ls_display_name : string;
  ls_skip_rows : nat;
  ls_has_header : bool;
  ls_delimiter : string;
  ls_date_format : option string;
  ls_field_mapping : list (string * list string);
  ls_required_fields : list string;
  ls_email_regex : option string
}.

(** [embedding_queue.status]. *)
Inductive task_status :=
  task_pending | task_processing | task_completed | task_failed.

Definition task_status_eqb (a b : task_status) : bool :=
  match a, b with
  | task_pending, task_pending | task_processing, task_processing
  | task_completed, task_completed | task_failed, task_failed => true
  | _, _ => false
  end.

(** An embedding, [vector(1536)]; the numbers are not looked at. *)
Definition vector := list Q.

(** [embedding_queue]. *)
Record embedding_task := mk_embedding_task {
  eq_id : uuid;
  eq_table_name : string;
  eq_record_id : uuid;
  eq_text_to_embed : string;
  eq_status : task_status;
  eq_attempts : nat;
  eq_last_error : option string;
  eq_embedding : option vector;
  eq_processed_at : option nat
}.

(** JavaScript truthiness of a string read from a row followed by
    [value.trim() !== ""]: present, and not made of white space only. *)
Definition is_blank (s : string) : bool :=
  forallb Normalizer.is_pg_space (list_ascii_of_string s).

Definition has_value (v : option string) : bool :=
  match v with
  | Some s => negb (is_blank s)
  | None => false
  end.

End Schema.

(** ** Match scorer: the SQL function [find_fub_matches] *)

Module Scorer.
Import Schema.

(** The key of [ORDER BY m.fub_lead_id, m.confidence DESC]. *)
Definition row_leb (a b : MatchResult) : bool :=
  (fub_lead_id a <? fub_lead_id b)%nat
  || ((fub_lead_id a =? fub_lead_id b)%nat
      && Qle_bool (confidence b) (confidence a)).

Definition row_le (a b : MatchResult) : Prop :=
  (fub_lead_id a < fub_lead_id b)%nat
  \/ (fub_lead_id a = fub_lead_id b /\ (confidence b <= confidence a)%Q).

(** What the query promises about the sort: the rows come back permuted and
    ordered by the key.  Rows with equal keys may come in any order, the
    [ORDER BY] clause names no third column. *)
Definition is_order_by (order_by : list MatchResult -> list MatchResult) : Prop :=
  forall rows,
    Permutation rows (order_by rows) /\ StronglySorted row_le (order_by rows).

(** Two executors of the sort; both are used to run the scorer on concrete
    tables. *)
Module RowOrder <: Orders.TotalLeBool.
Definition t := MatchResult.
Definition leb := row_leb.
Theorem leb_total : forall a b, leb a b = true \/ leb b a = true.
Proof.
  intros a b. unfold leb, row_leb.
  destruct (Nat.ltb_spec (fub_lead_id a) (fub_lead_id b)) as [H|H]; [now left|].
  destruct (Nat.ltb_spec (fub_lead_id b) (fub_lead_id a)) as [H'|H']; [now right|].
  assert (E : fub_lead_id a = fub_lead_id b) by lia.
  rewrite E, Nat.eqb_refl. simpl.
  destruct (Qlt_le_dec (confidence a) (confidence b)) as [Hq|Hq].
  - right. apply Qle_bool_iff. now apply Qlt_le_weak.
  - left. now apply Qle_bool_iff.
Qed.
End RowOrder.

Module RowSort := Mergesort.Sort RowOrder.

Definition sort_rows (rows : list MatchResult) : list MatchResult :=
  RowSort.sort rows.

Definition sort_rows_backwards (rows : list MatchResult) : list MatchResult :=
  RowSort.sort (rev rows).

(** [SELECT DISTINCT ON (m.fub_lead_id)] over the sorted rows: the first row
    of every run of equal [fub_lead_id] is kept.  [prev] is the id of the row
    just before. *)
Fixpoint distinct_on_aux (prev : option uuid) (rows : list MatchResult)
  : list MatchResult :=
  match rows with
  | [] => []
  | r :: rest =>
      let same := match prev with
                  | Some p => (p =? fub_lead_id r)%nat
                  | None => false
                  end in
      if same then distinct_on_aux prev rest
      else r :: distinct_on_aux (Some (fub_lead_id r)) rest
  end.

Definition distinct_on (rows : list MatchResult) : list MatchResult :=
  distinct_on_aux None rows.

Section WithExecutor.

(** [similarity] of [pg_trgm], and the sort of the query executor. *)
Variable similarity : string -> string -> Q.
Variable order_by : list MatchResult -> list MatchResult.

Definition same_org (v : source_lead) (f : fub_lead) : bool :=
  (fl_organization_id f =? sl_organization_id v)%nat.

(** First branch of the [UNION ALL]: exact e-mail, confidence 1.0. *)
Definition email_branch (v : source_lead) (f : fub_lead) : list MatchResult :=
  if same_org v f
     && sql_eq (fl_email_normalized f) (sl_email_normalized v)
     && present (sl_email_normalized v)
  then [mk_MatchResult (fl_id f) email_exact 1
          (matched_email (sl_email_normalized v))]
  else [].

(** [length(v_source.phone_normalized) >= 10]. *)
Definition long_enough (p : option string) : bool :=
  match p with
  | Some s => (10 <=? String.length s)%nat
  | None => false
  end.

(** Second branch: exact phone, confidence 0.95. *)
Definition phone_branch (v : source_lead) (f : fub_lead) : list MatchResult :=
  if same_org v f
     && sql_eq (fl_phone_normalized f) (sl_phone_normalized v)
     && long_enough (sl_phone_normalized v)
  then [mk_MatchResult (fl_id f) phone_exact (95 # 100)
          (matched_phone (sl_phone_normalized v))]
  else [].

(** Third branch: trigram similarity of the addresses, kept above 0.6.
    [similarity] returns a [real] that the query casts to [numeric]; the model
    takes the value as a rational and compares it exactly. *)
Definition address_branch (v : source_lead) (f : fub_lead) : list MatchResult :=
  match fl_address_normalized f, sl_property_address_normalized v with
  | Some fa, Some va =>
      if same_org v f
         && present (Some va) && present (Some fa)
         && negb (Qle_bool (similarity fa va) (6 # 10))
      then [mk_MatchResult (fl_id f) address_fuzzy (similarity fa va)
              (address_similarity (Some va) (Some fa) (similarity fa va))]
      else []
  | _, _ => []
  end.

(** The common table expression [matches]. *)
Definition matches (v : source_lead) (fubs : list fub_lead) : list MatchResult :=
  flat_map (email_branch v) fubs
  ++ flat_map (phone_branch v) fubs
  ++ flat_map (address_branch v) fubs.

(** [find_fub_matches(p_source_lead_id, p_max_results)]. *)
Definition find_fub_matches (source_leads : list source_lead)
    (fub_leads : list fub_lead) (p_source_lead_id : uuid)
    (p_max_results : nat) : list MatchResult :=
  match find (fun l => (sl_id l =? p_source_lead_id)%nat) source_leads with
  | None => []
  | Some v_source =>
      firstn p_max_results (distinct_on (order_by (matches v_source fub_leads)))
  end.

(** The signals of the pairs (lead, CRM lead): the rows of [matches] for the
    lead with that id, none when there is no such lead. *)
Definition signals_of (source_leads : list source_lead)
    (fub_leads : list fub_lead) (p_source_lead_id : uuid) : list MatchResult :=
  match find (fun l => (sl_id l =? p_source_lead_id)%nat) source_leads with
  | None => []
  | Some v_source => matches v_source fub_leads
  end.

End WithExecutor.

(** Properties named by the claim on the scorer. *)
Definition sorted_by_confidence_desc (rows : list MatchResult) : Prop :=
  StronglySorted (fun a b => (confidence b <= confidence a)%Q) rows.

Definition sorted_by_id (rows : list MatchResult) : Prop :=
  StronglySorted (fun a b => (fub_lead_id a < fub_lead_id b)%nat) rows.

(** Tables for concrete runs: one lead of organization 7 and two CRM leads,
    the first close by address, the second equal by e-mail. *)
Definition lead_john : source_lead :=
  mk_source_lead 1 None None 3 7 (Some "John.Smith@Example.COM"%string)
    (Some "555-123-4567"%string) (Some "123 Main St"%string)
    lead_pending None None.

Definition crm_by_address : fub_lead :=
  mk_fub_lead 10 7 None None (Some "123 main street"%string) (Some 42%nat).

Definition crm_by_email : fub_lead :=
  mk_fub_lead 20 7 (Some "john.smith@example.com"%string) None None
    (Some 42%nat).

(** A CRM lead equal to the lead by e-mail and by address. *)
Definition crm_twice : fub_lead :=
  mk_fub_lead 30 7 (Some "john.smith@example.com"%string) None
    (Some "123 Main St"%string) None.

(** Stand-ins for [similarity] in concrete runs. *)
Definition similarity_70 (a b : string) : Q := 7 # 10.
Definition similarity_100 (a b : string) : Q := 1.

End Scorer.

(** ** Matcher and review resolver ([_shared/matching.ts], [lead-matcher]) *)

Module Matcher.
Import Schema.

(** The tables the matcher and the resolver touch.  [next_uuid] stands for
    [gen_random_uuid()]: every insert takes the next value. *)
Record db := mk_db {
  source_leads : list source_lead;
  fub_leads : list fub_lead;
  agents : list agent;
  lead_matches : list lead_match;
  match_candidates : list match_candidate;
  data_lineage : list lineage;
  next_uuid : uuid
}.

Definition with_source_leads (d : db) (v : list source_lead) : db :=
  mk_db v (fub_leads d) (agents d) (lead_matches d) (match_candidates d)
    (data_lineage d) (next_uuid d).

Definition with_match_candidates (d : db) (v : list match_candidate) : db :=
  mk_db (source_leads d) (fub_leads d) (agents d) (lead_matches d) v
    (data_lineage d) (next_uuid d).

(** [MATCH_THRESHOLDS]. *)
Definition AUTO_MATCH : Q := 9 # 10.
Definition REVIEW_THRESHOLD : Q := 6 # 10.
Definition REJECT_THRESHOLD : Q := 4 # 10.

(** What a function of matching.ts does: it returns, or it throws. *)
Inductive outcome (A : Type) :=
| Returned (a : A)
| Threw (message : string).
Arguments Returned {A} a.
Arguments Threw {A} message.

Record ProcessResult := mk_ProcessResult {
  matched : bool;
  matchId : option uuid;
  candidatesCreated : nat
}.

(** [update source_leads set ... where id = sourceLeadId]. *)
Definition update_source_lead (d : db) (id : uuid)
    (f : source_lead -> source_lead) : db :=
  with_source_leads d
    (map (fun l => if sl_id l =? id then f l else l) (source_leads d)).

Definition set_match (status : lead_status) (conf : option Q)
    (at_ : option nat) (l : source_lead) : source_lead :=
  mk_source_lead (sl_id l) (sl_raw_row_id l) (sl_ingestion_id l)
    (sl_lead_source_id l) (sl_organization_id l) (sl_email l) (sl_phone l)
    (sl_property_address l) status conf at_.

(** [.update({ match_status: "unmatched", matched_at })]: the confidence
    column is not in the payload. *)
Definition mark_unmatched (now : nat) (l : source_lead) : source_lead :=
  set_match lead_unmatched (sl_match_confidence l) (Some now) l.

Definition mark_matched (conf : Q) (now : nat) (l : source_lead) : source_lead :=
  set_match lead_matched (Some conf) (Some now) l.

(** [.update({ match_status, match_confidence })]: [matched_at] is not in
    the payload. *)
Definition mark_review (status : lead_status) (conf : Q) (l : source_lead)
  : source_lead :=
  set_match status (Some conf) (sl_matched_at l) l.

(** Attribution: the CRM lead's [assigned_user_id], then the agent with that
    [fub_user_id]; both lookups end in [.single()].  [if
    (fubLead?.assigned_user_id)] is false for a missing id and for 0. *)
Definition attribution (d : db) (fub_id : uuid) : option uuid * option uuid :=
  match single (filter (fun f => fl_id f =? fub_id) (fub_leads d)) with
  | Some fubLead =>
      match fl_assigned_user_id fubLead with
      | Some (S u) =>
          match single (filter (fun a => match ag_fub_user_id a with
                                         | Some w => w =? S u
                                         | None => false
                                         end) (agents d)) with
          | Some agent => (Some (ag_id agent), ag_team_id agent)
          | None => (None, None)
          end
      | _ => (None, None)
      end
  | None => (None, None)
  end.

Definition lead_exists (d : db) (id : uuid) : bool :=
  existsb (fun l => sl_id l =? id) (source_leads d).

Definition fub_exists (d : db) (id : uuid) : bool :=
  existsb (fun f => fl_id f =? id) (fub_leads d).

Definition pair_matched (d : db) (lead fub : uuid) : bool :=
  existsb (fun m => (lm_source_lead_id m =? lead) && (lm_fub_lead_id m =? fub))
    (lead_matches d).

(** [insert into lead_matches ... returning id].  The insert is refused when
    a referenced lead is missing (foreign keys) or when a row for the same
    (source lead, CRM lead) pair exists ([unique(source_lead_id,
    fub_lead_id)]).  The status column takes its default, ['active']. *)
Definition insert_lead_match (d : db) (lead fub : uuid)
    (row : uuid -> lead_match) : option (uuid * db) :=
  if lead_exists d lead && fub_exists d fub && negb (pair_matched d lead fub)
  then Some (next_uuid d,
             mk_db (source_leads d) (fub_leads d) (agents d)
               (lead_matches d ++ [row (next_uuid d)]) (match_candidates d)
               (data_lineage d) (S (next_uuid d)))
  else None.

Definition insert_lineage (d : db) (row : uuid -> lineage) : db :=
  mk_db (source_leads d) (fub_leads d) (agents d) (lead_matches d)
    (match_candidates d) (data_lineage d ++ [row (next_uuid d)])
    (S (next_uuid d)).

(** [c.match_type.replace("_exact", "").replace("_fuzzy", "")]. *)
Definition field_of (t : match_type) : string :=
  match t with
  | email_exact | email_fuzzy => "email"
  | phone_exact | phone_fuzzy => "phone"
  | address_exact | address_fuzzy => "address"
  | name_address => "name_address"
  | manual => "manual"
  | ai_suggested => "ai_suggested"
  end.

(** One element of [candidateInserts]. *)
Record CandidateInsert := mk_CandidateInsert {
  ci_source_lead_id : uuid;
  ci_fub_lead_id : uuid;
  ci_confidence_score : Q;
  ci_match_reasons : list MatchReason
}.

Definition candidateInsert (sourceLeadId : uuid) (c : MatchResult)
  : CandidateInsert :=
  mk_CandidateInsert sourceLeadId (fub_lead_id c) (confidence c)
    [mk_MatchReason (result_type c) (field_of (result_type c)) (confidence c)
       (result_details c)].

Definition same_pair (lead fub : uuid) (c : match_candidate) : bool :=
  (mc_source_lead_id c =? lead) && (mc_fub_lead_id c =? fub).

(** One row of [upsert(..., { onConflict: "source_lead_id,fub_lead_id" })]:
    an existing row of the pair gets the payload columns (score and reasons)
    and keeps the others, its status among them; otherwise a row is inserted
    with the column defaults (status ['pending']). *)
Definition upsert_one (d : db) (p : CandidateInsert) : db :=
  if existsb (same_pair (ci_source_lead_id p) (ci_fub_lead_id p))
       (match_candidates d)
  then with_match_candidates d
         (map (fun c =>
                 if same_pair (ci_source_lead_id p) (ci_fub_lead_id p) c
                 then mk_match_candidate (mc_id c) (mc_source_lead_id c)
                        (mc_fub_lead_id c) (ci_confidence_score p)
                        (ci_match_reasons p) (mc_status c) (mc_reviewed_by c)
                        (mc_reviewed_at c) (mc_lead_match_id c)
                 else c) (match_candidates d))
  else mk_db (source_leads d) (fub_leads d) (agents d) (lead_matches d)
         (match_candidates d
          ++ [mk_match_candidate (next_uuid d) (ci_source_lead_id p)
                (ci_fub_lead_id p) (ci_confidence_score p)
                (ci_match_reasons p) cand_pending None None None])
         (data_lineage d) (S (next_uuid d)).

Fixpoint distinct_ids (l : list uuid) : bool :=
  match l with
  | [] => true
  | x :: t => negb (existsb (Nat.eqb x) t) && distinct_ids t
  end.

(** The whole upsert is one statement.  It is refused ([candidateError]) when
    a referenced lead is missing or when two rows of the payload hit the same
    pair; nothing is written then. *)
Definition upsert_accepted (d : db) (payload : list CandidateInsert) : bool :=
  forallb (fun p => lead_exists d (ci_source_lead_id p)
                    && fub_exists d (ci_fub_lead_id p)) payload
  && distinct_ids (map ci_fub_lead_id payload).

Definition upsert_candidates (d : db) (payload : list CandidateInsert) : db :=
  if upsert_accepted d payload then fold_left upsert_one payload d else d.

(** [Math.max(...candidates.map((c) => c.confidence))] on a non-empty list. *)
Definition Qmax_bool (a b : Q) : Q := if Qle_bool a b then b else a.

Definition max_confidence (first : MatchResult) (rest : list MatchResult) : Q :=
  fold_left (fun acc c => Qmax_bool acc (confidence c)) rest (confidence first).

Definition is_auto (m : MatchResult) : bool :=
  Qle_bool AUTO_MATCH (confidence m).

(** The filter of [processMatches]: [confidence >= REJECT_THRESHOLD &&
    confidence < AUTO_MATCH]. *)
Definition is_candidate (m : MatchResult) : bool :=
  Qle_bool REJECT_THRESHOLD (confidence m)
  && negb (Qle_bool AUTO_MATCH (confidence m)).

(** The review band of the specification, [REVIEW_THRESHOLD <= confidence <
    AUTO_MATCH]; [processMatches] itself does not read [REVIEW_THRESHOLD]. *)
Definition in_review_band (m : MatchResult) : bool :=
  Qle_bool REVIEW_THRESHOLD (confidence m)
  && negb (Qle_bool AUTO_MATCH (confidence m)).

Definition lineage_of_match (sourceLeadId matchId : uuid) (id : uuid) : lineage :=
  mk_lineage id "source_leads" sourceLeadId "lead_matches" matchId
    "create" "match" "system".

(** [processMatches(supabase, sourceLeadId, matches, organizationId)]; the
    last parameter is not used by the function. *)
Definition processMatches (d : db) (sourceLeadId : uuid)
    (matches : list MatchResult) (organizationId : uuid) (now : nat)
  : db * outcome ProcessResult :=
  match matches with
  | [] =>
      (update_source_lead d sourceLeadId (mark_unmatched now),
       Returned (mk_ProcessResult false None 0))
  | _ :: _ =>
      match find is_auto matches with
      | Some autoMatch =>
          let '(agentId, teamId) := attribution d (fub_lead_id autoMatch) in
          match insert_lead_match d sourceLeadId (fub_lead_id autoMatch)
                  (fun id =>
                     mk_lead_match id sourceLeadId (fub_lead_id autoMatch)
                       (result_type autoMatch) (confidence autoMatch)
                       (scorer_details (result_details autoMatch)) by_system
                       None agentId teamId match_active) with
          | None => (d, Threw "Failed to create match")
          | Some (matchId, d1) =>
              let d2 := update_source_lead d1 sourceLeadId
                          (mark_matched (confidence autoMatch) now) in
              let d3 := insert_lineage d2
                          (lineage_of_match sourceLeadId matchId) in
              (d3, Returned (mk_ProcessResult true (Some matchId) 0))
          end
      | None =>
          match filter is_candidate matches with
          | first :: rest =>
              let candidates := first :: rest in
              let d1 := upsert_candidates d
                          (map (candidateInsert sourceLeadId) candidates) in
              let d2 := update_source_lead d1 sourceLeadId
                          (mark_review
                             (if 1 <? length candidates
                              then lead_multiple else lead_review)
                             (max_confidence first rest)) in
              (d2, Returned (mk_ProcessResult false None (length candidates)))
          | [] =>
              (update_source_lead d sourceLeadId (mark_unmatched now),
               Returned (mk_ProcessResult false None 0))
          end
      end
  end.

(** [approveCandidate(supabase, candidateId, reviewedBy)]. *)
Definition approveCandidate (d : db) (candidateId reviewedBy : uuid) (now : nat)
  : db * outcome uuid :=
  match single (filter (fun c => mc_id c =? candidateId) (match_candidates d)) with
  | None => (d, Threw "Candidate not found")
  | Some candidate =>
      let '(agentId, teamId) := attribution d (mc_fub_lead_id candidate) in
      match insert_lead_match d (mc_source_lead_id candidate)
              (mc_fub_lead_id candidate)
              (fun id =>
                 mk_lead_match id (mc_source_lead_id candidate)
                   (mc_fub_lead_id candidate) manual
                   (mc_confidence_score candidate)
                   (approved_from_candidate (mc_match_reasons candidate))
                   by_manual (Some reviewedBy) agentId teamId match_active) with
      | None => (d, Threw "Failed to create match")
      | Some (matchId, d1) =>
          let d2 := with_match_candidates d1
                      (map (fun c =>
                              if mc_id c =? candidateId
                              then mk_match_candidate (mc_id c)
                                     (mc_source_lead_id c) (mc_fub_lead_id c)
                                     (mc_confidence_score c)
                                     (mc_match_reasons c) cand_approved
                                     (Some reviewedBy) (Some now) (Some matchId)
                              else c) (match_candidates d1)) in
          let d3 := update_source_lead d2 (mc_source_lead_id candidate)
                      (mark_matched (mc_confidence_score candidate) now) in
          let d4 := with_match_candidates d3
                      (map (fun c =>
                              if (mc_source_lead_id c
                                  =? mc_source_lead_id candidate)
                                 && negb (mc_id c =? candidateId)
                                 && candidate_status_eqb (mc_status c)
                                      cand_pending
                              then mk_match_candidate (mc_id c)
                                     (mc_source_lead_id c) (mc_fub_lead_id c)
                                     (mc_confidence_score c)
                                     (mc_match_reasons c) cand_rejected
                                     (Some reviewedBy) (Some now)
                                     (mc_lead_match_id c)
                              else c) (match_candidates d3)) in
          (d4, Returned matchId)
      end
  end.

(** *** The [lead-matcher] handler *)

Record MatchRequest := mk_MatchRequest {
  source_lead_ids : list uuid;
  organization_id : option uuid;
  batch_size : nat
}.

Record MatchSummary := mk_MatchSummary {
  processed : nat;
  n_matched : nat;
  n_unmatched : nat;
  n_review : nat;
  errors : nat
}.

Section WithScorer.

Variable similarity : string -> string -> Q.
Variable order_by : list MatchResult -> list MatchResult.

(** [findMatches(supabase, sourceLeadId, maxResults = 5)]. *)
Definition findMatches (d : db) (sourceLeadId : uuid) (maxResults : nat)
  : list MatchResult :=
  Scorer.find_fub_matches similarity order_by (source_leads d) (fub_leads d)
    sourceLeadId maxResults.

(** The body of the loop over [sourceLeadIds]: the lead is looked up, scored
    with the default limit and handed to [processMatches]; a thrown error is
    caught and counted. *)
Definition match_lead (d : db) (sourceLeadId : uuid) (now : nat)
  : db * option (outcome ProcessResult) :=
  match single (filter (fun l => sl_id l =? sourceLeadId) (source_leads d)) with
  | None => (d, None)
  | Some sourceLead =>
      let '(d', r) := processMatches d sourceLeadId
                        (findMatches d sourceLeadId 5)
                        (sl_organization_id sourceLead) now in
      (d', Some r)
  end.

Definition count_result (s : MatchSummary) (r : option (outcome ProcessResult))
  : MatchSummary :=
  match r with
  | Some (Returned res) =>
      if matched res
      then mk_MatchSummary (S (processed s)) (S (n_matched s)) (n_unmatched s)
             (n_review s) (errors s)
      else if 0 <? candidatesCreated res
      then mk_MatchSummary (S (processed s)) (n_matched s) (n_unmatched s)
             (S (n_review s)) (errors s)
      else mk_MatchSummary (S (processed s)) (n_matched s) (S (n_unmatched s))
             (n_review s) (errors s)
  | _ =>
      mk_MatchSummary (processed s) (n_matched s) (n_unmatched s) (n_review s)
        (S (errors s))
  end.

Fixpoint match_all (d : db) (ids : list uuid) (now : nat) (s : MatchSummary)
  : db * MatchSummary :=
  match ids with
  | [] => (d, s)
  | id :: rest =>
      let '(d', r) := match_lead d id now in
      match_all d' rest now (count_result s r)
  end.

Definition is_pending (l : source_lead) : bool :=
  lead_status_eqb (sl_match_status l) lead_pending.

(** [body.batch_size || 100]. *)
Definition limit_of (body : MatchRequest) : nat :=
  match batch_size body with 0 => 100 | n => n end.

(** The three ways the handler builds [sourceLeadIds]: the ids of the
    request, the pending leads of an organization, all pending leads (cron).
    The two queries have a [limit] and no [order by]; the model takes the rows
    in table order. *)
Definition selected_ids (d : db) (body : MatchRequest) : list uuid :=
  match source_lead_ids body with
  | _ :: _ => source_lead_ids body
  | [] =>
      match organization_id body with
      | Some org =>
          map sl_id
            (firstn (limit_of body)
               (filter (fun l => (sl_organization_id l =? org) && is_pending l)
                  (source_leads d)))
      | None =>
          map sl_id (firstn (limit_of body) (filter is_pending (source_leads d)))
      end
  end.

Definition serve (d : db) (body : MatchRequest) (now : nat) : db * MatchSummary :=
  match_all d (selected_ids d body) now (mk_MatchSummary 0 0 0 0 0).

End WithScorer.

(** *** Views of the store used by the statements *)

Definition matches_of (d : db) (lead : uuid) : list lead_match :=
  filter (fun m => lm_source_lead_id m =? lead) (lead_matches d).

Definition active_matches (d : db) (lead : uuid) : list lead_match :=
  filter (fun m => (lm_source_lead_id m =? lead) && is_active (lm_status m))
    (lead_matches d).

Definition candidates_of (d : db) (lead : uuid) : list match_candidate :=
  filter (fun c => mc_source_lead_id c =? lead) (match_candidates d).

(** The lineage rows that mention a lead, as source or as target. *)
Definition lineage_mentions (lead : uuid) (r : lineage) : bool :=
  (String.eqb (dl_source_table r) "source_leads" && (dl_source_id r =? lead))
  || (String.eqb (dl_target_table r) "source_leads" && (dl_target_id r =? lead)).

Definition lineage_of (d : db) (lead : uuid) : list lineage :=
  filter (lineage_mentions lead) (data_lineage d).

Definition rows_of_lead (d : db) (lead : uuid) : list source_lead :=
  filter (fun l => sl_id l =? lead) (source_leads d).

(** The list form of [update_source_lead]. *)
Definition update_rows (id : uuid) (f : source_lead -> source_lead)
    (rows : list source_lead) : list source_lead :=
  map (fun l => if sl_id l =? id then f l else l) rows.

(** A payload whose rows all belong to one lead, and a table row that carries
    a payload row. *)
Definition payload_for (lead : uuid) (payload : list CandidateInsert) : Prop :=
  Forall (fun p => ci_source_lead_id p = lead) payload.

Definition row_of_insert (p : CandidateInsert) (c : match_candidate) : Prop :=
  mc_source_lead_id c = ci_source_lead_id p
  /\ mc_fub_lead_id c = ci_fub_lead_id p
  /\ mc_confidence_score c = ci_confidence_score p
  /\ mc_match_reasons c = ci_match_reasons p.

(** The part of the store that belongs to one lead. *)
Definition view (d : db) (lead : uuid) :=
  (rows_of_lead d lead, matches_of d lead, candidates_of d lead,
   lineage_of d lead).

(** *** The invariant of the guarded pipeline

    [initial]: the store as the transformer leaves it, every lead pending and
    no match or candidate yet.  A step is one pass of the matcher loop on a
    lead that is pending (what organization and cron mode select), or an
    approval of a candidate that is pending (what the review queue lists). *)
Definition initial (d : db) : Prop :=
  NoDup (map sl_id (source_leads d))
  /\ lead_matches d = []
  /\ match_candidates d = []
  /\ Forall (fun l => sl_match_status l = lead_pending) (source_leads d).

Inductive reachable (similarity : string -> string -> Q)
    (order_by : list MatchResult -> list MatchResult) : db -> Prop :=
| reach_initial (d : db) :
    initial d -> reachable similarity order_by d
| reach_match (d : db) (id : uuid) (now : nat) (l : source_lead) :
    reachable similarity order_by d ->
    In l (source_leads d) -> sl_id l = id ->
    sl_match_status l = lead_pending ->
    reachable similarity order_by
      (fst (match_lead similarity order_by d id now))
| reach_approve (d : db) (candidateId reviewedBy : uuid) (now : nat)
    (c : match_candidate) :
    reachable similarity order_by d ->
    In c (match_candidates d) -> mc_id c = candidateId ->
    mc_status c = cand_pending ->
    reachable similarity order_by
      (fst (approveCandidate d candidateId reviewedBy now)).

Record Inv (d : db) : Prop := mk_Inv {
  inv_pk : NoDup (map sl_id (source_leads d));
  inv_matched :
    forall l, In l (source_leads d) -> sl_match_status l = lead_matched ->
    exists m, matches_of d (sl_id l) = [m] /\ lm_status m = match_active;
  inv_unmatched :
    forall l, In l (source_leads d) -> sl_match_status l <> lead_matched ->
    matches_of d (sl_id l) = [];
  inv_pending_candidate :
    forall c l, In c (match_candidates d) -> mc_status c = cand_pending ->
    In l (source_leads d) -> sl_id l = mc_source_lead_id c ->
    sl_match_status l = lead_review \/ sl_match_status l = lead_multiple
}.

(** *** A store for concrete runs

    One pending lead of organization 7 and two CRM leads of the same
    organization whose addresses are close to the lead's (similarity 0.7
    under [Scorer.similarity_70]). *)
Definition lead_oak : source_lead :=
  mk_source_lead 1 None None 3 7 None (Some "5550000000"%string)
    (Some "456 Oak Ave"%string) lead_pending None None.

Definition crm_oak_a : fub_lead :=
  mk_fub_lead 10 7 None None (Some "456 oak avenue"%string) (Some 42).

Definition crm_oak_b : fub_lead :=
  mk_fub_lead 11 7 None None (Some "456 oak av"%string) None.

Definition agent_42 : agent := mk_agent 50 (Some 60) (Some 42).

Definition db_oak : db :=
  mk_db [lead_oak] [crm_oak_a; crm_oak_b] [agent_42] [] [] [] 100.

Definition cron_request : MatchRequest := mk_MatchRequest [] None 0.
Definition explicit_request (ids : list uuid) : MatchRequest :=
  mk_MatchRequest ids None 0.

(** The matcher runs in cron mode at time 1000 and leaves two candidates
    (ids 100 and 101); reviewer 9 approves candidate 100 at time 2000. *)
Definition db_oak_review : db :=
  fst (serve Scorer.similarity_70 Scorer.sort_rows db_oak cron_request 1000).

Definition db_oak_approved : db :=
  fst (approveCandidate db_oak_review 100 9 2000).

(** The first candidate of [db_oak_review], still pending there. *)
Definition cand_oak_a : match_candidate :=
  mk_match_candidate 100 1 10 (7 # 10)
    [mk_MatchReason address_fuzzy "address" (7 # 10)
       (address_similarity (Some "456 oak ave"%string)
          (Some "456 oak avenue"%string) (7 # 10))]
    cand_pending None None None.

(** The row of the lead in [db_oak_approved]. *)
Definition lead_oak_matched : source_lead :=
  mark_matched (7 # 10) 2000 lead_oak.

End Matcher.

(** ** Ingestion stager: the attachment loop of [email-ingest] *)

Module Stager.
Import Schema.

(** What the handler reads and writes: the table [raw_ingestions], the
    objects of the storage bucket [lead-files], the requests sent to
    [csv-parser] (the only writer of [raw_lead_rows]), and that table. *)
Record store := mk_store {
  raw_ingestions : list raw_ingestion;
  lead_files : list (storage_path * string);
  raw_lead_rows : list raw_lead_row;
  parser_calls : list uuid;
  next_uuid : uuid
}.

(** [Attachment]: file name, MIME type and the (base64) content. *)
Record Attachment := mk_Attachment {
  filename : string;
  type : string;
  content : string
}.

(** The e-mail a request carries, and what the two lookups before the loop
    found. *)
Record Email := mk_Email {
  email_to : string;
  email_from : string;
  email_subject : string;
  leadSource : option uuid;
  organizationId : option uuid
}.

Section WithHash.

(** [computeHash]: SHA-256 of the content, in hexadecimal. *)
Variable computeHash : string -> string.

Definition path_eqb (a b : storage_path) : bool :=
  (fst a =? fst b) && String.eqb (snd a) (snd b).

(** [storage.from("lead-files").upload(path, bytes)]: refused when an object
    of that path exists; the handler logs the error and goes on. *)
Definition upload (files : list (storage_path * string)) (path : storage_path)
    (bytes : string) : list (storage_path * string) :=
  if existsb (fun f => path_eqb (fst f) path) files then files
  else files ++ [(path, bytes)].

(** One turn of [for (const attachment of attachments)].  [ingestions] is
    the array the response is built from. *)
Definition stage_attachment (mail : Email) (now : nat)
    (acc : store * list raw_ingestion) (attachment : Attachment)
  : store * list raw_ingestion :=
  let '(st, ingestions) := acc in
  let fileHash := computeHash (content attachment) in
  match single (filter (fun r => String.eqb (ri_file_hash r) fileHash)
                  (raw_ingestions st)) with
  | Some existing => (st, ingestions)
  | None =>
      let storagePath := (now, filename attachment) in
      let ingestion :=
        mk_raw_ingestion (next_uuid st) (leadSource mail) (organizationId mail)
          "email" (filename attachment) storagePath fileHash ing_pending
          None 0 0 0 0 [mk_log_entry now "email_received" None] [] None None in
      (mk_store (raw_ingestions st ++ [ingestion])
         (upload (lead_files st) storagePath (content attachment))
         (raw_lead_rows st)
         (parser_calls st ++ [ri_id ingestion])
         (S (next_uuid st)),
       ingestions ++ [ingestion])
  end.

(** The handler from the attachment list on; the response carries
    [ingestion_ids], the ids of the rows created by this call. *)
Definition stage (st : store) (mail : Email) (attachments : list Attachment)
    (now : nat) : store * list uuid :=
  let '(st', ingestions) :=
    fold_left (stage_attachment mail now) attachments (st, []) in
  (st', map ri_id ingestions).

End WithHash.

(** A hash for concrete runs: the content itself. *)
Definition hash_for_runs (s : string) : string := s.

Definition store_empty : store := mk_store [] [] [] [] 0.

Definition mail_zillow : Email :=
  mk_Email "leads@tge.example" "feed@zillow.example" "Leads" (Some 3) (Some 7).

Definition report_csv : Attachment :=
  mk_Attachment "report.csv" "text/csv" "ZW1haWwKYUBiLmNv".

End Stager.

(** ** Embedding queue worker ([_shared/embeddings.ts]) *)

Module EmbeddingQueue.
Import Schema.

(** One write of an embedding onto a row of [source_leads] or [fub_leads]:
    table, record id, vector, embedded text, time. *)
Record embedding_write := mk_embedding_write {
  ew_table : string;
  ew_record_id : uuid;
  ew_embedding : vector;
  ew_embedding_text : string;
  ew_embedded_at : nat
}.

(** The queue, kept in [created_at] order, and the writes made to the target
    tables. *)
Record store := mk_store {
  embedding_queue : list embedding_task;
  embedded : list embedding_write;
  next_uuid : uuid
}.

Definition with_queue (st : store) (q : list embedding_task) : store :=
  mk_store q (embedded st) (next_uuid st).

(** [update embedding_queue set ... where id = ...]. *)
Definition update_task (st : store) (id : uuid)
    (f : embedding_task -> embedding_task) : store :=
  with_queue st
    (map (fun t => if eq_id t =? id then f t else t) (embedding_queue st)).

Definition set_status (s : task_status) (t : embedding_task) : embedding_task :=
  mk_embedding_task (eq_id t) (eq_table_name t) (eq_record_id t)
    (eq_text_to_embed t) s (eq_attempts t) (eq_last_error t) (eq_embedding t)
    (eq_processed_at t).

(** [{ status: "pending", attempts: item.attempts + 1, last_error }]; [item]
    is the row as it was fetched. *)
Definition back_to_pending (item : embedding_task) (message : string)
    (t : embedding_task) : embedding_task :=
  mk_embedding_task (eq_id t) (eq_table_name t) (eq_record_id t)
    (eq_text_to_embed t) task_pending (eq_attempts item + 1) (Some message)
    (eq_embedding t) (eq_processed_at t).

(** [{ status: "completed", embedding, processed_at }]. *)
Definition complete (v : vector) (now : nat) (t : embedding_task)
  : embedding_task :=
  mk_embedding_task (eq_id t) (eq_table_name t) (eq_record_id t)
    (eq_text_to_embed t) task_completed (eq_attempts t) (eq_last_error t)
    (Some v) (Some now).

(** [queueForEmbedding]: upsert on [(table_name, record_id)], which sets the
    text, status ['pending'] and [attempts = 0]. *)
Definition same_record (tableName : string) (recordId : uuid)
    (t : embedding_task) : bool :=
  String.eqb (eq_table_name t) tableName && (eq_record_id t =? recordId).

Definition queueForEmbedding (st : store) (tableName : string)
    (recordId : uuid) (textToEmbed : string) : store :=
  if existsb (same_record tableName recordId) (embedding_queue st)
  then with_queue st
         (map (fun t =>
                 if same_record tableName recordId t
                 then mk_embedding_task (eq_id t) tableName recordId
                        textToEmbed task_pending 0 (eq_last_error t)
                        (eq_embedding t) (eq_processed_at t)
                 else t) (embedding_queue st))
  else mk_store
         (embedding_queue st
          ++ [mk_embedding_task (next_uuid st) tableName recordId textToEmbed
                task_pending 0 None None None])
         (embedded st) (S (next_uuid st)).

Section WithProvider.

(** [generateEmbeddings]: the vectors in input order, or the message of the
    error it throws.  [target_update_error]: the error the update of the
    target row is answered with, if any. *)
Variable generateEmbeddings : list string -> list vector + string.
Variable target_update_error : embedding_task -> option string.

(** The rows fetched: [status = 'pending'], [attempts < maxAttempts], by
    [created_at], at most [batchSize]. *)
Definition claimable (maxAttempts : nat) (t : embedding_task) : bool :=
  task_status_eqb (eq_status t) task_pending && (eq_attempts t <? maxAttempts).

Definition fetch_items (st : store) (batchSize maxAttempts : nat)
  : list embedding_task :=
  firstn batchSize (filter (claimable maxAttempts) (embedding_queue st)).

(** [update({ status: "processing" }).in("id", itemIds)]. *)
Definition mark_processing (st : store) (items : list embedding_task) : store :=
  with_queue st
    (map (fun t => if existsb (fun i => eq_id i =? eq_id t) items
                   then set_status task_processing t else t)
       (embedding_queue st)).

(** The body of the loop over the items, when the provider answered.  A
    missing vector ([embeddings[i]] undefined) makes [formatPgVector] throw,
    inside the inner [try]. *)
Definition store_embedding (now : nat)
    (acc : store * (nat * nat)) (iv : embedding_task * option vector)
  : store * (nat * nat) :=
  let '(st, (processed, failed)) := acc in
  let '(item, embedding) := iv in
  match embedding with
  | Some v =>
      match target_update_error item with
      | Some message =>
          (update_task st (eq_id item) (back_to_pending item message),
           (processed, S failed))
      | None =>
          let st1 := mk_store (embedding_queue st)
                       (embedded st
                        ++ [mk_embedding_write (eq_table_name item)
                              (eq_record_id item) v (eq_text_to_embed item)
                              now])
                       (next_uuid st) in
          (update_task st1 (eq_id item) (complete v now),
           (S processed, failed))
      end
  | None =>
      (update_task st (eq_id item)
         (back_to_pending item "Cannot read properties of undefined"),
       (processed, S failed))
  end.

Fixpoint zip_embeddings (items : list embedding_task) (embeddings : list vector)
  : list (embedding_task * option vector) :=
  match items with
  | [] => []
  | item :: rest =>
      (item, hd_error embeddings) :: zip_embeddings rest (tl embeddings)
  end.

(** The [catch] of the outer [try]: every fetched item goes back to
    ['pending'] with one more attempt. *)
Definition reset_all (st : store) (items : list embedding_task)
    (message : string) : store :=
  fold_left (fun s item => update_task s (eq_id item)
                             (back_to_pending item message)) items st.

(** [processEmbeddingQueue(supabase, batchSize = 50, maxAttempts = 3)]: the
    new store and [{ processed, failed }]. *)
Definition processEmbeddingQueue (st : store) (batchSize maxAttempts now : nat)
  : store * (nat * nat) :=
  match fetch_items st batchSize maxAttempts with
  | [] => (st, (0, 0))
  | first :: rest =>
      let items := first :: rest in
      let st1 := mark_processing st items in
      match generateEmbeddings (map eq_text_to_embed items) with
      | inl embeddings =>
          fold_left (store_embedding now) (zip_embeddings items embeddings)
            (st1, (0, 0))
      | inr message => (reset_all st1 items message, (0, length items))
      end
  end.

End WithProvider.

(** Providers for concrete runs. *)
Definition provider_down (texts : list string) : list vector + string :=
  inr "OpenAI API error: overloaded"%string.
Definition provider_up (texts : list string) : list vector + string :=
  inl (map (fun _ => [1%Q]) texts).
Definition target_updates_succeed (t : embedding_task) : option string := None.

(** A task that has failed twice. *)
Definition task_twice_failed : embedding_task :=
  mk_embedding_task 1 "source_leads" 200 "Lead from Zillow" task_pending 2
    (Some "OpenAI API error: overloaded"%string) None None.

Definition store_twice_failed : store := mk_store [task_twice_failed] [] 2.

(** Every task that has the status ['failed'] was in the queue [q0], the same,
    before. *)
Definition no_new_failed (q0 : list embedding_task) (st : store) : Prop :=
  forall t, In t (embedding_queue st) ->
            eq_status t = task_failed -> In t q0.

End EmbeddingQueue.

(** ** Parse step: the edge function [csv-parser] *)

Module Parser.
Import Schema.

Record store := mk_store {
  raw_ingestions : list raw_ingestion;
  lead_sources : list lead_source;
  lead_files : list (storage_path * string);
  raw_lead_rows : list raw_lead_row;
  transformer_calls : list uuid;
  next_uuid : uuid
}.

Inductive response :=
| parsed_response (total_rows valid_rows error_rows : nat)
| error_response (status : nat) (message : string).

(** [getDefaultFieldMapping()]. *)
Definition getDefaultFieldMapping : list (string * list string) :=
  [ ("email", ["email"; "Email"; "EMAIL"; "Consumer Email"; "E-mail"]);
    ("phone", ["phone"; "Phone"; "PHONE"; "Consumer Phone"; "Phone Number"]);
    ("first_name", ["first_name"; "First Name"; "FirstName"; "First"]);
    ("last_name", ["last_name"; "Last Name"; "LastName"; "Last"]);
    ("full_name", ["name"; "Name"; "Full Name"; "Consumer Name"]);
    ("address", ["property_address"; "Address"; "Property Address";
                 "Street Address"]);
    ("city", ["city"; "City"; "Property City"]);
    ("state", ["state"; "State"; "Property State"]);
    ("zip", ["zip"; "Zip"; "ZIP"; "Postal Code"; "Zip Code"]);
    ("lead_type", ["lead_type"; "Type"; "Inquiry Type"; "Lead Type"]);
    ("source_lead_id", ["id"; "Lead ID"; "lead_id"; "ID"]);
    ("source_created_at", ["created"; "Created Date"; "Date"; "Inquiry Date";
                           "Created At"]) ]%string.

(** [fieldMapping[field] || [field]]. *)
Definition columns_of (fieldMapping : list (string * list string))
    (field : string) : list string :=
  match find (fun kv => String.eqb (fst kv) field) fieldMapping with
  | Some kv => snd kv
  | None => [field]
  end.

(** [lines.slice(skip_rows).join("\n")]. *)
Fixpoint drop_lines (s : string) (n : nat) : string :=
  match n with
  | 0 => s
  | S k =>
      match s with
      | EmptyString => EmptyString
      | String c t =>
          if Ascii.eqb c (ascii_of_nat 10) then drop_lines t k
          else drop_lines t (S k)
      end
  end.

Section WithParsers.

(** [parse] of the Deno standard library, with [skipFirstRow] and
    [separator]: the rows, or nothing when it throws.  [regex_test r e] is
    [(r ? new RegExp(r) : /^[^\s@]+@[^\s@]+\.[^\s@]+$/).test(e)]. *)
Variable parse : string -> bool -> string -> option (list csv_row).
Variable regex_test : option string -> string -> bool.

(** [validateRow(row, fieldMapping, validationRules)]. *)
Definition validateRow (row : csv_row)
    (fieldMapping : list (string * list string))
    (required_fields : list string) (email_regex : option string)
  : bool * list string :=
  let missing :=
    flat_map (fun requiredField =>
                if existsb (fun col => has_value (row_get row col))
                     (columns_of fieldMapping requiredField)
                then []
                else [append "Missing required field: " requiredField])
      required_fields in
  let invalid :=
    match find (fun col => has_value (row_get row col))
            (columns_of fieldMapping "email") with
    | Some col =>
        match row_get row col with
        | Some email =>
            if regex_test (match email_regex with
                           | Some EmptyString => None
                           | r => r
                           end) email
            then []
            else [append "Invalid email format: " email]
        | None => []
        end
    | None => []
    end in
  let errors := missing ++ invalid in
  (match errors with [] => true | _ :: _ => false end, errors).

(** [update raw_ingestions set ... where id = ingestion_id]. *)
Definition update_ingestion (st : store) (id : uuid)
    (f : raw_ingestion -> raw_ingestion) : store :=
  mk_store (map (fun r => if ri_id r =? id then f r else r) (raw_ingestions st))
    (lead_sources st) (lead_files st) (raw_lead_rows st)
    (transformer_calls st) (next_uuid st).

(** The ten columns the pipeline updates. *)
Definition ri_set (r : raw_ingestion) (status : ingestion_status)
    (total : option nat) (parsed valid duplicate error : nat)
    (log errors : list log_entry) (started completed : option nat)
  : raw_ingestion :=
  mk_raw_ingestion (ri_id r) (ri_lead_source_id r) (ri_organization_id r)
    (ri_ingest_type r) (ri_file_name r) (ri_file_url r) (ri_file_hash r)
    status total parsed valid duplicate error log errors started completed.

(** [updateIngestionError]. *)
Definition updateIngestionError (st : store) (id : uuid) (message : string)
    (ingestion : raw_ingestion) (now : nat) : store :=
  update_ingestion st id (fun r =>
    ri_set r ing_failed (ri_total_rows r) (ri_parsed_rows r) (ri_valid_rows r)
      (ri_duplicate_rows r) (ri_error_rows r)
      (ri_processing_log ingestion ++ [mk_log_entry now "error" (Some message)])
      (ri_errors ingestion ++ [mk_log_entry now "error" (Some message)])
      (ri_started_at r) (ri_completed_at r)).

(** The state of the loop [for (let i = 0; i < rows.length; i++)]. *)
Record loop_state := mk_loop_state {
  rawRows : list raw_lead_row;
  validCount : nat;
  errorCount : nat;
  index : nat;
  fresh : uuid
}.

Definition validate_step (ingestion_id : uuid) (skip_rows : nat)
    (fieldMapping : list (string * list string))
    (required_fields : list string) (email_regex : option string)
    (s : loop_state) (row : csv_row) : loop_state :=
  let '(isValid, errors) :=
    validateRow row fieldMapping required_fields email_regex in
  mk_loop_state
    (rawRows s
     ++ [mk_raw_lead_row (fresh s) ingestion_id (index s + 1 + skip_rows) row
           isValid errors false None None])
    (if isValid then S (validCount s) else validCount s)
    (if isValid then errorCount s else S (errorCount s))
    (S (index s)) (S (fresh s)).

(** The handler.  The last update writes [parsed_rows: rows.length,
    valid_rows: validCount, error_rows: errorCount] and builds the log from
    the row as it was read at the start. *)
Definition csv_parser (st : store) (ingestion_id : uuid) (now : nat)
  : store * response :=
  match single (filter (fun r => ri_id r =? ingestion_id) (raw_ingestions st)) with
  | None => (st, error_response 404 "Ingestion not found")
  | Some ingestion =>
      let st1 := update_ingestion st ingestion_id (fun r =>
                   ri_set r ing_processing (ri_total_rows r) (ri_parsed_rows r)
                     (ri_valid_rows r) (ri_duplicate_rows r) (ri_error_rows r)
                     (ri_processing_log ingestion
                      ++ [mk_log_entry now "parsing_started" None])
                     (ri_errors r) (Some now) (ri_completed_at r)) in
      match find (fun f => (fst (fst f) =? fst (ri_file_url ingestion))
                           && String.eqb (snd (fst f))
                                (snd (ri_file_url ingestion)))
              (lead_files st) with
      | None =>
          (updateIngestionError st1 ingestion_id "Failed to download file"
             ingestion now,
           error_response 500 "Failed to download file")
      | Some (_, csvContent) =>
          let leadSource :=
            match ri_lead_source_id ingestion with
            | Some ls => find (fun s => ls_id s =? ls) (lead_sources st)
            | None => None
            end in
          let skip_rows := match leadSource with
                           | Some s => ls_skip_rows s | None => 0 end in
          let has_header := match leadSource with
                            | Some s => ls_has_header s | None => true end in
          let delimiter := match leadSource with
                           | Some s => match ls_delimiter s with
                                       | EmptyString => ","%string
                                       | dl => dl
                                       end
                           | None => ","%string
                           end in
          match parse (drop_lines csvContent skip_rows) has_header delimiter with
          | None =>
              (updateIngestionError st1 ingestion_id "CSV parse error"
                 ingestion now,
               error_response 500 "Failed to parse CSV")
          | Some rows =>
              let st2 := update_ingestion st1 ingestion_id (fun r =>
                           ri_set r (ri_status r) (Some (length rows))
                             (ri_parsed_rows r) (ri_valid_rows r)
                             (ri_duplicate_rows r) (ri_error_rows r)
                             (ri_processing_log r) (ri_errors r)
                             (ri_started_at r) (ri_completed_at r)) in
              let fieldMapping := match leadSource with
                                  | Some s => ls_field_mapping s
                                  | None => getDefaultFieldMapping
                                  end in
              let required_fields := match leadSource with
                                     | Some s => ls_required_fields s
                                     | None => ["email"%string]
                                     end in
              let email_regex := match leadSource with
                                 | Some s => ls_email_regex s
                                 | None => None
                                 end in
              let final :=
                fold_left (validate_step ingestion_id skip_rows fieldMapping
                             required_fields email_regex)
                  rows (mk_loop_state [] 0 0 0 (next_uuid st)) in
              let st3 := mk_store (raw_ingestions st2) (lead_sources st2)
                           (lead_files st2)
                           (raw_lead_rows st2 ++ rawRows final)
                           (transformer_calls st2) (fresh final) in
              let st4 := update_ingestion st3 ingestion_id (fun r =>
                           ri_set r ing_parsed (ri_total_rows r) (length rows)
                             (validCount final) (ri_duplicate_rows r)
                             (errorCount final)
                             (ri_processing_log ingestion
                              ++ [mk_log_entry now "parsing_completed" None])
                             (ri_errors r) (ri_started_at r)
                             (ri_completed_at r)) in
              (mk_store (raw_ingestions st4) (lead_sources st4)
                 (lead_files st4) (raw_lead_rows st4)
                 (transformer_calls st4 ++ [ingestion_id]) (next_uuid st4),
               parsed_response (length rows) (validCount final)
                 (errorCount final))
          end
      end
  end.

End WithParsers.

(** For concrete runs: a parser that reads one column [email], one value per
    line after the header, and a test that asks for an [@]. *)
Fixpoint lines_of (s : string) (cur : string) : list string :=
  match s with
  | EmptyString => [cur]
  | String c t =>
      if Ascii.eqb c (ascii_of_nat 10) then cur :: lines_of t EmptyString
      else lines_of t (append cur (String c EmptyString))
  end.

Definition parse_one_column (csv : string) (skipFirstRow : bool)
    (separator : string) : option (list csv_row) :=
  match lines_of csv EmptyString with
  | header :: values => Some (map (fun v => [(header, v)]) values)
  | [] => Some []
  end.

Definition has_at (r : option string) (email : string) : bool :=
  existsb (Ascii.eqb "@"%char) (list_ascii_of_string email).

(** One batch whose file has a header and two rows; the second row has no
    e-mail. *)
Definition batch_two_rows : raw_ingestion :=
  mk_raw_ingestion 100 None (Some 7) "email" "two.csv" (1000, "two.csv"%string)
    "hash" ing_pending None 0 0 0 0 [] [] None None.

Definition store_two_rows : store :=
  mk_store [batch_two_rows] []
    [((1000, "two.csv"%string),
      String.concat (String (ascii_of_nat 10) EmptyString)
        ["email"; "a@b.co"; ""]%string)]
    [] [] 200.

End Parser.

(** ** Transformer: the edge function [lead-transformer] *)

Module Transformer.
Import Schema.

Record store := mk_store {
  raw_ingestions : list raw_ingestion;
  lead_sources : list lead_source;
  raw_lead_rows : list raw_lead_row;
  source_leads : list source_lead;
  data_lineage : list lineage;
  embedding_queue : list embedding_task;
  matcher_calls : list (list uuid);
  next_uuid : uuid
}.

Inductive response :=
| transformed (leads_created duplicates_found : nat)
| nothing_to_transform
| error_response (status : nat) (message : string).

(** [String.prototype.trim] on ASCII white space. *)
Fixpoint js_ltrim (s : list ascii) : list ascii :=
  match s with
  | [] => []
  | c :: t => if Normalizer.is_pg_space c then js_ltrim t else s
  end.

Fixpoint js_rtrim (s : list ascii) : list ascii :=
  match s with
  | [] => []
  | c :: t =>
      match js_rtrim t with
      | [] => if Normalizer.is_pg_space c then [] else [c]
      | t' => c :: t'
      end
  end.

Definition js_trim (s : string) : string :=
  Normalizer.on_text (fun t => js_rtrim (js_ltrim t)) s.

(** [toLowerCase], on ASCII letters. *)
Definition toLowerCase (s : string) : string :=
  Normalizer.on_text Normalizer.pg_lower s.

(** [mapFields(rawData, fieldMapping)]: for every target field the first
    column with a value that is not blank, trimmed; [null] when there is
    none. *)
Definition mapFields (rawData : csv_row)
    (fieldMapping : list (string * list string))
  : list (string * option string) :=
  map (fun '(targetField, sourceColumns) =>
         (targetField,
          match find (fun col => has_value (row_get rawData col))
                  sourceColumns with
          | Some col => option_map js_trim (row_get rawData col)
          | None => None
          end))
    fieldMapping.

(** [normalized.email] and the like. *)
Definition field (normalized : list (string * option string)) (name : string)
  : option string :=
  match find (fun kv => String.eqb (fst kv) name) normalized with
  | Some (_, v) => v
  | None => None
  end.

(** [generateEmbeddingText(normalized, sourceName)]: the parts that are not
    empty, joined by [", "]. *)
Definition generateEmbeddingText (normalized : list (string * option string))
    (sourceName : string) : string :=
  let or_empty v := match v with Some s => s | None => EmptyString end in
  let labelled label v :=
    match v with Some s => append label s | None => EmptyString end in
  let parts :=
    [ append "Lead from " sourceName;
      match field normalized "first_name", field normalized "last_name" with
      | Some f, Some l => append f (append " " l)
      | _, _ => or_empty (field normalized "full_name")
      end;
      labelled "email: " (field normalized "email");
      labelled "phone: " (field normalized "phone");
      labelled "property: " (field normalized "address");
      or_empty (field normalized "city");
      or_empty (field normalized "state");
      or_empty (field normalized "zip");
      labelled "type: " (field normalized "lead_type") ]%string in
  String.concat ", "
    (filter (fun p => negb (String.eqb p EmptyString)) parts).

(** The duplicate lookup: [source_leads] of the organization and the source
    with [email_normalized = normalized.email.toLowerCase().trim()], ended by
    [.single()].  A NULL organization matches no row. *)
Definition find_existing (st : store) (organization_id : option uuid)
    (lead_source_id : option uuid) (email : string) : option source_lead :=
  single
    (filter (fun l =>
               match organization_id, lead_source_id with
               | Some org, Some ls =>
                   (sl_organization_id l =? org)
                   && sql_eq (sl_email_normalized l)
                        (Some (js_trim (toLowerCase email)))
                   && (sl_lead_source_id l =? ls)
               | _, _ => false
               end)
       (source_leads st)).

Definition update_raw_row (st : store) (id : uuid)
    (f : raw_lead_row -> raw_lead_row) : store :=
  mk_store (raw_ingestions st) (lead_sources st)
    (map (fun r => if rr_id r =? id then f r else r) (raw_lead_rows st))
    (source_leads st) (data_lineage st) (embedding_queue st)
    (matcher_calls st) (next_uuid st).

(** The payload [{ is_duplicate: true, duplicate_of: existing.id }], where
    [existing] is a row of [source_leads]. *)
Definition duplicate_payload (existing : source_lead) (r : raw_lead_row)
  : raw_lead_row :=
  mk_raw_lead_row (rr_id r) (rr_ingestion_id r) (rr_row_number r)
    (rr_raw_data r) (rr_is_valid r) (rr_validation_errors r) true
    (Some (sl_id existing)) (rr_source_lead_id r).

(** [update raw_lead_rows set is_duplicate = true, duplicate_of = ... where
    id = rawRow.id].  The column is declared [duplicate_of uuid references
    raw_lead_rows(id)]: the update is refused when the value is not the id of
    a raw row.  The handler does not look at the answer. *)
Definition mark_duplicate (st : store) (rawRowId : uuid)
    (existing : source_lead) : store :=
  if existsb (fun r => rr_id r =? sl_id existing) (raw_lead_rows st)
  then update_raw_row st rawRowId (duplicate_payload existing)
  else st.

Definition set_source_lead_id (id : uuid) (r : raw_lead_row) : raw_lead_row :=
  mk_raw_lead_row (rr_id r) (rr_ingestion_id r) (rr_row_number r)
    (rr_raw_data r) (rr_is_valid r) (rr_validation_errors r)
    (rr_is_duplicate r) (rr_duplicate_of r) (Some id).

(** [queueForEmbedding] on the queue of this store. *)
Definition queue_lead (st : store) (leadId : uuid) (text : string) : store :=
  let q := EmbeddingQueue.queueForEmbedding
             (EmbeddingQueue.mk_store (embedding_queue st) [] (next_uuid st))
             "source_leads" leadId text in
  mk_store (raw_ingestions st) (lead_sources st) (raw_lead_rows st)
    (source_leads st) (data_lineage st) (EmbeddingQueue.embedding_queue q)
    (matcher_calls st) (EmbeddingQueue.next_uuid q).

(** The state of the loop [for (const rawRow of rawRows)]. *)
Record loop_state := mk_loop_state {
  db : store;
  createdCount : nat;
  duplicateCount : nat;
  sourceLeadIds : list uuid
}.

(** One turn of the loop.  The insert into [source_leads] is refused when
    the lead source or the organization is NULL (both columns are [not
    null]); the turn then ends ([continue]). *)
Definition transform_row (ingestion : raw_ingestion)
    (leadSource : option lead_source)
    (fieldMapping : list (string * list string))
    (s : loop_state) (rawRow : raw_lead_row) : loop_state :=
  let st := db s in
  let normalized := mapFields (rr_raw_data rawRow) fieldMapping in
  let lead_source_id := match leadSource with
                        | Some ls => Some (ls_id ls)
                        | None => ri_lead_source_id ingestion
                        end in
  let existing :=
    match field normalized "email" with
    | Some email =>
        if String.eqb email EmptyString then None
        else find_existing st (ri_organization_id ingestion) lead_source_id
               email
    | None => None
    end in
  match existing with
  | Some lead =>
      mk_loop_state (mark_duplicate st (rr_id rawRow) lead) (createdCount s)
        (S (duplicateCount s)) (sourceLeadIds s)
  | None =>
      match lead_source_id, ri_organization_id ingestion with
      | Some ls, Some org =>
          let id := next_uuid st in
          let sourceLead :=
            mk_source_lead id (Some (rr_id rawRow)) (Some (ri_id ingestion))
              ls org (field normalized "email") (field normalized "phone")
              (field normalized "address") lead_pending None None in
          let st1 := mk_store (raw_ingestions st) (lead_sources st)
                       (raw_lead_rows st) (source_leads st ++ [sourceLead])
                       (data_lineage st) (embedding_queue st)
                       (matcher_calls st) (S id) in
          let st2 := update_raw_row st1 (rr_id rawRow) (set_source_lead_id id) in
          let st3 := mk_store (raw_ingestions st2) (lead_sources st2)
                       (raw_lead_rows st2) (source_leads st2)
                       (data_lineage st2
                        ++ [mk_lineage (next_uuid st2) "raw_lead_rows"
                              (rr_id rawRow) "source_leads" id "create"
                              "normalize" "function:lead-transformer"])
                       (embedding_queue st2) (matcher_calls st2)
                       (S (next_uuid st2)) in
          let st4 := queue_lead st3 id
                       (generateEmbeddingText normalized
                          (match leadSource with
                           | Some src => ls_display_name src
                           | None => "Unknown"%string
                           end)) in
          mk_loop_state st4 (S (createdCount s)) (duplicateCount s)
            (sourceLeadIds s ++ [id])
      | _, _ => s
      end
  end.

Definition update_ingestion (st : store) (id : uuid)
    (f : raw_ingestion -> raw_ingestion) : store :=
  mk_store (map (fun r => if ri_id r =? id then f r else r) (raw_ingestions st))
    (lead_sources st) (raw_lead_rows st) (source_leads st) (data_lineage st)
    (embedding_queue st) (matcher_calls st) (next_uuid st).

Definition set_progress (status : ingestion_status) (duplicate : nat)
    (log : list log_entry) (completed : option nat) (r : raw_ingestion)
  : raw_ingestion :=
  mk_raw_ingestion (ri_id r) (ri_lead_source_id r) (ri_organization_id r)
    (ri_ingest_type r) (ri_file_name r) (ri_file_url r) (ri_file_hash r)
    status (ri_total_rows r) (ri_parsed_rows r) (ri_valid_rows r) duplicate
    (ri_error_rows r) log (ri_errors r) (ri_started_at r) completed.

(** The handler. *)
Definition lead_transformer (st : store) (ingestion_id : uuid) (now : nat)
  : store * response :=
  match single (filter (fun r => ri_id r =? ingestion_id) (raw_ingestions st)) with
  | None => (st, error_response 404 "Ingestion not found")
  | Some ingestion =>
      let st1 := update_ingestion st ingestion_id (fun r =>
                   set_progress ing_transforming (ri_duplicate_rows r)
                     (ri_processing_log ingestion
                      ++ [mk_log_entry now "transformation_started" None])
                     (ri_completed_at r) r) in
      let rawRows :=
        filter (fun r => (rr_ingestion_id r =? ingestion_id)
                         && rr_is_valid r
                         && match rr_source_lead_id r with
                            | None => true | Some _ => false end)
          (raw_lead_rows st1) in
      match rawRows with
      | [] =>
          (update_ingestion st1 ingestion_id (fun r =>
             set_progress ing_completed (ri_duplicate_rows r)
               (ri_processing_log r) (Some now) r),
           nothing_to_transform)
      | _ :: _ =>
          let leadSource :=
            match ri_lead_source_id ingestion with
            | Some ls => find (fun s => ls_id s =? ls) (lead_sources st1)
            | None => None
            end in
          let fieldMapping := match leadSource with
                              | Some s => ls_field_mapping s
                              | None => Parser.getDefaultFieldMapping
                              end in
          let final := fold_left (transform_row ingestion leadSource fieldMapping)
                         rawRows (mk_loop_state st1 0 0 []) in
          let st2 := update_ingestion (db final) ingestion_id (fun r =>
                       set_progress ing_completed
                         (ri_duplicate_rows ingestion + duplicateCount final)
                         (ri_processing_log ingestion
                          ++ [mk_log_entry now "transformation_completed" None])
                         (Some now) r) in
          let st3 :=
            match sourceLeadIds final with
            | [] => st2
            | ids =>
                mk_store (raw_ingestions st2) (lead_sources st2)
                  (raw_lead_rows st2) (source_leads st2) (data_lineage st2)
                  (embedding_queue st2) (matcher_calls st2 ++ [ids])
                  (next_uuid st2)
            end in
          (st3, transformed (createdCount final) (duplicateCount final))
      end
  end.

(** Scenario 3: one parsed batch (id 100) of organization 7 and source 3
    with two valid rows (ids 1 and 2) that carry the same e-mail. *)
Definition batch_same_email : raw_ingestion :=
  mk_raw_ingestion 100 (Some 3) (Some 7) "email" "two.csv"
    (1000, "two.csv"%string) "hash" ing_parsed (Some 2) 2 2 0 0 [] [] None None.

Definition source_zillow : lead_source :=
  mk_lead_source 3 "Zillow" 0 true "," None Parser.getDefaultFieldMapping
    ["email"%string] None.

Definition raw_row_1 : raw_lead_row :=
  mk_raw_lead_row 1 100 1 [("email", "A@b.co")]%string true [] false None None.

Definition raw_row_2 : raw_lead_row :=
  mk_raw_lead_row 2 100 2 [("email", "a@b.co")]%string true [] false None None.

Definition store_same_email : store :=
  mk_store [batch_same_email] [source_zillow] [raw_row_1; raw_row_2] [] [] []
    [] 200.

End Transformer.

(* ================================================================== *)
(** * Part I, continued: mail helpers, views of the stores, the CRM sync,
       conversations *)

(** ** Sender and recipient of an e-mail ([email-ingest]) *)

Module Ingest.

(** JavaScript strings are read as lists of characters. *)
Definition lt_sign : ascii := "<"%char.
Definition gt_sign : ascii := ">"%char.
Definition at_sign : ascii := "@"%char.

(** The longest prefix without [>], what the greedy [[^>]+] takes, and the
    rest of the string. *)
Fixpoint span_to_gt (s : list ascii) : list ascii * list ascii :=
  match s with
  | [] => ([], [])
  | c :: t =>
      if Ascii.eqb c gt_sign then ([], s)
      else let '(run, rest) := span_to_gt t in (c :: run, rest)
  end.

(** [/<([^>]+)>/] tried right after a [<]: the run must not be empty and a
    [>] must follow it.  A shorter run would be followed by a character other
    than [>], so backtracking finds nothing more. *)
Definition group_after_lt (t : list ascii) : option (list ascii) :=
  match span_to_gt t with
  | (c :: run, _ :: _) => Some (c :: run)
  | _ => None
  end.

(** [email.match(/<([^>]+)>/)]: the first position where the pattern matches,
    and there the captured group. *)
Fixpoint first_group (s : list ascii) : option (list ascii) :=
  match s with
  | [] => None
  | c :: t =>
      if Ascii.eqb c lt_sign
      then match group_after_lt t with
           | Some g => Some g
           | None => first_group t
           end
      else first_group t
  end.

(** [extractEmailAddress(email)]: [match ? match[1] : email]. *)
Definition extractEmailAddress (email : string) : string :=
  match first_group (list_ascii_of_string email) with
  | Some g => string_of_list_ascii g
  | None => email
  end.

(** [addr.split("@")]. *)
Fixpoint split_on (sep : ascii) (s : list ascii) : list (list ascii) :=
  match s with
  | [] => [[]]
  | c :: t =>
      if Ascii.eqb c sep then [] :: split_on sep t
      else match split_on sep t with
           | part :: parts => (c :: part) :: parts
           | [] => [[c]]
           end
  end.

(** [extractDomain(email)]: [parts.length > 1 ? parts[1] : ""]. *)
Definition extractDomain (email : string) : string :=
  match split_on at_sign (list_ascii_of_string (extractEmailAddress email)) with
  | _ :: domain :: _ => string_of_list_ascii domain
  | _ => EmptyString
  end.

(** A string without a given character. *)
Definition free_of (c : ascii) (s : string) : Prop :=
  ~ In c (list_ascii_of_string s).

End Ingest.

(** ** What a staging call leaves behind *)

Module StagerViews.
Import Schema Stager.

(** A batch as the attachment loop creates it from one of the attachments of
    the mail. *)
Definition staged_from (computeHash : string -> string) (mail : Email)
    (attachments : list Attachment) (batch : raw_ingestion) : Prop :=
  ri_status batch = ing_pending
  /\ ri_ingest_type batch = "email"%string
  /\ ri_lead_source_id batch = leadSource mail
  /\ ri_organization_id batch = organizationId mail
  /\ ri_total_rows batch = None
  /\ exists a, In a attachments
               /\ ri_file_hash batch = computeHash (content a)
               /\ ri_file_name batch = filename a.

End StagerViews.

(** ** The configuration a parse step runs with *)

Module ParserViews.
Import Schema Parser.

(** [ingestion.lead_sources], the row joined by [select("*, lead_sources(*)")]. *)
Definition lead_source_of (st : store) (ingestion : raw_ingestion)
  : option lead_source :=
  match ri_lead_source_id ingestion with
  | Some ls => find (fun s => ls_id s =? ls) (lead_sources st)
  | None => None
  end.

(** [csvConfig.skip_rows || 0]. *)
Definition skip_rows_of (leadSource : option lead_source) : nat :=
  match leadSource with
  | Some s => ls_skip_rows s
  | None => 0
  end.

(** A raw row as the parser writes it: of the batch, not yet looked at by the
    transformer. *)
Definition fresh_row_of (ingestion_id : uuid) (r : raw_lead_row) : Prop :=
  rr_ingestion_id r = ingestion_id
  /\ rr_is_duplicate r = false
  /\ rr_duplicate_of r = None
  /\ rr_source_lead_id r = None.

(** [validationRules.email_regex ? new RegExp(...) : default]: the empty
    string counts as absent. *)
Definition regex_of (email_regex : option string) : option string :=
  match email_regex with
  | Some EmptyString => None
  | r => r
  end.

(** The first e-mail column of the mapping that has a value in the row. *)
Definition first_email_column (row : csv_row)
    (fieldMapping : list (string * list string)) : option string :=
  find (fun col => has_value (row_get row col))
    (columns_of fieldMapping "email").

End ParserViews.

(** ** What a signal rests on, and tenants *)

Module MatcherViews.
Import Schema Scorer Matcher.

(** The [WHERE] clause behind a row of [find_fub_matches], by match type. *)
Definition justified (similarity : string -> string -> Q) (v : source_lead)
    (f : fub_lead) (m : MatchResult) : Prop :=
  (result_type m = email_exact
   /\ confidence m = 1%Q
   /\ sql_eq (fl_email_normalized f) (sl_email_normalized v) = true
   /\ present (sl_email_normalized v) = true)
  \/ (result_type m = phone_exact
      /\ confidence m = (95 # 100)%Q
      /\ sql_eq (fl_phone_normalized f) (sl_phone_normalized v) = true
      /\ long_enough (sl_phone_normalized v) = true)
  \/ (result_type m = address_fuzzy
      /\ exists fa va,
           fl_address_normalized f = Some fa
           /\ sl_property_address_normalized v = Some va
           /\ fa <> EmptyString /\ va <> EmptyString
           /\ confidence m = similarity fa va
           /\ (6 # 10 < similarity fa va)%Q).

(** What identifies a lead and its tenant. *)
Definition key_of (l : source_lead) : uuid * uuid :=
  (sl_id l, sl_organization_id l).

(** A pair (source lead, CRM lead) of one organization. *)
Definition same_tenant (d : db) (lead fub : uuid) : Prop :=
  exists l f,
    In l (source_leads d) /\ In f (fub_leads d)
    /\ sl_id l = lead /\ fl_id f = fub
    /\ fl_organization_id f = sl_organization_id l.

(** No match and no candidate joins leads of two organizations. *)
Definition tenant_safe (d : db) : Prop :=
  (forall m, In m (lead_matches d) ->
     same_tenant d (lm_source_lead_id m) (lm_fub_lead_id m))
  /\ (forall c, In c (match_candidates d) ->
        same_tenant d (mc_source_lead_id c) (mc_fub_lead_id c)).

(** A lead the scorer has nothing to go on: no e-mail, no phone of ten
    digits, no address. *)
Definition no_contact_data (l : source_lead) : Prop :=
  present (sl_email_normalized l) = false
  /\ long_enough (sl_phone_normalized l) = false
  /\ present (sl_property_address_normalized l) = false.

End MatcherViews.

(** ** The shape of a normalised value *)

Module NormalizerViews.
Import Normalizer.

(** An upper-case ASCII letter. *)
Definition is_upper (c : ascii) : bool :=
  let n := nat_of_ascii c in (65 <=? n) && (n <=? 90).

(** White space occurs only as single space characters.  [after_space] tells
    that the character before was white space. *)
Fixpoint single_spaced_from (after_space : bool) (s : text) : bool :=
  match s with
  | [] => true
  | c :: t =>
      if is_pg_space c
      then Ascii.eqb c space && negb after_space && single_spaced_from true t
      else single_spaced_from false t
  end.

Definition single_spaced (s : string) : bool :=
  single_spaced_from false (list_ascii_of_string s).

Definition all_digits (s : string) : bool :=
  forallb is_digit (list_ascii_of_string s).

Definition no_upper (s : string) : bool :=
  forallb (fun c => negb (is_upper c)) (list_ascii_of_string s).

Definition no_backspace (s : string) : bool :=
  forallb (fun c => negb (Ascii.eqb c backspace)) (list_ascii_of_string s).

(** [regexp_replace(lower(trim(addr)), '\s+', ' ', 'g')]: [normalize_address]
    without its thirteen rewriting rules. *)
Definition trim_lower_collapse (s : text) : text :=
  collapse_spaces (pg_lower (pg_trim s)).

End NormalizerViews.

(** ** Views of the embedding queue *)

Module EmbeddingViews.
Import Schema EmbeddingQueue.

(** The columns of [unique(table_name, record_id)]. *)
Definition record_of (t : embedding_task) : string * uuid :=
  (eq_table_name t, eq_record_id t).

(** The tasks of a record, and the others. *)
Definition tasks_of (st : store) (tableName : string) (recordId : uuid)
  : list embedding_task :=
  filter (same_record tableName recordId) (embedding_queue st).

Definition other_tasks (st : store) (tableName : string) (recordId : uuid)
  : list embedding_task :=
  filter (fun t => negb (same_record tableName recordId t))
    (embedding_queue st).

(** The row of a fetched item once its embedding is stored: the queue update
    [{ status: "completed", embedding, processed_at }]. *)
Definition completed_row (item : embedding_task) (v : vector) (now : nat)
  : embedding_task :=
  mk_embedding_task (eq_id item) (eq_table_name item) (eq_record_id item)
    (eq_text_to_embed item) task_completed (eq_attempts item)
    (eq_last_error item) (Some v) (Some now).

(** The update of the target row: [{ embedding, embedding_text, embedded_at }]
    on the row [record_id] of the table [table_name]. *)
Definition target_write (now : nat) (iv : embedding_task * vector)
  : embedding_write :=
  mk_embedding_write (eq_table_name (fst iv)) (eq_record_id (fst iv)) (snd iv)
    (eq_text_to_embed (fst iv)) now.

(** The rows still at ['processing'] were so before the run, or belong to
    an item yet to be handled. *)
Definition processing_left (q0 : list embedding_task)
    (remaining : list uuid) (st : store) : Prop :=
  forall t, In t (embedding_queue st) -> eq_status t = task_processing ->
            In t q0 \/ In (eq_id t) remaining.

End EmbeddingViews.

(** ** Views of the transformer's tables *)

Module TransformerViews.
Import Schema Transformer.

(** The three conditions of the duplicate lookup, for a given organization,
    source and normalised e-mail. *)
Definition same_email_key (org ls : uuid) (e : string) (l : source_lead)
  : bool :=
  (sl_organization_id l =? org)
  && sql_eq (sl_email_normalized l) (Some e)
  && (sl_lead_source_id l =? ls).

(** At most one lead per organization, source and normalised e-mail. *)
Definition emails_unique (leads : list source_lead) : Prop :=
  forall org ls e, length (filter (same_email_key org ls e) leads) <= 1.

(** The rows a transformer run works on: the valid rows of the batch that
    have no lead yet. *)
Definition rows_to_transform (st : store) (ingestion_id : uuid)
  : list raw_lead_row :=
  filter (fun r => (rr_ingestion_id r =? ingestion_id)
                   && rr_is_valid r
                   && match rr_source_lead_id r with
                      | None => true | Some _ => false end)
    (raw_lead_rows st).

(** A lead as the transformer creates it from a row of the batch. *)
Definition created_from (st : store) (ingestion_id : uuid) (l : source_lead)
  : Prop :=
  sl_match_status l = lead_pending
  /\ sl_match_confidence l = None
  /\ sl_ingestion_id l = Some ingestion_id
  /\ exists r, In r (rows_to_transform st ingestion_id)
               /\ sl_raw_row_id l = Some (rr_id r).

(** No white space in front. *)
Definition no_lead_ws (s : list ascii) : Prop :=
  match s with
  | [] => True
  | c :: _ => Normalizer.is_pg_space c = false
  end.

(** A string with no white space at either end. *)
Definition trimmed (s : string) : Prop := js_trim s = s.

End TransformerViews.

(** ** The Follow Up Boss client ([_shared/fub-client.ts]) *)

Module FubClient.

(** [FubPerson]: the fields [transformFubPerson] reads.  Strings are lists of
    characters with codes 0 to 255, the strings [btoa] accepts. *)
Record FubAddress := mk_FubAddress {
  street : string;
  city : string;
  state : string;
  code : string
}.

Record FubPerson := mk_FubPerson {
  person_id : nat;
  created : string;
  updated : string;
  firstName : string;
  lastName : string;
  stage : string;
  source : string;
  sourceUrl : option string;
  emails : list string;
  phones : list string;
  addresses : list FubAddress;
  tags : list string;
  assignedTo : option nat;
  assignedUserId : option nat
}.

Record FubUser := mk_FubUser {
  user_id : nat;
  user_email : string;
  user_name : string
}.

(** *** Pagination

    What [GET /people?offset=..&limit=..] answers: the page, and the
    [offset] and [total] of [_metadata]; [None] when [request] throws. *)
Definition page := (list FubPerson * nat * nat)%type.

Inductive iteration :=
| Finished (batches : list (list FubPerson))
| Failed (batches : list (list FubPerson))
| Running (batches : list (list FubPerson)).

Definition yield (people : list FubPerson) (rest : iteration) : iteration :=
  match people with
  | [] => rest
  | _ :: _ =>
      match rest with
      | Finished b => Finished (people :: b)
      | Failed b => Failed (people :: b)
      | Running b => Running (people :: b)
      end
  end.

(** [params.batchSize || 100]. *)
Definition batch_size_of (batchSize : nat) : nat :=
  match batchSize with 0 => 100 | n => n end.

Section WithServer.

Variable getPage : nat -> nat -> option page.

(** The loop [while (hasMore)] of [iteratePeople], from a given offset;
    [fuel] bounds the number of requests, and [Running] tells that the loop
    had not ended when the fuel was spent.  [hasMore] is
    [metadata.offset + people.length < metadata.total]. *)
Fixpoint iterate_from (fuel batchSize offset : nat) : iteration :=
  match fuel with
  | 0 => Running []
  | S fuel' =>
      match getPage offset batchSize with
      | None => Failed []
      | Some (people, meta_offset, total) =>
          yield people
            (if meta_offset + length people <? total
             then iterate_from fuel' batchSize (offset + batchSize)
             else Finished [])
      end
  end.

Definition iteratePeople (fuel batchSize : nat) : iteration :=
  iterate_from fuel (batch_size_of batchSize) 0.

End WithServer.

(** A server that holds the people [all] and pages through them. *)
Definition paging (all : list FubPerson) (offset limit : nat) : option page :=
  Some (firstn limit (skipn offset all), offset, length all).

(** *** The change-detection hash *)

Definition char (n : nat) : ascii := ascii_of_nat n.

(** [JSON.stringify] of a string: quotes around, and the escapes of
    ECMAScript's [QuoteJSONString]. *)
Definition hex_digit (n : nat) : ascii :=
  if n <? 10 then char (48 + n) else char (87 + n).

Definition json_char (c : ascii) : list ascii :=
  let n := nat_of_ascii c in
  if n =? 34 then [char 92; char 34]
  else if n =? 92 then [char 92; char 92]
  else if n =? 8 then [char 92; "b"%char]
  else if n =? 9 then [char 92; "t"%char]
  else if n =? 10 then [char 92; "n"%char]
  else if n =? 12 then [char 92; "f"%char]
  else if n =? 13 then [char 92; "r"%char]
  else if n <? 32
       then [char 92; "u"%char; "0"%char; "0"%char;
             hex_digit (n / 16); hex_digit (n mod 16)]
  else [c].

Definition json_string (s : string) : list ascii :=
  char 34 :: flat_map json_char (list_ascii_of_string s) ++ [char 34].

Definition json_null : list ascii := list_ascii_of_string "null".

Definition json_opt_string (v : option string) : list ascii :=
  match v with
  | Some s => json_string s
  | None => json_null
  end.

(** A number that is a natural: its decimal digits. *)
Fixpoint digits (fuel n : nat) (acc : list ascii) : list ascii :=
  match fuel with
  | 0 => acc
  | S fuel' =>
      let acc' := char (48 + n mod 10) :: acc in
      if n <? 10 then acc' else digits fuel' (n / 10) acc'
  end.

Definition json_nat (n : nat) : list ascii := digits (S n) n [].

Definition json_opt_nat (v : option nat) : list ascii :=
  match v with
  | Some n => json_nat n
  | None => json_null
  end.

(** [x || null] on a string: the empty string is falsy. *)
Definition or_null (s : string) : option string :=
  match s with
  | EmptyString => None
  | _ => Some s
  end.

(** [person.emails?.[0]?.value || null], and the same for phones. *)
Definition primary (values : list string) : option string :=
  match values with
  | v :: _ => or_null v
  | [] => None
  end.

(** [person.assignedUserId || person.assignedTo || null]: 0 is falsy. *)
Definition truthy_nat (v : option nat) : option nat :=
  match v with
  | Some (S n) => Some (S n)
  | _ => None
  end.

Definition assigned_user (person : FubPerson) : option nat :=
  match truthy_nat (assignedUserId person) with
  | Some n => Some n
  | None => truthy_nat (assignedTo person)
  end.

(** ["key":] and [,"key":] in the JSON text of an object. *)
Definition json_key (first : bool) (key : string) : list ascii :=
  (if first then [] else [","%char])
  ++ char 34 :: list_ascii_of_string key ++ [char 34; ":"%char].

(** [hashData]: the JSON text of the object with the keys [email], [phone],
    [firstName], [lastName], [stage], [assignedTo], [updated], in this
    order. *)
Definition hashData (person : FubPerson) : list ascii :=
  "{"%char :: json_key true "email"
  ++ json_opt_string (primary (emails person))
  ++ json_key false "phone"
  ++ json_opt_string (primary (phones person))
  ++ json_key false "firstName"
  ++ json_string (firstName person)
  ++ json_key false "lastName"
  ++ json_string (lastName person)
  ++ json_key false "stage"
  ++ json_string (stage person)
  ++ json_key false "assignedTo"
  ++ json_opt_nat (assigned_user person)
  ++ json_key false "updated"
  ++ json_string (updated person)
  ++ ["}"%char].

(** [btoa]: base64 with the standard alphabet and [=] padding. *)
Definition alphabet : list ascii :=
  list_ascii_of_string
    "ABCDEFGHIJKLMNOPQRSTUVWXYZabcdefghijklmnopqrstuvwxyz0123456789+/".

Definition sextet (n : nat) : ascii := nth n alphabet "="%char.

Definition pad : ascii := "="%char.

(** Three bytes give four characters: the bits 7..2 of the first byte; its
    bits 1..0 and the bits 7..4 of the second; the bits 3..0 of the second
    and 7..6 of the third; the bits 5..0 of the third. *)
Fixpoint btoa (s : list ascii) : list ascii :=
  match s with
  | [] => []
  | [a] =>
      let a := nat_of_ascii a in
      [sextet (a / 4); sextet (a mod 4 * 16); pad; pad]
  | [a; b] =>
      let a := nat_of_ascii a in
      let b := nat_of_ascii b in
      [sextet (a / 4); sextet (a mod 4 * 16 + b / 16);
       sextet (b mod 16 * 4); pad]
  | a :: b :: c :: rest =>
      let a := nat_of_ascii a in
      let b := nat_of_ascii b in
      let c := nat_of_ascii c in
      sextet (a / 4) :: sextet (a mod 4 * 16 + b / 16)
      :: sextet (b mod 16 * 4 + c / 64) :: sextet (c mod 64)
      :: btoa rest
  end.

(** [btoa(hashData).slice(0, 32)]. *)
Definition sync_hash (person : FubPerson) : string :=
  string_of_list_ascii (firstn 32 (btoa (hashData person))).

(** A character that [JSON.stringify] writes as it is. *)
Definition plain (c : ascii) : bool :=
  let n := nat_of_ascii c in
  (32 <=? n) && negb (n =? 34) && negb (n =? 92).

Definition plain_string (s : string) : bool :=
  forallb plain (list_ascii_of_string s).

(** The result of [transformFubPerson]. *)
Record LeadData := mk_LeadData {
  ld_fub_connection_id : Schema.uuid;
  ld_organization_id : Schema.uuid;
  ld_fub_lead_id : nat;
  ld_fub_person_id : nat;
  ld_email : option string;
  ld_phone : option string;
  ld_first_name : option string;
  ld_last_name : option string;
  ld_address : option string;
  ld_city : option string;
  ld_state : option string;
  ld_zip : option string;
  ld_assigned_user_id : option nat;
  ld_assigned_user_email : option string;
  ld_assigned_user_name : option string;
  ld_fub_source : option string;
  ld_fub_source_url : option string;
  ld_fub_stage : option string;
  ld_fub_tags : list string;
  ld_fub_created_at : string;
  ld_fub_updated_at : string;
  ld_raw_data : FubPerson;
  ld_sync_hash : string
}.

(** [x?.field || null]. *)
Definition field_or_null {A : Type} (x : option A) (f : A -> string)
  : option string :=
  match x with
  | Some a => or_null (f a)
  | None => None
  end.

Definition transformFubPerson (person : FubPerson)
    (connectionId organizationId : Schema.uuid)
    (usersMap : nat -> option FubUser) : LeadData :=
  let primaryEmail := primary (emails person) in
  let primaryPhone := primary (phones person) in
  let primaryAddress := hd_error (addresses person) in
  let assignedUserId := assigned_user person in
  let assignedUser :=
    match assignedUserId with
    | Some id => usersMap id
    | None => None
    end in
  mk_LeadData connectionId organizationId (person_id person)
    (person_id person) primaryEmail primaryPhone
    (or_null (firstName person)) (or_null (lastName person))
    (field_or_null primaryAddress street) (field_or_null primaryAddress city)
    (field_or_null primaryAddress state) (field_or_null primaryAddress code)
    assignedUserId (field_or_null assignedUser user_email)
    (field_or_null assignedUser user_name)
    (or_null (source person)) (field_or_null (sourceUrl person) (fun u => u))
    (or_null (stage person)) (tags person) (created person) (updated person)
    person (sync_hash person).

(** A person, for examples. *)
Definition sample_person (id : nat) : FubPerson :=
  mk_FubPerson id "2024-01-01" "2024-01-02" "Ann" "Lee" "Lead" "Zillow" None
    ["ann.lee@example.com"%string] ["5551234"%string] [] [] (Some 12) None.

(** The same person after a change of names, phone, stage and assignment. *)
Definition sample_person_changed (id : nat) : FubPerson :=
  mk_FubPerson id "2024-01-01" "2025-06-30" "Anne" "Leigh" "Closed" "Zillow"
    None ["ann.lee@example.com"%string] ["5559999"%string] [] [] (Some 40)
    None.

End FubClient.

(** ** The sync of one connection ([fub-sync/index.ts]) *)

Module FubSync.
Import Schema FubClient.

(** [fub_leads]: the columns that [fub-sync] writes, and [id]. *)
Record fub_lead_row := mk_fub_lead_row {
  fr_id : uuid;
  fr_data : LeadData;
  fr_last_synced_at : nat
}.

Record store := mk_store {
  fub_leads : list fub_lead_row;
  embeddings : EmbeddingQueue.store;
  next_uuid : uuid
}.

Inductive sync_error :=
| update_failed (fub_lead_id : nat)
| insert_failed (fub_lead_id : nat).

(** The counters of the loop and the database. *)
Record sync_state := mk_sync_state {
  db : store;
  leadsCreated : nat;
  leadsUpdated : nat;
  leadsFetched : nat;
  errors : list sync_error
}.

(** [new Map(users.map((u) => [u.id, u]))]: of two users with the same id
    the later one is kept. *)
Definition users_map (users : list FubUser) (id : nat) : option FubUser :=
  find (fun u => user_id u =? id) (rev users).

(** [generateFubEmbeddingText]: the parts that are not empty, joined by
    [", "]. *)
Definition generateFubEmbeddingText (lead : LeadData) : string :=
  let or_empty v := match v with Some s => s | None => EmptyString end in
  let labelled label v :=
    match v with
    | Some (String c s) => append label (String c s)
    | _ => EmptyString
    end in
  let parts :=
    [ "FUB Lead";
      match ld_first_name lead, ld_last_name lead with
      | Some (String c f), Some (String d l) =>
          append (String c f) (append " " (String d l))
      | _, _ => EmptyString
      end;
      labelled "email: " (ld_email lead);
      labelled "phone: " (ld_phone lead);
      labelled "address: " (ld_address lead);
      or_empty (ld_city lead);
      or_empty (ld_state lead);
      or_empty (ld_zip lead);
      labelled "assigned to: " (ld_assigned_user_name lead);
      labelled "source: " (ld_fub_source lead);
      labelled "stage: " (ld_fub_stage lead) ]%string in
  String.concat ", "
    (filter (fun p => negb (String.eqb p EmptyString)) parts).

(** [.eq("fub_connection_id", connection.id).eq("fub_lead_id", person.id)]. *)
Definition same_lead (connectionId : uuid) (fubLeadId : nat)
    (r : fub_lead_row) : bool :=
  (ld_fub_connection_id (fr_data r) =? connectionId)
  && (ld_fub_lead_id (fr_data r) =? fubLeadId).

Definition queue (st : store) (recordId : uuid) (text : string) : store :=
  mk_store (fub_leads st)
    (EmbeddingQueue.queueForEmbedding (embeddings st) "fub_leads" recordId text)
    (next_uuid st).

Section WithConnection.

Variable connectionId organizationId : uuid.
Variable users : list FubUser.
Variable now : nat.

(** The body of [for (const person of batch)].  The insert is refused when
    a row with the same [(fub_connection_id, fub_lead_id)] exists (the
    table's [unique] constraint).  The update leaves [id] and this pair as
    they are, so that no constraint of the table refuses it: the branch
    [update_failed] is not taken. *)
Definition sync_person (s : sync_state) (person : FubPerson) : sync_state :=
  let st := db s in
  let leadData :=
    transformFubPerson person connectionId organizationId (users_map users) in
  match single (filter (same_lead connectionId (person_id person))
                  (fub_leads st)) with
  | Some existing =>
      if String.eqb (ld_sync_hash (fr_data existing)) (ld_sync_hash leadData)
      then s
      else
        let st1 :=
          mk_store
            (map (fun r =>
                    if fr_id r =? fr_id existing
                    then mk_fub_lead_row (fr_id r) leadData now
                    else r) (fub_leads st))
            (embeddings st) (next_uuid st) in
        mk_sync_state
          (queue st1 (fr_id existing) (generateFubEmbeddingText leadData))
          (leadsCreated s) (S (leadsUpdated s)) (leadsFetched s) (errors s)
  | None =>
      if existsb (same_lead connectionId (person_id person)) (fub_leads st)
      then mk_sync_state st (leadsCreated s) (leadsUpdated s) (leadsFetched s)
             (errors s ++ [insert_failed (person_id person)])
      else
        let id := next_uuid st in
        let st1 :=
          mk_store (fub_leads st ++ [mk_fub_lead_row id leadData now])
            (embeddings st) (S id) in
        mk_sync_state (queue st1 id (generateFubEmbeddingText leadData))
          (S (leadsCreated s)) (leadsUpdated s) (leadsFetched s) (errors s)
  end.

(** The body of [for await (const batch of ...)]. *)
Definition sync_batch (s : sync_state) (batch : list FubPerson)
  : sync_state :=
  fold_left sync_person batch
    (mk_sync_state (db s) (leadsCreated s) (leadsUpdated s)
       (leadsFetched s + length batch) (errors s)).

Inductive sync_status := completed | completed_with_errors | failed.

(** The sync of one connection, from [let leadsCreated = 0] on: the batches
    that the iteration yields are worked through; when the iteration throws,
    the sync has failed, with the batches before it already written. *)
Definition sync_people (st : store) (people : iteration)
  : option (sync_state * sync_status) :=
  let run batches :=
    fold_left sync_batch batches (mk_sync_state st 0 0 0 []) in
  match people with
  | Finished batches =>
      let s := run batches in
      Some (s, match errors s with
               | [] => completed
               | _ :: _ => completed_with_errors
               end)
  | Failed batches => Some (run batches, failed)
  | Running _ => None
  end.

End WithConnection.

(** The keys of [fub_leads]: [id], and
    [unique(fub_connection_id, fub_lead_id)]. *)
Definition lead_key (r : fub_lead_row) : uuid * nat :=
  (ld_fub_connection_id (fr_data r), ld_fub_lead_id (fr_data r)).

Record keys_hold (st : store) : Prop := mk_keys_hold {
  ids_unique : NoDup (map fr_id (fub_leads st));
  leads_unique : NoDup (map lead_key (fub_leads st));
  ids_below : Forall (fun r => fr_id r < next_uuid st) (fub_leads st)
}.

(** Examples: an empty database, and the database after a first sync of one
    person of connection 1. *)
Definition empty_store : store :=
  mk_store [] (EmbeddingQueue.mk_store [] [] 0) 0.

Definition first_sync : sync_state :=
  sync_person 1 2 [] 5 (mk_sync_state empty_store 0 0 0 []) (sample_person 7).

End FubSync.

(** ** The message counter of a conversation
       ([update_conversation_message_count] and its trigger) *)

Module Conversations.
Import Schema.

(** [ai_conversations]: [id], [message_count] (an [int] that may be NULL,
    default 0) and [updated_at]. *)
Record ai_conversation := mk_ai_conversation {
  conv_id : uuid;
  conv_message_count : option Z;
  conv_updated_at : nat
}.

(** [ai_messages]: [id], [conversation_id], [role] and [content]. *)
Record ai_message := mk_ai_message {
  msg_id : uuid;
  msg_conversation_id : uuid;
  msg_role : string;
  msg_content : string
}.

Record store := mk_store {
  ai_conversations : list ai_conversation;
  ai_messages : list ai_message;
  next_uuid : uuid
}.

(** The values of an [int]. *)
Definition int_range (z : Z) : bool :=
  ((-2147483648 <=? z) && (z <=? 2147483647))%Z.

(** [update ai_conversations set message_count = message_count + delta,
    updated_at = now() where id = ...]; NULL stays NULL, and the statement
    fails ([None]) when a sum is no [int]. *)
Definition add_to_count (delta : Z) (now : nat) (id : uuid)
    (rows : list ai_conversation) : option (list ai_conversation) :=
  if forallb (fun c =>
                if conv_id c =? id
                then match conv_message_count c with
                     | Some n => int_range (n + delta)
                     | None => true
                     end
                else true) rows
  then Some (map (fun c =>
                    if conv_id c =? id
                    then mk_ai_conversation (conv_id c)
                           (option_map (fun n => (n + delta)%Z)
                              (conv_message_count c)) now
                    else c) rows)
  else None.

Inductive TG_OP := INSERT | DELETE.

(** The trigger function, for the row [NEW] or [OLD]. *)
Definition update_conversation_message_count (op : TG_OP) (now : nat)
    (row : ai_message) (rows : list ai_conversation)
  : option (list ai_conversation) :=
  match op with
  | INSERT => add_to_count 1 now (msg_conversation_id row) rows
  | DELETE => add_to_count (-1) now (msg_conversation_id row) rows
  end.

(** [check (role in ('user', 'assistant', 'system', 'function'))]. *)
Definition role_ok (role : string) : bool :=
  existsb (String.eqb role) ["user"; "assistant"; "system"; "function"]%string.

(** [insert into ai_conversations], with the default count 0. *)
Definition insert_conversation (st : store) (now : nat) : store :=
  mk_store
    (ai_conversations st ++ [mk_ai_conversation (next_uuid st) (Some 0%Z) now])
    (ai_messages st) (S (next_uuid st)).

(** [insert into ai_messages]: refused ([None]) for a role that the check
    rejects, a NULL content, or a conversation that does not exist; after
    the insert the trigger runs for the new row. *)
Definition insert_message (st : store) (now : nat) (conversation_id : uuid)
    (role : string) (content : option string) : option store :=
  match content with
  | None => None
  | Some text =>
      if negb (role_ok role) then None
      else if negb (existsb (fun c => conv_id c =? conversation_id)
                      (ai_conversations st))
      then None
      else
        let row := mk_ai_message (next_uuid st) conversation_id role text in
        match update_conversation_message_count INSERT now row
                (ai_conversations st) with
        | Some rows =>
            Some (mk_store rows (ai_messages st ++ [row]) (S (next_uuid st)))
        | None => None
        end
  end.

(** The trigger, run for every deleted row. *)
Fixpoint after_delete (now : nat) (deleted : list ai_message)
    (rows : list ai_conversation) : option (list ai_conversation) :=
  match deleted with
  | [] => Some rows
  | row :: rest =>
      match update_conversation_message_count DELETE now row rows with
      | Some rows' => after_delete now rest rows'
      | None => None
      end
  end.

(** [delete from ai_messages where ...]. *)
Definition delete_messages (st : store) (now : nat)
    (cond : ai_message -> bool) : option store :=
  match after_delete now (filter cond (ai_messages st))
          (ai_conversations st) with
  | Some rows =>
      Some (mk_store rows (filter (fun m => negb (cond m)) (ai_messages st))
              (next_uuid st))
  | None => None
  end.

(** [delete from ai_conversations where id = ...]: the messages go with it
    ([on delete cascade]); their triggers find no conversation to update. *)
Definition delete_conversation (st : store) (id : uuid) : store :=
  mk_store (filter (fun c => negb (conv_id c =? id)) (ai_conversations st))
    (filter (fun m => negb (msg_conversation_id m =? id)) (ai_messages st))
    (next_uuid st).

(** The statements that touch the two tables. *)
Inductive statement :=
| InsertConversation
| InsertMessage (conversation_id : uuid) (role : string)
    (content : option string)
| DeleteMessages (cond : ai_message -> bool)
| DeleteConversation (id : uuid).

(** A failed statement leaves the database as it was. *)
Definition execute (now : nat) (st : store) (s : statement) : store :=
  match s with
  | InsertConversation => insert_conversation st now
  | InsertMessage conversation_id role content =>
      match insert_message st now conversation_id role content with
      | Some st' => st'
      | None => st
      end
  | DeleteMessages cond =>
      match delete_messages st now cond with
      | Some st' => st'
      | None => st
      end
  | DeleteConversation id => delete_conversation st id
  end.

Definition empty : store := mk_store [] [] 0.

(** The messages of a conversation. *)
Definition messages_in (rows : list ai_message) (id : uuid)
  : list ai_message :=
  filter (fun m => msg_conversation_id m =? id) rows.

Definition messages_of (st : store) (id : uuid) : list ai_message :=
  messages_in (ai_messages st) id.

End Conversations.

(* ================================================================== *)
(** * Part II: theorems *)
(* ================================================================== *)

Unset Implicit Arguments.

(** ** Lists: keys, filters, prefixes *)

Module ListFacts.
Import Schema.

Lemma In_firstn {A : Type} (n : nat) (l : list A) (a : A) :
  In a (firstn n l) -> In a l.
Proof.
  intros H. rewrite <- (firstn_skipn n l). apply in_or_app. now left.
Qed.

Lemma filter_key_NoDup {A : Type} (key : A -> nat) (rows : list A) (a : A) :
  NoDup (map key rows) -> In a rows ->
  filter (fun x => key x =? key a) rows = [a].
Proof.
  induction rows as [|x t IH]; simpl; intros Hnd Hin; [contradiction|].
  apply NoDup_cons_iff in Hnd. destruct Hnd as [Hx Hnd].
  assert (Hnone : forall b, In b t -> key b = key x -> False).
  { intros b Hb E. apply Hx. rewrite <- E. now apply in_map. }
  destruct Hin as [-> | Hin].
  - rewrite Nat.eqb_refl. f_equal.
    apply (proj2 (@Forall_forall _ (fun b => key b <> key a) t)) in Hnone.
    clear -Hnone. induction Hnone as [|b t Hb _ IH]; simpl; [reflexivity|].
    apply Nat.eqb_neq in Hb. now rewrite Hb.
  - destruct (Nat.eqb_spec (key x) (key a)) as [E|E].
    + exfalso. now apply (Hnone a Hin).
    + now apply IH.
Qed.

Lemma NoDup_key_eq {A : Type} (key : A -> nat) (rows : list A) (a b : A) :
  NoDup (map key rows) -> In a rows -> In b rows -> key b = key a -> b = a.
Proof.
  intros Hnd Ha Hb E.
  assert (Hin : In b (filter (fun x => key x =? key a) rows)).
  { apply filter_In. split; [exact Hb | now apply Nat.eqb_eq]. }
  rewrite (filter_key_NoDup key rows a Hnd Ha) in Hin.
  now destruct Hin as [-> | []].
Qed.

Lemma single_filter_In {A : Type} (P : A -> bool) (rows : list A) (a b : A) :
  single (filter P rows) = Some a -> In b rows -> P b = true -> b = a.
Proof.
  intros Hs Hb HP.
  assert (Hin : In b (filter P rows)) by (apply filter_In; now split).
  destruct (filter P rows) as [|x [|y t]]; try discriminate.
  injection Hs as <-. now destruct Hin as [-> | []].
Qed.

Lemma filter_all {A : Type} (P : A -> bool) (l : list A) :
  (forall a, In a l -> P a = true) -> filter P l = l.
Proof.
  induction l as [|x t IH]; simpl; intros H; [reflexivity|].
  rewrite (H x (or_introl eq_refl)). f_equal. apply IH. auto.
Qed.

Lemma find_none_all {A : Type} (P : A -> bool) (l : list A) :
  (forall a, In a l -> P a = false) -> find P l = None.
Proof.
  induction l as [|x t IH]; simpl; intros H; [reflexivity|].
  rewrite (H x (or_introl eq_refl)). apply IH. auto.
Qed.

Lemma filter_none {A : Type} (P : A -> bool) (l : list A) :
  (forall a, In a l -> P a = false) -> filter P l = [].
Proof.
  induction l as [|x t IH]; simpl; intros H; [reflexivity|].
  rewrite (H x (or_introl eq_refl)). apply IH. auto.
Qed.

Lemma NoDup_map_firstn_filter {A : Type} (key : A -> nat) (rows : list A)
    (P : A -> bool) (n : nat) :
  NoDup (map key rows) -> NoDup (map key (firstn n (filter P rows))).
Proof.
  intros Hnd.
  assert (Hf : NoDup (map key (filter P rows))).
  { induction rows as [|x t IH]; simpl; [constructor|].
    simpl in Hnd. apply NoDup_cons_iff in Hnd. destruct Hnd as [Hx Hnd].
    destruct (P x); [|now apply IH]. simpl. constructor; [|now apply IH].
    intros Hin. apply Hx. apply in_map_iff in Hin.
    destruct Hin as (y & E & Hy). apply filter_In in Hy.
    rewrite <- E. apply in_map. tauto. }
  rewrite <- (firstn_skipn n (filter P rows)), map_app in Hf.
  now apply NoDup_app_remove_r in Hf.
Qed.

End ListFacts.

Module NormalizerSpec.
Import Normalizer.

Lemma on_text_on_text (f g : text -> text) (s : string) :
  on_text f (on_text g s) = on_text (fun x => f (g x)) s.
Proof.
  unfold on_text. now rewrite list_ascii_of_string_of_list_ascii.
Qed.

Lemma digits_only_idem (s : text) : digits_only (digits_only s) = digits_only s.
Proof.
  unfold digits_only. induction s as [|c s IH]; simpl; [reflexivity|].
  destruct (is_digit c) eqn:E; simpl; [rewrite E; now f_equal | exact IH].
Qed.

(** Characters: facts checked on the 256 values. *)
Lemma lower_char_space (c : ascii) :
  Ascii.eqb (lower_char c) space = Ascii.eqb c space.
Proof. destruct c as [[] [] [] [] [] [] [] []]; reflexivity. Qed.

Lemma lower_char_idem (c : ascii) : lower_char (lower_char c) = lower_char c.
Proof. destruct c as [[] [] [] [] [] [] [] []]; reflexivity. Qed.

Lemma lower_char_pg_space (c : ascii) :
  is_pg_space (lower_char c) = is_pg_space c.
Proof. destruct c as [[] [] [] [] [] [] [] []]; reflexivity. Qed.

Lemma lower_char_plain (c : ascii) :
  plain_char (lower_char c) = plain_char c.
Proof. destruct c as [[] [] [] [] [] [] [] []]; reflexivity. Qed.

Lemma plain_char_not_backspace (c : ascii) :
  plain_char c = true -> Ascii.eqb backspace c = false.
Proof. destruct c as [[] [] [] [] [] [] [] []]; cbv; congruence. Qed.

Lemma plain_char_space (c : ascii) :
  plain_char c = true -> is_pg_space c = Ascii.eqb c space.
Proof. destruct c as [[] [] [] [] [] [] [] []]; cbv; congruence. Qed.

(** ** Trimming *)

Lemma ltrim_no_lead (s : text) : no_lead_space (ltrim s).
Proof.
  induction s as [|c s IH]; simpl; [exact I|].
  destruct (Ascii.eqb c space) eqn:E; [exact IH | exact E].
Qed.

Lemma ltrim_fix (s : text) : no_lead_space s -> ltrim s = s.
Proof. destruct s as [|c s]; simpl; [reflexivity|]. now intros ->. Qed.

Lemma rtrim_cons (c : ascii) (t : text) :
  rtrim (c :: t) =
  match rtrim t with
  | [] => if Ascii.eqb c space then [] else [c]
  | t' => c :: t'
  end.
Proof. reflexivity. Qed.

Lemma rtrim_idem (s : text) : rtrim (rtrim s) = rtrim s.
Proof.
  induction s as [|c s IH]; [reflexivity|].
  rewrite rtrim_cons. destruct (rtrim s) as [|d r] eqn:E.
  - destruct (Ascii.eqb c space) eqn:Ec; [reflexivity|].
    simpl. now rewrite Ec.
  - rewrite rtrim_cons, IH. reflexivity.
Qed.

Lemma rtrim_no_lead (s : text) : no_lead_space s -> no_lead_space (rtrim s).
Proof.
  destruct s as [|c s]; [trivial|]. intros H. rewrite rtrim_cons.
  simpl in H. destruct (rtrim s); [rewrite H|]; exact H.
Qed.

Lemma pg_trim_idem (s : text) : pg_trim (pg_trim s) = pg_trim s.
Proof.
  unfold pg_trim.
  rewrite ltrim_fix by apply rtrim_no_lead, ltrim_no_lead.
  apply rtrim_idem.
Qed.

Lemma pg_trim_no_lead (s : text) : no_lead_space (pg_trim s).
Proof. apply rtrim_no_lead, ltrim_no_lead. Qed.

Lemma pg_trim_rtrim (s : text) : rtrim (pg_trim s) = pg_trim s.
Proof. apply rtrim_idem. Qed.

(** ** Lower-casing commutes with trimming *)

Lemma ltrim_lower (s : text) : ltrim (pg_lower s) = pg_lower (ltrim s).
Proof.
  induction s as [|c s IH]; [reflexivity|].
  simpl. rewrite lower_char_space.
  destruct (Ascii.eqb c space); [exact IH | reflexivity].
Qed.

Lemma rtrim_lower (s : text) : rtrim (pg_lower s) = pg_lower (rtrim s).
Proof.
  induction s as [|c s IH]; [reflexivity|].
  change (pg_lower (c :: s)) with (lower_char c :: pg_lower s).
  rewrite !rtrim_cons, IH, lower_char_space.
  destruct (rtrim s); simpl; [destruct (Ascii.eqb c space)|]; reflexivity.
Qed.

Lemma pg_trim_lower (s : text) : pg_trim (pg_lower s) = pg_lower (pg_trim s).
Proof. unfold pg_trim. now rewrite ltrim_lower, rtrim_lower. Qed.

Lemma pg_lower_idem (s : text) : pg_lower (pg_lower s) = pg_lower s.
Proof.
  unfold pg_lower. rewrite map_map. apply map_ext, lower_char_idem.
Qed.

Lemma normalize_email_text_idem (s : text) :
  normalize_email_text (normalize_email_text s) = normalize_email_text s.
Proof.
  unfold normalize_email_text.
  now rewrite pg_trim_lower, pg_trim_idem, pg_lower_idem.
Qed.

(** ** White-space runs *)

Lemma plain_cons (c : ascii) (s : text) :
  plain (c :: s) <-> plain_char c = true /\ plain s.
Proof. unfold plain. simpl. apply andb_true_iff. Qed.

Lemma collapse_true_head (s : text) :
  match collapse_aux true s with
  | [] => True
  | c :: _ => is_pg_space c = false
  end.
Proof.
  induction s as [|c s IH]; simpl; [exact I|].
  destruct (is_pg_space c) eqn:E; [exact IH | exact E].
Qed.

Lemma collapse_aux_idem (s : text) :
  forall b b', b' = false \/ b = true ->
  collapse_aux b' (collapse_aux b s) = collapse_aux b s.
Proof.
  induction s as [|c s IH]; intros b b' Hb; [reflexivity|].
  simpl. destruct (is_pg_space c) eqn:E.
  - destruct b.
    + apply IH. now right.
    + destruct Hb as [-> | Hb]; [|discriminate].
      simpl. f_equal. apply IH. now right.
  - simpl. rewrite E. f_equal. apply IH. now left.
Qed.

Lemma collapse_lower (s : text) (b : bool) :
  collapse_aux b (pg_lower s) = pg_lower (collapse_aux b s).
Proof.
  revert b. induction s as [|c s IH]; intros b; [reflexivity|].
  simpl. rewrite lower_char_pg_space.
  destruct (is_pg_space c), b; simpl; now rewrite IH.
Qed.

Lemma collapse_plain (s : text) (b : bool) : plain s -> plain (collapse_aux b s).
Proof.
  revert b. induction s as [|c s IH]; intros b Hs; [exact Hs|].
  apply plain_cons in Hs. destruct Hs as [Hc Hs]. simpl.
  destruct (is_pg_space c), b;
    repeat (apply plain_cons; split); auto.
Qed.

Lemma collapse_no_lead (s : text) :
  plain s -> no_lead_space s -> no_lead_space (collapse_spaces s).
Proof.
  destruct s as [|c s]; [trivial|]. intros Hs Hc.
  apply plain_cons in Hs. destruct Hs as [Hp _]. simpl in Hc.
  unfold collapse_spaces. simpl.
  rewrite (plain_char_space _ Hp), Hc. exact Hc.
Qed.

(** A text that [rtrim] leaves alone keeps that property when its runs are
    collapsed, and stays non-empty. *)
Lemma rtrim_fix_cons (c : ascii) (t : text) :
  rtrim (c :: t) = c :: t ->
  (t = [] /\ Ascii.eqb c space = false) \/ (t <> [] /\ rtrim t = t).
Proof.
  rewrite rtrim_cons. destruct (rtrim t) as [|d r] eqn:E.
  - destruct (Ascii.eqb c space); [discriminate|].
    intros H. injection H as <-. now left.
  - intros H. injection H as <-. right. split; [discriminate | reflexivity].
Qed.

Lemma collapse_rtrim (s : text) :
  forall b, plain s -> rtrim s = s ->
  rtrim (collapse_aux b s) = collapse_aux b s /\
  (s <> [] -> collapse_aux b s <> []).
Proof.
  induction s as [|c s IH]; intros b Hs Hr; [now split|].
  apply plain_cons in Hs. destruct Hs as [Hc Hs].
  pose proof (plain_char_space _ Hc) as Hsp.
  destruct (rtrim_fix_cons _ _ Hr) as [[-> Hne] | [Hne Hr']].
  - simpl. rewrite Hsp, Hne. simpl. rewrite Hne. now split.
  - simpl. destruct (is_pg_space c) eqn:E.
    + destruct b.
      * destruct (IH true Hs Hr') as [H1 H2]. split; [exact H1 | auto].
      * destruct (IH true Hs Hr') as [H1 H2]. split; [|discriminate].
        rewrite rtrim_cons, H1.
        destruct (collapse_aux true s) eqn:Ec; [now destruct (H2 Hne)|reflexivity].
    + destruct (IH false Hs Hr') as [H1 H2]. split; [|discriminate].
      rewrite rtrim_cons, H1.
      destruct (collapse_aux false s) eqn:Ec; [now destruct (H2 Hne)|reflexivity].
Qed.

(** ** The rewriting rules on a text without backspace *)

Lemma replace_all_plain (pat rep s : text) :
  plain s -> replace_all_aux (backspace :: pat) rep 0 s = s.
Proof.
  induction s as [|c s IH]; intros Hs; [reflexivity|].
  apply plain_cons in Hs. destruct Hs as [Hc Hs].
  cbn [replace_all_aux starts_with].
  rewrite (plain_char_not_backspace _ Hc). simpl. now rewrite IH.
Qed.

Lemma apply_rules_plain (s : text) : plain s -> apply_rules s = s.
Proof.
  intros Hs. unfold apply_rules.
  induction abbreviations as [|r rs IH]; [reflexivity|].
  simpl. unfold apply_rule at 2, regexp_replace_all, rule_pattern.
  now rewrite replace_all_plain.
Qed.

Lemma ltrim_plain (s : text) : plain s -> plain (ltrim s).
Proof.
  induction s as [|c s IH]; intros Hs; [exact Hs|].
  simpl. destruct (Ascii.eqb c space); [|exact Hs].
  apply IH. now apply plain_cons in Hs.
Qed.

Lemma rtrim_plain (s : text) : plain s -> plain (rtrim s).
Proof.
  induction s as [|c s IH]; intros Hs; [exact Hs|].
  apply plain_cons in Hs. destruct Hs as [Hc Hs].
  rewrite rtrim_cons. specialize (IH Hs).
  destruct (rtrim s) as [|d r]; [destruct (Ascii.eqb c space)|].
  - reflexivity.
  - now apply plain_cons.
  - now apply plain_cons.
Qed.

Lemma pg_lower_plain (s : text) : plain s -> plain (pg_lower s).
Proof.
  unfold plain, pg_lower. rewrite !forallb_forall. intros H c Hc.
  apply in_map_iff in Hc. destruct Hc as [d [<- Hd]].
  rewrite lower_char_plain. now apply H.
Qed.

Lemma normalize_address_text_idem (s : text) :
  plain s ->
  normalize_address_text (normalize_address_text s) = normalize_address_text s.
Proof.
  intros Hs. unfold normalize_address_text.
  set (u := pg_lower (pg_trim s)).
  assert (Hu : plain u) by (apply pg_lower_plain, rtrim_plain, ltrim_plain, Hs).
  assert (Hl : no_lead_space u).
  { unfold u. rewrite <- pg_trim_lower. apply pg_trim_no_lead. }
  assert (Hr : rtrim u = u).
  { unfold u. rewrite <- pg_trim_lower. apply pg_trim_rtrim. }
  assert (Hlow : pg_lower u = u) by apply pg_lower_idem.
  rewrite (apply_rules_plain _ Hu).
  set (y := collapse_spaces u).
  assert (Hy : plain y) by (apply collapse_plain, Hu).
  assert (Hty : pg_trim y = y).
  { unfold pg_trim. rewrite ltrim_fix by (apply collapse_no_lead; assumption).
    apply (collapse_rtrim _ false Hu Hr). }
  assert (Hly : pg_lower y = y).
  { unfold y, collapse_spaces. now rewrite <- collapse_lower, Hlow. }
  rewrite Hty, Hly, (apply_rules_plain _ Hy).
  apply collapse_aux_idem. now left.
Qed.

(** ** Concrete runs *)

Example normalize_phone_run :
  normalize_phone (Some "(555) 123-4567"%string) = Some "5551234567"%string.
Proof. reflexivity. Qed.

Example normalize_email_run :
  normalize_email (Some "  John.Smith@Example.COM "%string)
  = Some "john.smith@example.com"%string.
Proof. reflexivity. Qed.

(** The token between two backspace characters is rewritten; the same token
    between spaces is not. *)
Example normalize_address_backspace_run :
  normalize_address_text
    (list_ascii_of_string "12 Oak "%string ++ backspace
       :: list_ascii_of_string "street"%string ++ [backspace])
  = list_ascii_of_string "12 oak st"%string.
Proof. reflexivity. Qed.

Example normalize_address_run :
  normalize_address (Some "  456   Oak Avenue "%string)
  = Some "456 oak avenue"%string.
Proof. reflexivity. Qed.

(** Why addresses with a backspace are set apart: a later rule can build the
    pattern of an earlier one.  The rule for [south] leaves the token
    [street] between two backspaces, which only a second pass rewrites. *)
Remark normalize_address_backspace_not_idempotent :
  let addr := backspace :: backspace :: list_ascii_of_string "south"%string
              ++ backspace :: list_ascii_of_string "treet"%string
              ++ [backspace] in
  normalize_address_text addr
  = backspace :: list_ascii_of_string "street"%string ++ [backspace]
  /\ normalize_address_text (normalize_address_text addr)
     = list_ascii_of_string "st"%string.
Proof. split; reflexivity. Qed.




End NormalizerSpec.

Module ScorerSpec.
Import ListFacts Schema Scorer.

Lemma row_leb_le (a b : MatchResult) : row_leb a b = true <-> row_le a b.
Proof.
  unfold row_leb, row_le.
  rewrite orb_true_iff, andb_true_iff, Nat.ltb_lt, Nat.eqb_eq, Qle_bool_iff.
  reflexivity.
Qed.

Lemma row_le_trans (a b c : MatchResult) : row_le a b -> row_le b c -> row_le a c.
Proof.
  unfold row_le. intros [H1 | [H1 Q1]] [H2 | [H2 Q2]].
  - left. lia.
  - left. lia.
  - left. lia.
  - right. split; [lia|]. eapply Qle_trans; eassumption.
Qed.

Lemma StronglySorted_impl {A : Type} (R R' : A -> A -> Prop) (l : list A) :
  (forall a b, R a b -> R' a b) -> StronglySorted R l -> StronglySorted R' l.
Proof.
  intros HR. induction 1 as [|a l Hl IH Ha]; constructor; [exact IH|].
  eapply Forall_impl; [|exact Ha]. intros b. apply HR.
Qed.

Lemma StronglySorted_app_inv {A : Type} (R : A -> A -> Prop) (l1 l2 : list A) :
  StronglySorted R (l1 ++ l2) ->
  StronglySorted R l1 /\ StronglySorted R l2 /\
  (forall a b, In a l1 -> In b l2 -> R a b).
Proof.
  induction l1 as [|x l1 IH]; simpl; intros H.
  - repeat split; [constructor | exact H | contradiction].
  - apply StronglySorted_inv in H. destruct H as [H Hx].
    destruct (IH H) as (S1 & S2 & S12).
    rewrite Forall_forall in Hx.
    repeat split; [constructor | exact S2 |].
    + exact S1.
    + apply Forall_forall. intros b Hb. apply Hx, in_or_app. now left.
    + intros a b [<- | Ha] Hb; [apply Hx, in_or_app; now right | now apply S12].
Qed.

(** The library merge sort, forwards or on the reversed input, is a sort in
    the sense of [is_order_by]. *)
Lemma sort_is_order_by (pre : list MatchResult -> list MatchResult) :
  (forall rows, Permutation rows (pre rows)) ->
  is_order_by (fun rows => RowSort.sort (pre rows)).
Proof.
  intros Hpre rows. split.
  - etransitivity; [apply Hpre | apply RowSort.Permuted_sort].
  - apply StronglySorted_impl with (R := fun a b => is_true (row_leb a b)).
    + intros a b. apply row_leb_le.
    + apply RowSort.StronglySorted_sort.
      intros a b c Hab Hbc. apply row_leb_le.
      apply row_leb_le in Hab, Hbc. eapply row_le_trans; eassumption.
Qed.

Lemma sort_rows_is_order_by : is_order_by sort_rows.
Proof. apply (sort_is_order_by (fun rows => rows)). reflexivity. Qed.

Lemma sort_rows_backwards_is_order_by : is_order_by sort_rows_backwards.
Proof. apply (sort_is_order_by (@rev MatchResult)). apply Permutation_rev. Qed.

Lemma distinct_on_aux_skip (x : MatchResult) (t : list MatchResult) :
  distinct_on_aux (Some (fub_lead_id x)) (x :: t)
  = distinct_on_aux (Some (fub_lead_id x)) t.
Proof. simpl. now rewrite Nat.eqb_refl. Qed.

Lemma distinct_on_aux_keep (prev : option uuid) (x : MatchResult)
    (t : list MatchResult) :
  (forall p, prev = Some p -> p <> fub_lead_id x) ->
  distinct_on_aux prev (x :: t) = x :: distinct_on_aux (Some (fub_lead_id x)) t.
Proof.
  intros H. simpl. destruct prev as [p|]; [|reflexivity].
  destruct (Nat.eqb_spec p (fub_lead_id x)) as [E|E]; [|reflexivity].
  now destruct (H p eq_refl).
Qed.

(** [DISTINCT ON] over rows sorted by the key: each kept row is the best of
    its CRM lead, the kept ids increase strictly, no CRM lead is lost. *)
Lemma distinct_on_aux_spec (rows : list MatchResult) :
  forall prev,
  StronglySorted row_le rows ->
  (forall p, prev = Some p -> Forall (fun r => p <= fub_lead_id r)%nat rows) ->
  (forall d, In d (distinct_on_aux prev rows) ->
     In d rows
     /\ (forall p, prev = Some p -> (p < fub_lead_id d)%nat)
     /\ (forall r, In r rows -> fub_lead_id r = fub_lead_id d ->
                   (confidence r <= confidence d)%Q))
  /\ sorted_by_id (distinct_on_aux prev rows)
  /\ (forall r, In r rows ->
        prev = Some (fub_lead_id r)
        \/ exists d, In d (distinct_on_aux prev rows)
                     /\ fub_lead_id d = fub_lead_id r).
Proof.
  induction rows as [|x t IH]; intros prev Hs Hp.
  - simpl. repeat split; try contradiction. constructor.
  - apply StronglySorted_inv in Hs. destruct Hs as [Ht Hx].
    rewrite Forall_forall in Hx.
    assert (Hlow : Forall (fun r => fub_lead_id x <= fub_lead_id r)%nat t).
    { apply Forall_forall. intros r Hr. destruct (Hx r Hr) as [H | [H _]]; lia. }
    assert (Hcase : prev = Some (fub_lead_id x)
                    \/ (forall p, prev = Some p -> p <> fub_lead_id x)).
    { destruct prev as [p|]; [|right; discriminate].
      destruct (Nat.eq_dec p (fub_lead_id x)) as [-> | Hne]; [now left|].
      right. now intros q [= <-]. }
    destruct Hcase as [-> | Esame].
    + rewrite distinct_on_aux_skip.
      destruct (IH (Some (fub_lead_id x)) Ht) as (Ha & Hb & Hc).
      { intros p [= <-]. exact Hlow. }
      split; [|split].
      * intros d Hd. destruct (Ha d Hd) as (H1 & H2 & H3).
        split; [now right|]. split; [exact H2|].
        intros r [<- | Hr] Hid; [|now apply H3].
        specialize (H2 _ eq_refl). lia.
      * exact Hb.
      * intros r [<- | Hr]; [now left | now apply Hc].
    + rewrite distinct_on_aux_keep by exact Esame.
      destruct (IH (Some (fub_lead_id x)) Ht) as (Ha & Hb & Hc).
      { intros p [= <-]. exact Hlow. }
      split; [|split].
      * intros d [<- | Hd].
        -- split; [now left|]. split.
           ++ intros p ->. specialize (Hp p eq_refl).
              apply Forall_inv in Hp. specialize (Esame p eq_refl). lia.
           ++ intros r [<- | Hr] Hid; [apply Qle_refl|].
              destruct (Hx r Hr) as [H | [_ H]]; [lia | exact H].
        -- destruct (Ha d Hd) as (H1 & H2 & H3).
           specialize (H2 _ eq_refl).
           split; [now right|]. split.
           ++ intros p ->. specialize (Hp p eq_refl).
              apply Forall_inv in Hp. lia.
           ++ intros r [<- | Hr] Hid; [lia | now apply H3].
      * constructor; [exact Hb|].
        apply Forall_forall. intros d Hd.
        destruct (Ha d Hd) as (_ & H2 & _). now apply H2.
      * intros r [<- | Hr].
        -- right. exists x. split; [now left | reflexivity].
        -- destruct (Hc r Hr) as [[= E] | (d & Hd & E)].
           ++ right. exists x. split; [now left | exact E].
           ++ right. exists d. split; [now right | exact E].
Qed.

Lemma sorted_by_id_NoDup (rows : list MatchResult) :
  sorted_by_id rows -> NoDup (map fub_lead_id rows).
Proof.
  induction 1 as [|a l Hl IH Ha]; simpl; constructor; [|exact IH].
  rewrite Forall_forall in Ha. intros Hin.
  apply in_map_iff in Hin. destruct Hin as (b & E & Hb).
  specialize (Ha b Hb). lia.
Qed.

(** Every signal names a CRM lead of the table and has a confidence above
    0.6: 1.0, 0.95, or a similarity that passed the filter. *)
Lemma matches_In (similarity : string -> string -> Q) (v : source_lead)
    (fubs : list fub_lead) (m : MatchResult) :
  In m (matches similarity v fubs) ->
  (exists f, In f fubs /\ fl_id f = fub_lead_id m)
  /\ (6 # 10 < confidence m)%Q.
Proof.
  unfold matches. intros H.
  apply in_app_or in H. destruct H as [H | H];
    [|apply in_app_or in H; destruct H as [H | H]];
    apply in_flat_map in H; destruct H as (f & Hf & H).
  - unfold email_branch in H. destruct (_ && _) in H; [|contradiction].
    destruct H as [<- | []]. split; [now exists f | reflexivity].
  - unfold phone_branch in H. destruct (_ && _) in H; [|contradiction].
    destruct H as [<- | []]. split; [now exists f | reflexivity].
  - unfold address_branch in H.
    destruct (fl_address_normalized f) as [fa|]; [|contradiction].
    destruct (sl_property_address_normalized v) as [va|]; [|contradiction].
    destruct (_ && _) eqn:E in H; [|contradiction].
    destruct H as [<- | []]. split; [now exists f|]. simpl.
    apply andb_true_iff in E. destruct E as [_ E].
    apply negb_true_iff in E. apply Qnot_le_lt. intros Hle.
    apply Qle_bool_iff in Hle. congruence.
Qed.

(** The query as a whole: [LIMIT] over [DISTINCT ON] over the sorted signals. *)
Lemma limit_distinct_sorted (similarity : string -> string -> Q)
    (order_by : list MatchResult -> list MatchResult)
    (source_leads : list source_lead) (fub_leads : list fub_lead)
    (p_source_lead_id : uuid) (p_max_results : nat) :
  is_order_by order_by ->
  let result := find_fub_matches similarity order_by source_leads fub_leads
                  p_source_lead_id p_max_results in
  let signals := signals_of similarity source_leads fub_leads p_source_lead_id in
  length result <= p_max_results
  /\ NoDup (map fub_lead_id result)
  /\ (forall r, In r result ->
        In r signals
        /\ forall s, In s signals -> fub_lead_id s = fub_lead_id r ->
                     (confidence s <= confidence r)%Q)
  /\ sorted_by_id result
  /\ (forall s, In s signals ->
        In (fub_lead_id s) (map fub_lead_id result)
        \/ (length result = p_max_results
            /\ forall r, In r result -> fub_lead_id r < fub_lead_id s)).
Proof.
  intros Hob result signals. subst result signals.
  unfold find_fub_matches, signals_of.
  destruct (find _ source_leads) as [v|].
  2:{ simpl. repeat split; try contradiction; try constructor. lia. }
  set (sig := matches similarity v fub_leads).
  destruct (Hob sig) as [Hperm Hsorted].
  destruct (@distinct_on_aux_spec (order_by sig) None Hsorted) as (Ha & Hb & Hc);
    [discriminate|].
  unfold distinct_on.
  revert Ha Hb Hc.
  generalize (distinct_on_aux None (order_by sig)). intros D Ha Hb Hc.
  assert (Hsplit : firstn p_max_results D ++ skipn p_max_results D = D)
    by apply firstn_skipn.
  pose proof Hb as HsD. unfold sorted_by_id in HsD. rewrite <- Hsplit in HsD.
  apply StronglySorted_app_inv in HsD. destruct HsD as (S1 & _ & S12).
  split; [apply firstn_le_length|].
  split; [apply sorted_by_id_NoDup, S1|].
  split; [|split; [exact S1|]].
  - intros r Hr. apply In_firstn in Hr. destruct (Ha r Hr) as (H1 & _ & H3).
    split.
    + eapply Permutation_in; [symmetry; exact Hperm | exact H1].
    + intros s Hs. apply H3. eapply Permutation_in; eassumption.
  - intros s Hs.
    destruct (Hc s (Permutation_in _ Hperm Hs)) as [H | (d & Hd & E)];
      [discriminate|].
    rewrite <- Hsplit in Hd. apply in_app_or in Hd. destruct Hd as [Hd | Hd].
    + left. rewrite <- E. now apply in_map.
    + right. split.
      * rewrite length_firstn. destruct (Nat.le_gt_cases (length D) p_max_results) as [Hle|Hgt]; [|lia].
        rewrite (skipn_all2 D Hle) in Hd. contradiction.
      * intros r Hr. rewrite <- E. now apply S12.
Qed.

(** C3, as amended.  Whatever [similarity] computes and however the executor
    orders rows of equal key, [find_fub_matches] returns at most N rows, one
    per CRM lead, each of them a signal of its (lead, CRM lead) pair of
    maximal confidence; the rows come by ascending [fub_lead_id], and the N
    rows kept are those of the matching CRM leads with the smallest ids. *)
Theorem find_fub_matches_spec (similarity : string -> string -> Q)
    (order_by : list MatchResult -> list MatchResult)
    (source_leads : list source_lead) (fub_leads : list fub_lead)
    (p_source_lead_id : uuid) (p_max_results : nat) :
  is_order_by order_by ->
  let result := find_fub_matches similarity order_by source_leads fub_leads
                  p_source_lead_id p_max_results in
  let signals := signals_of similarity source_leads fub_leads p_source_lead_id in
  length result <= p_max_results
  /\ NoDup (map fub_lead_id result)
  /\ (forall r, In r result ->
        In r signals
        /\ forall s, In s signals -> fub_lead_id s = fub_lead_id r ->
                     (confidence s <= confidence r)%Q)
  /\ sorted_by_id result
  /\ (forall s, In s signals ->
        In (fub_lead_id s) (map fub_lead_id result)
        \/ (length result = p_max_results
            /\ forall r, In r result -> fub_lead_id r < fub_lead_id s)).
Proof.
  apply limit_distinct_sorted.
Qed.

Lemma find_fub_matches_spec_witness :
  is_order_by sort_rows /\
  length (find_fub_matches similarity_70 sort_rows [lead_john]
            [crm_by_address; crm_by_email] 1 5) <= 5.
Proof.
  split; [exact sort_rows_is_order_by|].
  exact (proj1 (@find_fub_matches_spec similarity_70 sort_rows [lead_john]
                  [crm_by_address; crm_by_email] 1 5 sort_rows_is_order_by)).
Defined.

(** The run behind the counterexample: the address signal of CRM lead 10 comes
    before the e-mail signal of CRM lead 20. *)
Example find_fub_matches_run :
  find_fub_matches similarity_70 sort_rows [lead_john]
    [crm_by_address; crm_by_email] 1 5
  = [ mk_MatchResult 10 address_fuzzy (7 # 10)
        (address_similarity (Some "123 main st"%string)
           (Some "123 main street"%string) (7 # 10));
      mk_MatchResult 20 email_exact 1
        (matched_email (Some "john.smith@example.com"%string)) ].
Proof. reflexivity. Qed.

(** C3, the claim as stated fails: the rows are not sorted by confidence
    descending (0.7 comes before 1.0). *)
Lemma find_fub_matches_not_sorted_by_confidence :
  ~ sorted_by_confidence_desc
      (find_fub_matches similarity_70 sort_rows [lead_john]
         [crm_by_address; crm_by_email] 1 5).
Proof.
  rewrite find_fub_matches_run. intros H.
  apply StronglySorted_inv in H. destruct H as [_ H].
  apply Forall_inv in H. simpl in H. unfold Qle in H. simpl in H. lia.
Qed.

(** With [p_max_results = 1] the limit keeps the row of the smaller id and
    drops the exact e-mail match. *)
Example find_fub_matches_limit_run :
  map fub_lead_id
    (find_fub_matches similarity_70 sort_rows [lead_john]
       [crm_by_address; crm_by_email] 1 1) = [10].
Proof. reflexivity. Qed.

(** Signals of equal confidence: which one [DISTINCT ON] keeps depends on the
    executor.  Both sorts below satisfy [is_order_by]. *)
Remark tie_break_depends_on_executor :
  map result_type
    (find_fub_matches similarity_100 sort_rows [lead_john] [crm_twice] 1 5)
  = [email_exact]
  /\ map result_type
       (find_fub_matches similarity_100 sort_rows_backwards [lead_john]
          [crm_twice] 1 5)
     = [address_fuzzy].
Proof. split; reflexivity. Qed.

End ScorerSpec.

Module MatcherSpec.
Import ListFacts Schema Matcher.

(** ** Tables as lists: keys and row-wise updates *)

Lemma update_rows_ids id f rows :
  (forall l, sl_id (f l) = sl_id l) ->
  map sl_id (update_rows id f rows) = map sl_id rows.
Proof.
  intros Hf. unfold update_rows. rewrite map_map. apply map_ext.
  intros l. destruct (sl_id l =? id); [apply Hf | reflexivity].
Qed.

Lemma update_rows_In id f rows l' :
  In l' (update_rows id f rows) ->
  (In l' rows /\ sl_id l' <> id)
  \/ (exists l0, In l0 rows /\ sl_id l0 = id /\ l' = f l0).
Proof.
  unfold update_rows. intros H. apply in_map_iff in H.
  destruct H as (l0 & E & Hin).
  destruct (Nat.eqb_spec (sl_id l0) id) as [Hid|Hid]; subst l'.
  - right. now exists l0.
  - left. now split.
Qed.

Lemma update_rows_other id f rows other :
  (forall l, sl_id (f l) = sl_id l) -> other <> id ->
  filter (fun l => sl_id l =? other) (update_rows id f rows)
  = filter (fun l => sl_id l =? other) rows.
Proof.
  intros Hf Hne. unfold update_rows.
  induction rows as [|l t IH]; simpl; [reflexivity|]. rewrite IH.
  destruct (Nat.eqb_spec (sl_id l) id) as [E|E]; [|reflexivity].
  rewrite Hf, E. apply Nat.eqb_neq in Hne.
  rewrite Nat.eqb_sym in Hne. now rewrite Hne.
Qed.

Lemma update_rows_keep id f rows l :
  In l rows -> sl_id l <> id -> In l (update_rows id f rows).
Proof.
  intros Hin Hne. unfold update_rows. apply in_map_iff. exists l.
  apply Nat.eqb_neq in Hne. now rewrite Hne.
Qed.

Lemma update_rows_id id rows : update_rows id (fun l => l) rows = rows.
Proof.
  unfold update_rows. rewrite <- (map_id rows) at 2. apply map_ext.
  intros l. now destruct (sl_id l =? id).
Qed.

Lemma set_match_id s c t l : sl_id (set_match s c t l) = sl_id l.
Proof. reflexivity. Qed.

(** ** The upsert of candidates *)

Lemma upsert_one_frame d p :
  source_leads (upsert_one d p) = source_leads d
  /\ fub_leads (upsert_one d p) = fub_leads d
  /\ agents (upsert_one d p) = agents d
  /\ lead_matches (upsert_one d p) = lead_matches d
  /\ data_lineage (upsert_one d p) = data_lineage d.
Proof.
  unfold upsert_one. destruct (existsb _ _); simpl; repeat split.
Qed.

(** Every row after one upsert is an old row, or carries the payload. *)
Lemma upsert_one_rows d p c :
  In c (match_candidates (upsert_one d p)) ->
  In c (match_candidates d) \/ row_of_insert p c.
Proof.
  unfold upsert_one. destruct (existsb _ _); simpl; intros H.
  - apply in_map_iff in H. destruct H as (c0 & E & Hin).
    destruct (same_pair _ _ c0) eqn:Esp; subst c; [|now left].
    right. unfold same_pair in Esp. apply andb_true_iff in Esp.
    destruct Esp as [E1 E2]. apply Nat.eqb_eq in E1, E2.
    repeat split; simpl; assumption.
  - apply in_app_or in H. destruct H as [H | [<- | []]]; [now left|].
    right. repeat split.
Qed.

(** The payload row is in the table afterwards. *)
Lemma upsert_one_written d p :
  exists c, In c (match_candidates (upsert_one d p)) /\ row_of_insert p c.
Proof.
  unfold upsert_one. destruct (existsb _ _) eqn:Eex; simpl.
  - apply existsb_exists in Eex. destruct Eex as (c0 & Hin & Esp).
    eexists. split.
    + apply in_map_iff. exists c0. split; [reflexivity | exact Hin].
    + rewrite Esp. unfold same_pair in Esp. apply andb_true_iff in Esp.
      destruct Esp as [E1 E2]. apply Nat.eqb_eq in E1, E2.
      repeat split; simpl; assumption.
  - eexists. split; [apply in_or_app; right; left; reflexivity|].
    repeat split.
Qed.

(** A row of another pair survives an upsert. *)
Lemma upsert_one_keeps d p c :
  In c (match_candidates d) ->
  same_pair (ci_source_lead_id p) (ci_fub_lead_id p) c = false ->
  In c (match_candidates (upsert_one d p)).
Proof.
  intros Hin Hsp. unfold upsert_one. destruct (existsb _ _); simpl.
  - apply in_map_iff. exists c. now rewrite Hsp.
  - apply in_or_app. now left.
Qed.

Lemma upsert_one_other d p other :
  other <> ci_source_lead_id p ->
  candidates_of (upsert_one d p) other = candidates_of d other.
Proof.
  intros Hne. unfold candidates_of, upsert_one.
  destruct (existsb _ _); simpl.
  - induction (match_candidates d) as [|c t IH]; simpl; [reflexivity|].
    rewrite IH. destruct (same_pair _ _ c) eqn:Esp; [|reflexivity]. simpl.
    unfold same_pair in Esp. apply andb_true_iff in Esp.
    destruct Esp as [E1 _]. apply Nat.eqb_eq in E1.
    assert (E : (mc_source_lead_id c =? other) = false)
      by (apply Nat.eqb_neq; congruence).
    now rewrite E.
  - rewrite filter_app. simpl.
    apply Nat.eqb_neq in Hne. rewrite Nat.eqb_sym in Hne. rewrite Hne.
    apply app_nil_r.
Qed.

Lemma fold_upsert_frame payload : forall d,
  source_leads (fold_left upsert_one payload d) = source_leads d
  /\ fub_leads (fold_left upsert_one payload d) = fub_leads d
  /\ agents (fold_left upsert_one payload d) = agents d
  /\ lead_matches (fold_left upsert_one payload d) = lead_matches d
  /\ data_lineage (fold_left upsert_one payload d) = data_lineage d.
Proof.
  induction payload as [|p t IH]; intros d; simpl; [repeat split|].
  destruct (IH (upsert_one d p)) as (H1 & H2 & H3 & H4 & H5).
  destruct (upsert_one_frame d p) as (G1 & G2 & G3 & G4 & G5).
  repeat split; congruence.
Qed.

Lemma fold_upsert_rows payload : forall d c,
  In c (match_candidates (fold_left upsert_one payload d)) ->
  In c (match_candidates d) \/ exists p, In p payload /\ row_of_insert p c.
Proof.
  induction payload as [|p t IH]; intros d c H; simpl in H; [now left|].
  destruct (IH _ _ H) as [H' | (q & Hq & Hr)].
  - destruct (upsert_one_rows _ _ _ H') as [H''|H'']; [now left|].
    right. exists p. split; [now left | exact H''].
  - right. exists q. split; [now right | exact Hr].
Qed.

Lemma fold_upsert_keeps payload : forall d c,
  In c (match_candidates d) ->
  (forall p, In p payload ->
     same_pair (ci_source_lead_id p) (ci_fub_lead_id p) c = false) ->
  In c (match_candidates (fold_left upsert_one payload d)).
Proof.
  induction payload as [|p t IH]; intros d c Hin Hsp; simpl; [exact Hin|].
  apply IH.
  - apply upsert_one_keeps; [exact Hin | apply Hsp; now left].
  - intros q Hq. apply Hsp. now right.
Qed.

Lemma distinct_ids_NoDup l : distinct_ids l = true -> NoDup l.
Proof.
  induction l as [|x t IH]; simpl; intros H; constructor.
  - apply andb_true_iff in H. destruct H as [H _].
    intros Hin. apply negb_true_iff in H.
    assert (existsb (Nat.eqb x) t = true); [|congruence].
    apply existsb_exists. exists x. split; [exact Hin | apply Nat.eqb_refl].
  - apply IH. apply andb_true_iff in H. tauto.
Qed.

(** With pairwise distinct CRM leads in the payload, every payload row is in
    the table after the whole upsert. *)
Lemma fold_upsert_written lead payload : forall d,
  payload_for lead payload ->
  NoDup (map ci_fub_lead_id payload) ->
  forall p, In p payload ->
  exists c, In c (match_candidates (fold_left upsert_one payload d))
            /\ row_of_insert p c.
Proof.
  induction payload as [|q t IH]; intros d Hfor Hnd p Hp; [contradiction|].
  apply Forall_cons_iff in Hfor. destruct Hfor as [Hq Hfor].
  simpl in Hnd. apply NoDup_cons_iff in Hnd. destruct Hnd as [Hnq Hnd].
  simpl. destruct Hp as [<- | Hp]; [|now apply IH].
  destruct (upsert_one_written d q) as (c & Hc & Hrow).
  exists c. split; [|exact Hrow].
  apply fold_upsert_keeps; [exact Hc|].
  intros r Hr. unfold same_pair.
  destruct Hrow as (_ & E2 & _). rewrite E2.
  destruct (Nat.eqb_spec (ci_fub_lead_id q) (ci_fub_lead_id r)) as [E|E];
    [|apply andb_false_r].
  exfalso. apply Hnq. rewrite E. now apply in_map.
Qed.

Lemma fold_upsert_other lead payload other : forall d,
  payload_for lead payload -> other <> lead ->
  candidates_of (fold_left upsert_one payload d) other = candidates_of d other.
Proof.
  induction payload as [|p t IH]; intros d Hfor Hne; simpl; [reflexivity|].
  apply Forall_cons_iff in Hfor. destruct Hfor as [Hp Hfor].
  rewrite IH by assumption. apply upsert_one_other. now rewrite Hp.
Qed.

Lemma payload_for_map lead (ms : list MatchResult) :
  payload_for lead (map (candidateInsert lead) ms).
Proof.
  apply Forall_forall. intros p Hp. apply in_map_iff in Hp.
  now destruct Hp as (m & <- & _).
Qed.

(** ** What one matcher step touches *)

Lemma insert_lead_match_inv d lead fub row mid d1 :
  insert_lead_match d lead fub row = Some (mid, d1) ->
  mid = next_uuid d
  /\ lead_exists d lead = true /\ fub_exists d fub = true
  /\ pair_matched d lead fub = false
  /\ d1 = mk_db (source_leads d) (fub_leads d) (agents d)
            (lead_matches d ++ [row (next_uuid d)]) (match_candidates d)
            (data_lineage d) (S (next_uuid d)).
Proof.
  unfold insert_lead_match.
  destruct (lead_exists d lead) eqn:E1; [|discriminate].
  destruct (fub_exists d fub) eqn:E2; [|discriminate].
  destruct (pair_matched d lead fub) eqn:E3; [discriminate|].
  simpl. intros [= <- <-]. repeat split.
Qed.

Lemma lineage_of_match_mentions lead matchId id other :
  lineage_mentions other (lineage_of_match lead matchId id) = (lead =? other).
Proof.
  unfold lineage_mentions, lineage_of_match. cbn.
  now rewrite orb_false_r.
Qed.

Lemma view_update_source_lead d id f other :
  (forall l, sl_id (f l) = sl_id l) -> other <> id ->
  view (update_source_lead d id f) other = view d other.
Proof.
  intros Hf Hne. unfold view, rows_of_lead, update_source_lead. simpl.
  fold (update_rows id f (source_leads d)).
  now rewrite update_rows_other.
Qed.

Lemma view_upsert_candidates d lead payload other :
  payload_for lead payload -> other <> lead ->
  view (upsert_candidates d payload) other = view d other.
Proof.
  intros Hfor Hne. unfold upsert_candidates.
  destruct (upsert_accepted d payload); [|reflexivity].
  unfold view, rows_of_lead, matches_of, lineage_of.
  destruct (fold_upsert_frame payload d) as (H1 & _ & _ & H4 & H5).
  rewrite H1, H4, H5, (fold_upsert_other lead payload other d Hfor Hne). reflexivity.
Qed.

Lemma processMatches_view d id ms org now other :
  other <> id ->
  view (fst (processMatches d id ms org now)) other = view d other.
Proof.
  intros Hne. unfold processMatches.
  destruct ms as [|m0 ms0].
  { simpl. now apply view_update_source_lead. }
  destruct (find is_auto (m0 :: ms0)) as [autoMatch|].
  - destruct (attribution d (fub_lead_id autoMatch)) as [agentId teamId].
    destruct (insert_lead_match _ _ _ _) as [[matchId d1]|] eqn:Eins;
      [|reflexivity].
    apply insert_lead_match_inv in Eins.
    destruct Eins as (_ & _ & _ & _ & ->).
    unfold view, rows_of_lead, matches_of, candidates_of, lineage_of. simpl.
    fold (update_rows id (mark_matched (confidence autoMatch) now)
            (source_leads d)).
    rewrite update_rows_other by (try reflexivity; assumption).
    rewrite !filter_app. simpl.
    rewrite lineage_of_match_mentions.
    apply Nat.eqb_neq in Hne. rewrite Nat.eqb_sym in Hne. rewrite Hne.
    simpl. now rewrite !app_nil_r.
  - destruct (filter is_candidate (m0 :: ms0)) as [|first rest].
    { simpl. now apply view_update_source_lead. }
    simpl fst.
    rewrite view_update_source_lead by (try reflexivity; assumption).
    apply view_upsert_candidates with (lead := id); [|assumption].
    apply (payload_for_map id (first :: rest)).
Qed.

Lemma processMatches_ids d id ms org now :
  map sl_id (source_leads (fst (processMatches d id ms org now)))
  = map sl_id (source_leads d).
Proof.
  assert (Hupd : forall d0 f, (forall l, sl_id (f l) = sl_id l) ->
            map sl_id (source_leads (update_source_lead d0 id f))
            = map sl_id (source_leads d0)).
  { intros d0 f Hf. simpl. exact (@update_rows_ids id f (source_leads d0) Hf). }
  unfold processMatches.
  destruct ms as [|m0 ms0]; [now apply Hupd|].
  destruct (find is_auto (m0 :: ms0)) as [autoMatch|].
  - destruct (attribution d (fub_lead_id autoMatch)) as [agentId teamId].
    destruct (insert_lead_match _ _ _ _) as [[matchId d1]|] eqn:Eins;
      [|reflexivity].
    apply insert_lead_match_inv in Eins.
    destruct Eins as (_ & _ & _ & _ & ->). simpl.
    now apply (@update_rows_ids id _ (source_leads d)).
  - destruct (filter is_candidate (m0 :: ms0)) as [|first rest];
      [now apply Hupd|].
    cbv beta iota zeta delta [fst]. rewrite Hupd by reflexivity.
    unfold upsert_candidates. destruct (upsert_accepted _ _); [|reflexivity].
    f_equal. apply fold_upsert_frame.
Qed.

Section WithScorer.

Variable similarity : string -> string -> Q.
Variable order_by : list MatchResult -> list MatchResult.

Lemma match_lead_view d id now other :
  other <> id ->
  view (fst (match_lead similarity order_by d id now)) other = view d other.
Proof.
  intros Hne. unfold match_lead.
  destruct (single _) as [sourceLead|]; [|reflexivity].
  destruct (processMatches _ _ _ _ _) as [d' r] eqn:E. simpl.
  change d' with (fst (d', r)). rewrite <- E. now apply processMatches_view.
Qed.

Lemma match_lead_ids d id now :
  map sl_id (source_leads (fst (match_lead similarity order_by d id now)))
  = map sl_id (source_leads d).
Proof.
  unfold match_lead.
  destruct (single _) as [sourceLead|]; [|reflexivity].
  destruct (processMatches _ _ _ _ _) as [d' r] eqn:E. simpl.
  change d' with (fst (d', r)). rewrite <- E. apply processMatches_ids.
Qed.

Lemma match_all_view ids other : forall d now s,
  ~ In other ids ->
  view (fst (match_all similarity order_by d ids now s)) other = view d other.
Proof.
  induction ids as [|id rest IH]; intros d now s Hnot; [reflexivity|].
  simpl. destruct (match_lead similarity order_by d id now) as [d' r] eqn:E.
  rewrite IH by (intros H; apply Hnot; now right).
  change d' with (fst (d', r)). rewrite <- E. apply match_lead_view.
  intros ->. apply Hnot. now left.
Qed.

(** In organization and cron mode only pending leads are selected. *)
Lemma selected_ids_pending d body id :
  source_lead_ids body = [] ->
  In id (selected_ids d body) ->
  exists l, In l (source_leads d) /\ sl_id l = id
            /\ sl_match_status l = lead_pending.
Proof.
  intros Hmode. unfold selected_ids. rewrite Hmode.
  assert (Hp : forall l, is_pending l = true -> sl_match_status l = lead_pending).
  { intros l. unfold is_pending. now destruct (sl_match_status l). }
  destruct (organization_id body) as [org|]; intros H;
    apply in_map_iff in H; destruct H as (l & <- & Hl);
    apply In_firstn in Hl; apply filter_In in Hl;
    destruct Hl as [Hin Hf]; exists l.
  - apply andb_true_iff in Hf. destruct Hf as [_ Hf]. auto.
  - auto.
Qed.

End WithScorer.

(** ** Re-running the matcher *)

Example db_oak_approved_run :
  source_leads db_oak_approved = [lead_oak_matched]
  /\ map (fun m => (lm_id m, lm_fub_lead_id m, lm_matched_by m, lm_status m))
       (lead_matches db_oak_approved) = [(102, 10, by_manual, match_active)]
  /\ map (fun c => (mc_id c, mc_fub_lead_id c, mc_status c))
       (match_candidates db_oak_approved)
     = [(100, 10, cand_approved); (101, 11, cand_rejected)].
Proof. repeat split. Qed.

(** C2, as amended.  A matcher run that selects its leads itself
    (organization mode or cron mode, no ids in the request) leaves every lead
    with [match_status = 'matched'] alone: the lead row, the [lead_matches]
    rows of the lead and the [data_lineage] rows that mention the lead are
    the same afterwards. *)
Theorem matcher_run_skips_matched (similarity : string -> string -> Q)
    (order_by : list MatchResult -> list MatchResult)
    (d : db) (body : MatchRequest) (now : nat) (l : source_lead) :
  source_lead_ids body = [] ->
  NoDup (map sl_id (source_leads d)) ->
  In l (source_leads d) ->
  sl_match_status l = lead_matched ->
  let d' := fst (serve similarity order_by d body now) in
  rows_of_lead d' (sl_id l) = [l]
  /\ matches_of d' (sl_id l) = matches_of d (sl_id l)
  /\ lineage_of d' (sl_id l) = lineage_of d (sl_id l).
Proof.
  intros Hmode Hpk Hl Hst d'.
  assert (Hnot : ~ In (sl_id l) (selected_ids d body)).
  { intros Hin.
    destruct (selected_ids_pending d body (sl_id l) Hmode Hin) as (l' & Hl' & Hid & Hp).
    rewrite (NoDup_key_eq sl_id _ l l' Hpk Hl Hl' Hid) in Hp. congruence. }
  pose proof (match_all_view similarity order_by (selected_ids d body)
                (sl_id l) d now (mk_MatchSummary 0 0 0 0 0) Hnot) as Hview.
  fold (serve similarity order_by d body now) in Hview. fold d' in Hview.
  unfold view in Hview. injection Hview as H1 H2 _ H4.
  split; [|split]; [|exact H2|exact H4].
  rewrite H1. unfold rows_of_lead. now apply filter_key_NoDup.
Qed.

Lemma matcher_run_skips_matched_witness :
  matches_of
    (fst (serve Scorer.similarity_70 Scorer.sort_rows db_oak_approved
            cron_request 3000)) 1
  = matches_of db_oak_approved 1.
Proof.
  refine (proj1 (proj2 (matcher_run_skips_matched Scorer.similarity_70
                          Scorer.sort_rows db_oak_approved cron_request 3000
                          lead_oak_matched _ _ _ _))).
  - reflexivity.
  - simpl. constructor; [intros [] | constructor].
  - left. reflexivity.
  - reflexivity.
Defined.

(** C2, the claim as stated fails: lead 1 is matched (one active match, made
    by an approval); a matcher run on the listed id 1 scores the lead again
    and sets its row to ['multiple']. *)
Lemma matcher_rerun_alters_matched_lead :
  source_leads db_oak_approved = [lead_oak_matched]
  /\ sl_match_status lead_oak_matched = lead_matched
  /\ length (active_matches db_oak_approved 1) = 1
  /\ map sl_match_status
       (source_leads
          (fst (serve Scorer.similarity_70 Scorer.sort_rows db_oak_approved
                  (explicit_request [1]) 3000)))
     = [lead_multiple]
  /\ rows_of_lead
       (fst (serve Scorer.similarity_70 Scorer.sort_rows db_oak_approved
               (explicit_request [1]) 3000)) 1
     <> rows_of_lead db_oak_approved 1.
Proof. repeat split. discriminate. Qed.

(** ** The review resolver *)

(** C5, as amended.  [approveCandidate] does not read the candidate's
    status.  When it throws, nothing has been written.  When exactly one
    candidate row has the id, the two leads exist and no match of the pair
    exists, it returns the id of a new active match of type ['manual'] made
    by the reviewer, the candidate is ['approved'] and the lead is
    ['matched'] with the candidate's score, whatever the status of the
    candidate was. *)
Theorem approveCandidate_spec (d : db) (candidateId reviewedBy : uuid)
    (now : nat) :
  (forall message,
      snd (approveCandidate d candidateId reviewedBy now) = Threw message ->
      fst (approveCandidate d candidateId reviewedBy now) = d)
  /\ (forall c,
      single (filter (fun c => mc_id c =? candidateId) (match_candidates d))
      = Some c ->
      lead_exists d (mc_source_lead_id c) = true ->
      fub_exists d (mc_fub_lead_id c) = true ->
      pair_matched d (mc_source_lead_id c) (mc_fub_lead_id c) = false ->
      let d' := fst (approveCandidate d candidateId reviewedBy now) in
      snd (approveCandidate d candidateId reviewedBy now)
      = Returned (next_uuid d)
      /\ (exists m,
           lead_matches d' = lead_matches d ++ [m]
           /\ lm_id m = next_uuid d
           /\ lm_source_lead_id m = mc_source_lead_id c
           /\ lm_fub_lead_id m = mc_fub_lead_id c
           /\ lm_match_type m = manual
           /\ lm_match_confidence m = mc_confidence_score c
           /\ lm_matched_by m = by_manual
           /\ lm_matched_by_user_id m = Some reviewedBy
           /\ lm_status m = match_active)
      /\ (forall c', In c' (match_candidates d') -> mc_id c' = candidateId ->
                     mc_status c' = cand_approved)
      /\ (forall l, In l (source_leads d') ->
                    sl_id l = mc_source_lead_id c ->
                    sl_match_status l = lead_matched
                    /\ sl_match_confidence l = Some (mc_confidence_score c))).
Proof.
  split.
  - intros message. unfold approveCandidate.
    destruct (single _) as [c|]; [|reflexivity].
    destruct (attribution d (mc_fub_lead_id c)) as [agentId teamId].
    destruct (insert_lead_match _ _ _ _) as [[matchId d1]|]; [|reflexivity].
    discriminate.
  - intros c Hc Hlead Hfub Hpair. unfold approveCandidate. rewrite Hc.
    destruct (attribution d (mc_fub_lead_id c)) as [agentId teamId].
    unfold insert_lead_match. rewrite Hlead, Hfub, Hpair. simpl.
    split; [reflexivity|]. split; [|split].
    + eexists. split; [reflexivity|]. repeat split.
    + intros c' Hin Hid. apply in_map_iff in Hin.
      destruct Hin as (c1 & E1 & Hin). apply in_map_iff in Hin.
      destruct Hin as (c0 & E0 & Hin).
      destruct (Nat.eqb_spec (mc_id c0) candidateId) as [H0|H0]; subst c1.
      * simpl in E1. rewrite H0, Nat.eqb_refl, andb_false_r in E1.
        simpl in E1. now subst c'.
      * destruct (_ && _) in E1; subst c'; simpl in Hid; contradiction.
    + intros l Hin Hid.
      fold (update_rows (mc_source_lead_id c)
              (mark_matched (mc_confidence_score c) now) (source_leads d)) in Hin.
      apply update_rows_In in Hin.
      destruct Hin as [[_ Hne] | (l0 & _ & _ & ->)]; [contradiction|].
      split; reflexivity.
Qed.

Lemma approveCandidate_spec_witness :
  snd (approveCandidate db_oak_review 100 9 2000) = Returned 102.
Proof.
  refine (proj1 (proj2 (approveCandidate_spec db_oak_review 100 9 2000)
                   cand_oak_a _ _ _ _));
    reflexivity.
Defined.

(** C5, the claim as stated fails: candidate 101 was rejected when its
    sibling was approved; approving it afterwards returns a match id and adds
    a match row. *)
Lemma approve_rejected_candidate_succeeds :
  map (fun c => (mc_id c, mc_status c)) (match_candidates db_oak_approved)
  = [(100, cand_approved); (101, cand_rejected)]
  /\ snd (approveCandidate db_oak_approved 101 9 3000) = Returned 103
  /\ map (fun m => (lm_id m, lm_source_lead_id m, lm_fub_lead_id m))
       (lead_matches (fst (approveCandidate db_oak_approved 101 9 3000)))
     = [(102, 1, 10); (103, 1, 11)]
  /\ map (fun c => (mc_id c, mc_status c))
       (match_candidates (fst (approveCandidate db_oak_approved 101 9 3000)))
     = [(100, cand_approved); (101, cand_approved)].
Proof. repeat split. Qed.

(** ** The invariant *)

Lemma matches_of_app d d' id extra other :
  lead_matches d' = lead_matches d ++ extra ->
  Forall (fun m => lm_source_lead_id m = id) extra ->
  matches_of d' other
  = matches_of d other ++ (if other =? id then extra else []).
Proof.
  intros Hm Hextra. unfold matches_of. rewrite Hm, filter_app. f_equal.
  clear Hm.
  destruct (Nat.eqb_spec other id) as [-> | Hne].
  - induction Hextra as [|m t Hm' _ IH]; simpl; [reflexivity|].
    rewrite Hm', Nat.eqb_refl. now f_equal.
  - induction Hextra as [|m t Hm' _ IH]; simpl; [reflexivity|].
    rewrite Hm'. destruct (Nat.eqb_spec id other) as [E|_]; [congruence|].
    exact IH.
Qed.

Lemma active_of_matches d lead :
  active_matches d lead
  = filter (fun m => is_active (lm_status m)) (matches_of d lead).
Proof.
  unfold active_matches, matches_of.
  induction (lead_matches d) as [|m t IH]; simpl; [reflexivity|].
  destruct (lm_source_lead_id m =? lead); simpl; rewrite IH; reflexivity.
Qed.

(** One step of the pipeline on lead [id], seen from the invariant: the rows
    of the lead get status [st], the rows [extra] are added to
    [lead_matches], and a pending candidate afterwards either was there for
    another lead or belongs to [id], now in review. *)
Lemma inv_step d d' id f st extra :
  Inv d ->
  source_leads d' = update_rows id f (source_leads d) ->
  (forall l, sl_id (f l) = sl_id l) ->
  (forall l, sl_match_status (f l) = st) ->
  lead_matches d' = lead_matches d ++ extra ->
  Forall (fun m => lm_source_lead_id m = id) extra ->
  matches_of d id = [] ->
  (st = lead_matched -> exists m, extra = [m] /\ lm_status m = match_active) ->
  (st <> lead_matched -> extra = []) ->
  (forall c, In c (match_candidates d') -> mc_status c = cand_pending ->
     (In c (match_candidates d) /\ mc_source_lead_id c <> id)
     \/ (mc_source_lead_id c = id /\ (st = lead_review \/ st = lead_multiple))) ->
  Inv d'.
Proof.
  intros [Hpk Hmat Hun Hpc] Hsl Hf Hst Hlm Hextra Hnone Hyes Hno Hcand.
  assert (Hmo : forall other, matches_of d' other
                 = matches_of d other ++ (if other =? id then extra else []))
    by (intros; now apply matches_of_app).
  constructor.
  - rewrite Hsl, update_rows_ids; assumption.
  - intros l' Hin Hl'. rewrite Hsl in Hin. apply update_rows_In in Hin.
    rewrite Hmo.
    destruct Hin as [[Hin Hne] | (l0 & Hin & Hid & ->)].
    + apply Nat.eqb_neq in Hne. rewrite Hne, app_nil_r. now apply Hmat.
    + rewrite Hf, Hid, Nat.eqb_refl, Hnone. simpl.
      apply Hyes. now rewrite <- (Hst l0).
  - intros l' Hin Hl'. rewrite Hsl in Hin. apply update_rows_In in Hin.
    rewrite Hmo.
    destruct Hin as [[Hin Hne] | (l0 & Hin & Hid & ->)].
    + apply Nat.eqb_neq in Hne. rewrite Hne, app_nil_r. now apply Hun.
    + rewrite Hf, Hid, Nat.eqb_refl, Hnone. simpl.
      apply Hno. now rewrite <- (Hst l0).
  - intros c l' Hc Hp Hin Hid. rewrite Hsl in Hin. apply update_rows_In in Hin.
    destruct (Hcand c Hc Hp) as [[Hc0 Hne] | [Hsrc Hrev]].
    + destruct Hin as [[Hin _] | (l0 & _ & Hid0 & ->)].
      * now apply (Hpc c).
      * rewrite Hf in Hid. congruence.
    + destruct Hin as [[_ Hne] | (l0 & _ & _ & ->)]; [congruence|].
      now rewrite Hst.
Qed.

(** A pending lead has no match row and no pending candidate. *)
Lemma inv_pending_lead d l :
  Inv d -> In l (source_leads d) -> sl_match_status l = lead_pending ->
  matches_of d (sl_id l) = []
  /\ forall c, In c (match_candidates d) -> mc_status c = cand_pending ->
               mc_source_lead_id c <> sl_id l.
Proof.
  intros [Hpk Hmat Hun Hpc] Hin Hst. split.
  - apply Hun; [exact Hin | congruence].
  - intros c Hc Hp E. destruct (Hpc c l Hc Hp Hin (eq_sym E)); congruence.
Qed.

Lemma inv_initial d : initial d -> Inv d.
Proof.
  intros (Hpk & Hm & Hc & Hall). rewrite Forall_forall in Hall.
  constructor.
  - exact Hpk.
  - intros l Hl Hst. rewrite (Hall l Hl) in Hst. discriminate.
  - intros l _ _. unfold matches_of. now rewrite Hm.
  - intros c l Hin. rewrite Hc in Hin. contradiction.
Qed.

Lemma inv_processMatches d l ms org now :
  Inv d -> In l (source_leads d) -> sl_match_status l = lead_pending ->
  Inv (fst (processMatches d (sl_id l) ms org now)).
Proof.
  intros HI Hl Hst.
  destruct (inv_pending_lead d l HI Hl Hst) as [Hnone Hnocand].
  assert (Hunm : Inv (update_source_lead d (sl_id l) (mark_unmatched now))).
  { apply (inv_step d _ (sl_id l) (mark_unmatched now) lead_unmatched []);
      try assumption; try reflexivity.
    - simpl. now rewrite app_nil_r.
    - constructor.
    - discriminate.
    - intros c Hc Hp. left. split; [exact Hc | now apply Hnocand]. }
  unfold processMatches.
  destruct ms as [|m0 ms0]; [exact Hunm|].
  destruct (find is_auto (m0 :: ms0)) as [autoMatch|].
  - destruct (attribution d (fub_lead_id autoMatch)) as [agentId teamId].
    destruct (insert_lead_match _ _ _ _) as [[matchId d1]|] eqn:Eins;
      [|exact HI].
    apply insert_lead_match_inv in Eins.
    destruct Eins as (_ & _ & _ & _ & ->).
    eapply (inv_step d _ (sl_id l) (mark_matched (confidence autoMatch) now)
              lead_matched); try eassumption; try reflexivity.
    + repeat constructor.
    + intros _. eexists. split; reflexivity.
    + congruence.
    + intros c Hc Hp. left. split; [exact Hc | now apply Hnocand].
  - destruct (filter is_candidate (m0 :: ms0)) as [|first rest];
      [exact Hunm|].
    cbv beta iota zeta delta [fst].
    set (st := if 1 <? length (first :: rest) then lead_multiple else lead_review).
    set (payload := map (candidateInsert (sl_id l)) (first :: rest)).
    assert (Hframe : source_leads (upsert_candidates d payload) = source_leads d
                     /\ lead_matches (upsert_candidates d payload)
                        = lead_matches d).
    { unfold upsert_candidates. destruct (upsert_accepted d payload);
        [|now split].
      destruct (fold_upsert_frame payload d) as (H1 & _ & _ & H4 & _).
      now split. }
    destruct Hframe as [Hf1 Hf2].
    apply (inv_step d _ (sl_id l) (mark_review st (max_confidence first rest))
             st []); try assumption; try reflexivity.
    + simpl. now rewrite Hf1.
    + simpl. now rewrite Hf2, app_nil_r.
    + constructor.
    + intros E. exfalso. subst st. destruct (1 <? _); discriminate.
    + intros c Hc Hp. simpl in Hc.
      destruct (Nat.eq_dec (mc_source_lead_id c) (sl_id l)) as [E|E].
      * right. split; [exact E|]. subst st. destruct (1 <? _); auto.
      * left. split; [|exact E].
        unfold upsert_candidates in Hc.
        destruct (upsert_accepted d payload); [|exact Hc].
        apply fold_upsert_rows in Hc.
        destruct Hc as [Hc | (p & Hpin & Hrow)]; [exact Hc|].
        exfalso. apply E. destruct Hrow as (-> & _).
        pose proof (payload_for_map (sl_id l) (first :: rest)) as Hfor.
        unfold payload_for in Hfor. rewrite Forall_forall in Hfor.
        now apply Hfor.
Qed.

Lemma inv_approveCandidate d candidateId reviewedBy now c :
  Inv d -> In c (match_candidates d) -> mc_id c = candidateId ->
  mc_status c = cand_pending ->
  Inv (fst (approveCandidate d candidateId reviewedBy now)).
Proof.
  intros HI Hc Hid Hp. unfold approveCandidate.
  destruct (single _) as [c0|] eqn:Es; [|exact HI].
  assert (c = c0).
  { apply (single_filter_In _ _ c0 c Es Hc). now apply Nat.eqb_eq. }
  subst c0.
  destruct (attribution d (mc_fub_lead_id c)) as [agentId teamId].
  destruct (insert_lead_match _ _ _ _) as [[matchId d1]|] eqn:Eins;
    [|exact HI].
  apply insert_lead_match_inv in Eins.
  destruct Eins as (_ & Hlead & _ & _ & ->).
  apply existsb_exists in Hlead. destruct Hlead as (l0 & Hl0 & Eid).
  apply Nat.eqb_eq in Eid.
  assert (Hnone : matches_of d (mc_source_lead_id c) = []).
  { rewrite <- Eid. apply (inv_unmatched HI); [exact Hl0|].
    destruct (inv_pending_candidate HI c l0 Hc Hp Hl0 Eid); congruence. }
  eapply (inv_step d _ (mc_source_lead_id c)
            (mark_matched (mc_confidence_score c) now) lead_matched);
    try eassumption; try reflexivity.
  - repeat constructor.
  - intros _. eexists. split; reflexivity.
  - congruence.
  - intros c' Hin Hp'. simpl in Hin.
    apply in_map_iff in Hin. destruct Hin as (c1 & E1 & Hin).
    apply in_map_iff in Hin. destruct Hin as (c2 & E2 & Hin).
    destruct (Nat.eqb_spec (mc_id c2) candidateId) as [H2|H2]; subst c1.
    + exfalso. simpl in E1. rewrite H2, Nat.eqb_refl, andb_false_r in E1.
      simpl in E1. subst c'. discriminate.
    + apply Nat.eqb_neq in H2. rewrite H2 in E1. simpl in E1.
      rewrite andb_true_r in E1.
      destruct (Nat.eqb_spec (mc_source_lead_id c2) (mc_source_lead_id c))
        as [H3|H3]; simpl in E1.
      * exfalso. destruct (candidate_status_eqb (mc_status c2) cand_pending)
          eqn:E4; subst c'; [discriminate|].
        rewrite Hp' in E4. discriminate.
      * subst c'. left. now split.
Qed.

Section Invariant.

Variable similarity : string -> string -> Q.
Variable order_by : list MatchResult -> list MatchResult.

Lemma inv_match_lead d l now :
  Inv d -> In l (source_leads d) -> sl_match_status l = lead_pending ->
  Inv (fst (match_lead similarity order_by d (sl_id l) now)).
Proof.
  intros HI Hl Hst. unfold match_lead.
  destruct (single _) as [sourceLead|]; [|exact HI].
  destruct (processMatches _ _ _ _ _) as [d' r] eqn:E. simpl.
  change d' with (fst (d', r)). rewrite <- E.
  now apply inv_processMatches.
Qed.

Lemma reachable_inv d : reachable similarity order_by d -> Inv d.
Proof.
  induction 1 as [d Hinit | d id now l _ IH Hl Hid Hst
                  | d cid reviewer now c _ IH Hc Hid Hp].
  - now apply inv_initial.
  - subst id. now apply inv_match_lead.
  - now apply (inv_approveCandidate d cid reviewer now c).
Qed.

(** A matcher run in organization or cron mode is a sequence of guarded
    steps. *)
Lemma match_all_reachable ids : forall d now s,
  reachable similarity order_by d ->
  NoDup ids ->
  (forall id, In id ids ->
     exists l, In l (source_leads d) /\ sl_id l = id
               /\ sl_match_status l = lead_pending) ->
  reachable similarity order_by
    (fst (match_all similarity order_by d ids now s)).
Proof.
  induction ids as [|id rest IH]; intros d now s Hr Hnd Hpend; [exact Hr|].
  simpl. destruct (match_lead similarity order_by d id now) as [d' r] eqn:E.
  apply NoDup_cons_iff in Hnd. destruct Hnd as [Hnotin Hnd].
  assert (Ed : d' = fst (match_lead similarity order_by d id now))
    by now rewrite E.
  apply IH; [|exact Hnd|].
  - destruct (Hpend id (or_introl eq_refl)) as (l & Hl & Hid & Hst).
    rewrite Ed. now apply (@reach_match similarity order_by d id now l).
  - intros id' Hin'.
    destruct (Hpend id' (or_intror Hin')) as (l & Hl & Hid & Hst).
    exists l. split; [|now split].
    assert (Hne : id' <> id) by (intros ->; contradiction).
    pose proof (match_lead_view similarity order_by d id now id' Hne) as Hv.
    rewrite <- Ed in Hv. unfold view in Hv. injection Hv as Hrows _ _ _.
    assert (Hin : In l (rows_of_lead d' id')).
    { rewrite Hrows. apply filter_In. split; [exact Hl|].
      now apply Nat.eqb_eq. }
    apply filter_In in Hin. tauto.
Qed.

Lemma serve_reachable d body now :
  source_lead_ids body = [] ->
  reachable similarity order_by d ->
  reachable similarity order_by (fst (serve similarity order_by d body now)).
Proof.
  intros Hmode Hr. unfold serve. apply match_all_reachable; [exact Hr| |].
  - pose proof (inv_pk (reachable_inv d Hr)) as Hpk.
    unfold selected_ids. rewrite Hmode.
    destruct (organization_id body); now apply (NoDup_map_firstn_filter sl_id).
  - intros id. now apply selected_ids_pending.
Qed.

End Invariant.

(** C1, as amended.  In every state reached from an initial store by matcher
    steps on pending leads (what a run in organization or cron mode does) and
    by approvals of pending candidates, every lead has at most one active
    match, and its [match_status] is ['matched'] exactly when it has one. *)
Theorem one_active_match (similarity : string -> string -> Q)
    (order_by : list MatchResult -> list MatchResult) (d : db)
    (l : source_lead) :
  reachable similarity order_by d ->
  In l (source_leads d) ->
  length (active_matches d (sl_id l)) <= 1
  /\ (sl_match_status l = lead_matched
      <-> length (active_matches d (sl_id l)) = 1).
Proof.
  intros Hr Hl. pose proof (reachable_inv similarity order_by d Hr) as HI.
  rewrite active_of_matches.
  destruct (lead_status_eqb (sl_match_status l) lead_matched) eqn:E.
  - assert (Hst : sl_match_status l = lead_matched)
      by (destruct (sl_match_status l); try discriminate; reflexivity).
    destruct (inv_matched HI l Hl Hst) as (m & -> & Hact).
    simpl. rewrite Hact. simpl. split; [lia | tauto].
  - assert (Hst : sl_match_status l <> lead_matched)
      by (intros H; rewrite H in E; discriminate).
    rewrite (inv_unmatched HI l Hl Hst). simpl.
    split; [lia|]. split; [contradiction | discriminate].
Qed.

Lemma db_oak_approved_reachable :
  reachable Scorer.similarity_70 Scorer.sort_rows db_oak_approved.
Proof.
  assert (H0 : reachable Scorer.similarity_70 Scorer.sort_rows db_oak).
  { apply reach_initial. unfold initial. simpl. repeat split.
    - constructor; [intros [] | constructor].
    - repeat constructor. }
  assert (H1 : reachable Scorer.similarity_70 Scorer.sort_rows db_oak_review).
  { unfold db_oak_review. now apply serve_reachable. }
  unfold db_oak_approved.
  apply (@reach_approve Scorer.similarity_70 Scorer.sort_rows db_oak_review
           100 9 2000 cand_oak_a H1); [left|..]; reflexivity.
Qed.

Lemma one_active_match_witness :
  length (active_matches db_oak_approved 1) <= 1
  /\ (sl_match_status lead_oak_matched = lead_matched
      <-> length (active_matches db_oak_approved 1) = 1).
Proof.
  apply (one_active_match Scorer.similarity_70 Scorer.sort_rows
           db_oak_approved lead_oak_matched).
  - exact db_oak_approved_reachable.
  - left. reflexivity.
Defined.

(** C1, the claim as stated fails.  The matcher (cron mode) leaves two
    candidates for lead 1; candidate 100 is approved, which rejects candidate
    101; candidate 101 is approved all the same.  Lead 1 then has two active
    matches. *)
Lemma two_active_matches_after_second_approval :
  map (fun m => (lm_id m, lm_source_lead_id m, lm_status m))
    (active_matches (fst (approveCandidate db_oak_approved 101 9 3000)) 1)
  = [(102, 1, match_active); (103, 1, match_active)]
  /\ ~ length (active_matches
                 (fst (approveCandidate db_oak_approved 101 9 3000)) 1) <= 1.
Proof. split; [reflexivity|]. simpl. lia. Qed.

(** ** Tiering of the scorer's results *)

Lemma NoDup_distinct_ids l : NoDup l -> distinct_ids l = true.
Proof.
  induction 1 as [|x t Hx _ IH]; simpl; [reflexivity|].
  rewrite IH, andb_true_r. apply negb_true_iff.
  destruct (existsb (Nat.eqb x) t) eqn:E; [|reflexivity].
  apply existsb_exists in E. destruct E as (y & Hy & Exy).
  apply Nat.eqb_eq in Exy. subst y. contradiction.
Qed.

Section Tiering.

Variable similarity : string -> string -> Q.
Variable order_by : list MatchResult -> list MatchResult.
Hypothesis order_by_ok : Scorer.is_order_by order_by.

(** What the matcher can rely on in the scorer's answer. *)
Lemma findMatches_rows d id n :
  let ms := findMatches similarity order_by d id n in
  NoDup (map fub_lead_id ms)
  /\ (ms <> [] -> lead_exists d id = true)
  /\ (forall m, In m ms ->
        fub_exists d (fub_lead_id m) = true /\ (6 # 10 < confidence m)%Q).
Proof.
  intros ms.
  destruct (ScorerSpec.limit_distinct_sorted similarity order_by
              (source_leads d) (fub_leads d) id n order_by_ok)
    as (_ & Hnd & Hsig & _).
  fold (findMatches similarity order_by d id n) in Hnd, Hsig. fold ms in Hnd, Hsig.
  split; [exact Hnd|]. split.
  - intros Hne. unfold ms, findMatches, Scorer.find_fub_matches in Hne.
    destruct (find _ (source_leads d)) as [v|] eqn:Ef; [|congruence].
    apply find_some in Ef. unfold lead_exists. apply existsb_exists.
    now exists v.
  - intros m Hm. destruct (Hsig m Hm) as [Hin _].
    unfold Scorer.signals_of in Hin.
    destruct (find _ (source_leads d)) as [v|]; [|contradiction].
    apply ScorerSpec.matches_In in Hin. destruct Hin as [(f & Hf & Ef) Hq].
    split; [|exact Hq]. unfold fub_exists. apply existsb_exists.
    exists f. split; [exact Hf | now apply Nat.eqb_eq].
Qed.

Lemma above_review_is_candidate (m : MatchResult) :
  (6 # 10 < confidence m)%Q ->
  is_candidate m = negb (is_auto m) /\ in_review_band m = negb (is_auto m).
Proof.
  intros Hq. unfold is_candidate, in_review_band, is_auto.
  assert (H4 : Qle_bool REJECT_THRESHOLD (confidence m) = true).
  { apply Qle_bool_iff. apply Qlt_le_weak.
    eapply Qlt_trans; [|exact Hq]. reflexivity. }
  assert (H6 : Qle_bool REVIEW_THRESHOLD (confidence m) = true).
  { apply Qle_bool_iff. now apply Qlt_le_weak. }
  now rewrite H4, H6.
Qed.

End Tiering.

(** The filter of [processMatches] starts at [REJECT_THRESHOLD]: a result of
    confidence 0.5 handed to it by hand becomes a candidate.  The scorer never
    returns such a result ([matches_In]). *)
Remark processMatches_reject_band_run :
  map (fun c => (mc_source_lead_id c, mc_fub_lead_id c, mc_confidence_score c))
    (match_candidates
       (fst (processMatches db_oak 1
               [mk_MatchResult 10 address_fuzzy (5 # 10)
                  (address_similarity None None (5 # 10))] 7 1000)))
  = [(1, 10, (5 # 10)%Q)].
Proof. reflexivity. Qed.



Example review_band_candidates_run :
  map (fun c => (mc_id c, mc_fub_lead_id c, mc_confidence_score c, mc_status c))
    (match_candidates db_oak_review)
  = [(100, 10, (7 # 10)%Q, cand_pending); (101, 11, (7 # 10)%Q, cand_pending)]
  /\ map sl_match_status (source_leads db_oak_review) = [lead_multiple].
Proof. split; reflexivity. Qed.

End MatcherSpec.

Module StagerSpec.
Import ListFacts Schema Stager.

Section WithHash.

Variable computeHash : string -> string.

(** A file whose hash is on exactly one batch is skipped. *)
Lemma stage_attachment_known mail now st ingestions a existing :
  single (filter (fun r => String.eqb (ri_file_hash r)
                             (computeHash (content a))) (raw_ingestions st))
  = Some existing ->
  stage_attachment computeHash mail now (st, ingestions) a = (st, ingestions).
Proof. intros H. unfold stage_attachment. now rewrite H. Qed.

End WithHash.

(** C6, as amended.  Stage a file whose hash is on no batch yet, then stage
    the same bytes again (any file name, any mail, any time): the first call
    creates one batch and returns its id; the second call writes nothing (no
    batch, no object in storage, no raw row, no request to the parser, no log
    entry) and its [ingestion_ids] is empty. *)
Theorem second_staging_is_pure_read (computeHash : string -> string)
    (st : store) (mail mail' : Email) (a a' : Attachment) (now now' : nat) :
  content a' = content a ->
  (forall r, In r (raw_ingestions st) ->
             ri_file_hash r <> computeHash (content a)) ->
  let st1 := fst (stage computeHash st mail [a] now) in
  snd (stage computeHash st mail [a] now) = [next_uuid st]
  /\ (exists batch,
        raw_ingestions st1 = raw_ingestions st ++ [batch]
        /\ ri_id batch = next_uuid st
        /\ ri_file_hash batch = computeHash (content a)
        /\ ri_status batch = ing_pending)
  /\ fst (stage computeHash st1 mail' [a'] now') = st1
  /\ snd (stage computeHash st1 mail' [a'] now') = [].
Proof.
  intros Hsame Hnew.
  assert (Hnone : filter (fun r => String.eqb (ri_file_hash r)
                                     (computeHash (content a)))
                    (raw_ingestions st) = []).
  { apply filter_none. intros r Hr. apply String.eqb_neq. now apply Hnew. }
  intros st1.
  assert (E1 : stage computeHash st mail [a] now
               = (mk_store
                    (raw_ingestions st
                     ++ [mk_raw_ingestion (next_uuid st) (leadSource mail)
                           (organizationId mail) "email" (filename a)
                           (now, filename a) (computeHash (content a))
                           ing_pending None 0 0 0 0
                           [mk_log_entry now "email_received" None] [] None
                           None])
                    (upload (lead_files st) (now, filename a) (content a))
                    (raw_lead_rows st) (parser_calls st ++ [next_uuid st])
                    (S (next_uuid st)),
                  [next_uuid st])).
  { unfold stage. simpl fold_left. unfold stage_attachment.
    rewrite Hnone. reflexivity. }
  subst st1. rewrite E1. cbn [fst snd].
  split; [reflexivity|]. split.
  - eexists. split; [reflexivity|]. repeat split.
  - unfold stage. simpl fold_left. unfold stage_attachment.
    cbn [raw_ingestions]. rewrite Hsame, filter_app, Hnone. simpl.
    rewrite String.eqb_refl. simpl. split; reflexivity.
Qed.

Lemma second_staging_is_pure_read_witness :
  fst (stage hash_for_runs
         (fst (stage hash_for_runs store_empty mail_zillow [report_csv] 1000))
         mail_zillow [report_csv] 2000)
  = fst (stage hash_for_runs store_empty mail_zillow [report_csv] 1000).
Proof.
  refine (proj1 (proj2 (proj2 (second_staging_is_pure_read hash_for_runs
                                 store_empty mail_zillow mail_zillow
                                 report_csv report_csv 1000 2000 _ _)))).
  - reflexivity.
  - intros r [].
Defined.

(** C6, the claim as stated fails: the second call does not return the first
    batch's id; the duplicate is skipped and [ingestion_ids] is empty. *)
Lemma second_staging_returns_no_id :
  snd (stage hash_for_runs store_empty mail_zillow [report_csv] 1000) = [0]
  /\ snd (stage hash_for_runs
            (fst (stage hash_for_runs store_empty mail_zillow [report_csv] 1000))
            mail_zillow [report_csv] 2000) = []
  /\ snd (stage hash_for_runs
            (fst (stage hash_for_runs store_empty mail_zillow [report_csv] 1000))
            mail_zillow [report_csv] 2000)
     <> snd (stage hash_for_runs store_empty mail_zillow [report_csv] 1000).
Proof. repeat split. discriminate. Qed.

End StagerSpec.

Module EmbeddingQueueSpec.
Import ListFacts Schema EmbeddingQueue.

(** ** Updates by id *)

Lemma update_task_keeps st id f t :
  In t (embedding_queue st) -> eq_id t <> id ->
  In t (embedding_queue (update_task st id f)).
Proof.
  intros Hin Hne. simpl. apply in_map_iff. exists t.
  apply Nat.eqb_neq in Hne. now rewrite Hne.
Qed.

Lemma update_task_hits st id f t :
  In t (embedding_queue st) -> eq_id t = id ->
  In (f t) (embedding_queue (update_task st id f)).
Proof.
  intros Hin E. simpl. apply in_map_iff. exists t.
  apply Nat.eqb_eq in E. now rewrite E.
Qed.

Lemma update_task_rows st id f t' :
  In t' (embedding_queue (update_task st id f)) ->
  In t' (embedding_queue st) \/ exists t, t' = f t.
Proof.
  simpl. intros H. apply in_map_iff in H. destruct H as (t & E & Hin).
  destruct (eq_id t =? id); subst t'; [right; now exists t | now left].
Qed.

Lemma no_new_failed_update q0 st id f :
  (forall t, eq_status (f t) <> task_failed) ->
  no_new_failed q0 st -> no_new_failed q0 (update_task st id f).
Proof.
  intros Hf H t Hin Hst. apply update_task_rows in Hin.
  destruct Hin as [Hin | (t0 & ->)]; [now apply H|].
  now destruct (Hf t0).
Qed.

(** ** The two loops *)

Lemma reset_all_keeps items message : forall st t,
  In t (embedding_queue st) ->
  (forall i, In i items -> eq_id t <> eq_id i) ->
  In t (embedding_queue (reset_all st items message)).
Proof.
  induction items as [|x rest IH]; intros st t Hin Hne; [exact Hin|].
  simpl. apply IH.
  - apply update_task_keeps; [exact Hin | apply Hne; now left].
  - intros i Hi. apply Hne. now right.
Qed.

Lemma reset_all_hits items message : forall st,
  NoDup (map eq_id items) ->
  forall i t, In i items -> In t (embedding_queue st) -> eq_id t = eq_id i ->
  In (back_to_pending i message t)
    (embedding_queue (reset_all st items message)).
Proof.
  induction items as [|x rest IH]; intros st Hnd i t Hi Ht E; [contradiction|].
  simpl in Hnd. apply NoDup_cons_iff in Hnd. destruct Hnd as [Hx Hnd].
  simpl. destruct Hi as [-> | Hi].
  - apply reset_all_keeps.
    + now apply update_task_hits.
    + intros j Hj Ej. apply Hx. simpl in Ej. rewrite <- E, Ej.
      now apply in_map.
  - apply IH; [exact Hnd | exact Hi | | exact E].
    apply update_task_keeps; [exact Ht|].
    intros Ex. apply Hx. rewrite <- Ex, E. now apply in_map.
Qed.

Lemma reset_all_no_new_failed q0 items message : forall st,
  no_new_failed q0 st -> no_new_failed q0 (reset_all st items message).
Proof.
  induction items as [|x rest IH]; intros st H; [exact H|].
  simpl. apply IH. apply no_new_failed_update; [discriminate | exact H].
Qed.

Section WithProvider.

Variable generateEmbeddings : list string -> list vector + string.
Variable target_update_error : embedding_task -> option string.

Lemma store_embedding_keeps now zs : forall st acc t,
  In t (embedding_queue st) ->
  (forall z, In z zs -> eq_id t <> eq_id (fst z)) ->
  In t (embedding_queue
          (fst (fold_left (store_embedding target_update_error now) zs
                  (st, acc)))).
Proof.
  induction zs as [|[item e] rest IH]; intros st [p f] t Hin Hne; [exact Hin|].
  assert (Hne0 : eq_id t <> eq_id item) by (apply (Hne (item, e)); now left).
  assert (Hrest : forall z, In z rest -> eq_id t <> eq_id (fst z))
    by (intros z Hz; apply Hne; now right).
  simpl. destruct e as [v|]; [destruct (target_update_error item)|];
    apply IH; try exact Hrest; now apply update_task_keeps.
Qed.

Lemma store_embedding_no_new_failed q0 now zs : forall st acc,
  no_new_failed q0 st ->
  no_new_failed q0
    (fst (fold_left (store_embedding target_update_error now) zs (st, acc))).
Proof.
  induction zs as [|[item e] rest IH]; intros st [p f] H; [exact H|].
  simpl. destruct e as [v|]; [destruct (target_update_error item)|];
    apply IH; apply no_new_failed_update; try discriminate; exact H.
Qed.

Lemma zip_embeddings_items items : forall es z,
  In z (zip_embeddings items es) -> In (fst z) items.
Proof.
  induction items as [|x rest IH]; intros es z H; [contradiction|].
  destruct H as [<- | H]; [now left | right; now apply (IH (tl es))].
Qed.

Lemma fetch_items_In st batchSize maxAttempts t :
  In t (fetch_items st batchSize maxAttempts) ->
  In t (embedding_queue st)
  /\ eq_status t = task_pending /\ eq_attempts t < maxAttempts.
Proof.
  unfold fetch_items. intros H. apply In_firstn in H.
  apply filter_In in H. destruct H as [Hin Hc]. split; [exact Hin|].
  unfold claimable in Hc. apply andb_true_iff in Hc. destruct Hc as [H1 H2].
  split; [now destruct (eq_status t) | now apply Nat.ltb_lt].
Qed.

Lemma mark_processing_rows st items t :
  In t (embedding_queue st) ->
  (In t items -> In (set_status task_processing t)
                   (embedding_queue (mark_processing st items)))
  /\ ((forall i, In i items -> eq_id t <> eq_id i) ->
      In t (embedding_queue (mark_processing st items))).
Proof.
  intros Hin. split.
  - intros Hit. simpl. apply in_map_iff. exists t. split; [|exact Hin].
    replace (existsb _ items) with true; [reflexivity|].
    symmetry. apply existsb_exists. exists t. split; [exact Hit|].
    apply Nat.eqb_refl.
  - intros Hne. simpl. apply in_map_iff. exists t. split; [|exact Hin].
    replace (existsb _ items) with false; [reflexivity|].
    symmetry. destruct (existsb _ items) eqn:E; [|reflexivity].
    apply existsb_exists in E. destruct E as (i & Hi & Ei).
    apply Nat.eqb_eq in Ei. now destruct (Hne i Hi).
Qed.

Lemma mark_processing_no_new_failed st items :
  no_new_failed (embedding_queue st) (mark_processing st items).
Proof.
  intros t Hin Hst. simpl in Hin. apply in_map_iff in Hin.
  destruct Hin as (t0 & E & Hin).
  destruct (existsb _ items); subst t; [discriminate | exact Hin].
Qed.

End WithProvider.

Section Run.

Variable generateEmbeddings : list string -> list vector + string.
Variable target_update_error : embedding_task -> option string.

(** A row that is not among the fetched items is not touched by the run. *)
Lemma run_keeps_unclaimed st batchSize maxAttempts now t :
  In t (embedding_queue st) ->
  (forall i, In i (fetch_items st batchSize maxAttempts) ->
             eq_id t <> eq_id i) ->
  In t (embedding_queue
          (fst (processEmbeddingQueue generateEmbeddings target_update_error
                  st batchSize maxAttempts now))).
Proof.
  intros Hin Hne. unfold processEmbeddingQueue.
  destruct (fetch_items st batchSize maxAttempts) as [|first rest] eqn:Ei;
    [exact Hin|].
  pose proof (proj2 (mark_processing_rows st (first :: rest) t Hin) Hne) as H1.
  destruct (generateEmbeddings _) as [embeddings | message].
  - apply store_embedding_keeps; [exact H1|].
    intros z Hz. apply Hne. eapply zip_embeddings_items. exact Hz.
  - now apply reset_all_keeps.
Qed.

End Run.

(** C7, as amended.  With the ids of the queue distinct (primary key): when
    the provider call fails, every fetched task is back at ['pending'] with
    [attempts] one higher and the error stored, and the run reports all of
    them failed; a task with [attempts >= max_attempts] is not fetched by a
    run with that [max_attempts] and is left as it is, whatever its status;
    and no run sets a task to ['failed']: a task with that status after the
    run was in the queue, the same, before. *)
Theorem embedding_retry
    (generateEmbeddings : list string -> list vector + string)
    (target_update_error : embedding_task -> option string)
    (st : store) (batchSize maxAttempts now : nat) :
  NoDup (map eq_id (embedding_queue st)) ->
  let items := fetch_items st batchSize maxAttempts in
  let run := processEmbeddingQueue generateEmbeddings target_update_error st
               batchSize maxAttempts now in
  (forall message,
      generateEmbeddings (map eq_text_to_embed items) = inr message ->
      (forall t, In t items ->
         In (mk_embedding_task (eq_id t) (eq_table_name t) (eq_record_id t)
               (eq_text_to_embed t) task_pending (eq_attempts t + 1)
               (Some message) (eq_embedding t) (eq_processed_at t))
            (embedding_queue (fst run)))
      /\ snd run = (0, length items))
  /\ (forall t, In t (embedding_queue st) -> maxAttempts <= eq_attempts t ->
        ~ In t items /\ In t (embedding_queue (fst run)))
  /\ (forall t, In t (embedding_queue (fst run)) ->
        eq_status t = task_failed -> In t (embedding_queue st)).
Proof.
  intros Hpk items run.
  assert (Hsub : forall i, In i items ->
            In i (embedding_queue st) /\ eq_attempts i < maxAttempts).
  { intros i Hi. apply fetch_items_In in Hi. tauto. }
  split; [|split].
  - intros message Hfail. subst run. unfold processEmbeddingQueue.
    fold items. fold items in Hfail.
    destruct items as [|first rest] eqn:Ei; [split; [intros t []|reflexivity]|].
    rewrite Hfail. cbn [fst snd]. split; [|reflexivity].
    intros t Ht.
    assert (Hnd : NoDup (map eq_id (first :: rest))).
    { rewrite <- Ei. unfold items, fetch_items.
      now apply NoDup_map_firstn_filter. }
    apply (reset_all_hits (first :: rest) message
             (mark_processing st (first :: rest)) Hnd t
             (set_status task_processing t) Ht); [|reflexivity].
    exact (proj1 (mark_processing_rows st (first :: rest) t
                    (proj1 (Hsub t Ht))) Ht).
  - intros t Hin Hmax.
    assert (Hnot : ~ In t items).
    { intros Hi. apply Hsub in Hi. lia. }
    split; [exact Hnot|].
    apply run_keeps_unclaimed; [exact Hin|].
    intros i Hi E. apply Hnot.
    now rewrite <- (NoDup_key_eq eq_id _ t i Hpk Hin (proj1 (Hsub i Hi))
                      (eq_sym E)).
  - subst run. unfold processEmbeddingQueue. fold items.
    destruct items as [|first rest]; [auto|].
    pose proof (mark_processing_no_new_failed st (first :: rest)) as H1.
    destruct (generateEmbeddings _) as [embeddings | message].
    + now apply store_embedding_no_new_failed.
    + now apply reset_all_no_new_failed.
Qed.

Lemma embedding_retry_witness :
  In (mk_embedding_task 1 "source_leads" 200 "Lead from Zillow" task_pending 3
        (Some "OpenAI API error: overloaded"%string) None None)
     (embedding_queue
        (fst (processEmbeddingQueue provider_down target_updates_succeed
                store_twice_failed 50 3 1000))).
Proof.
  refine (proj1 (proj1 (embedding_retry provider_down target_updates_succeed
                          store_twice_failed 50 3 1000 _)
                   "OpenAI API error: overloaded"%string eq_refl)
            task_twice_failed _).
  - simpl. constructor; [intros [] | constructor].
  - left. reflexivity.
Defined.

(** C7, the claim as stated fails: the third failure brings [attempts] to
    [max_attempts = 3] and the task is left at ['pending'], not ['failed']. *)
Lemma exhausted_task_stays_pending :
  map (fun t => (eq_id t, eq_status t, eq_attempts t))
    (embedding_queue
       (fst (processEmbeddingQueue provider_down target_updates_succeed
               store_twice_failed 50 3 1000)))
  = [(1, task_pending, 3)]
  /\ ~ Forall (fun t => eq_attempts t = 3 -> eq_status t = task_failed)
         (embedding_queue
            (fst (processEmbeddingQueue provider_down target_updates_succeed
                    store_twice_failed 50 3 1000))).
Proof.
  split; [reflexivity|]. intros H. apply Forall_inv in H.
  specialize (H eq_refl). discriminate.
Qed.

(** The exhausted task is out of reach of a run with [max_attempts = 3], and
    within reach of a run called with a larger limit. *)
Example exhausted_task_later_runs :
  let st := fst (processEmbeddingQueue provider_down target_updates_succeed
                   store_twice_failed 50 3 1000) in
  fst (processEmbeddingQueue provider_up target_updates_succeed st 50 3 2000)
  = st
  /\ map (fun t => (eq_id t, eq_status t, eq_attempts t))
       (embedding_queue
          (fst (processEmbeddingQueue provider_up target_updates_succeed st
                  50 5 2000)))
     = [(1, task_completed, 3)].
Proof. split; reflexivity. Qed.

End EmbeddingQueueSpec.

Module ParserSpec.
Import ListFacts Schema Parser.

Lemma filter_update_by_id (id : uuid) (f : raw_ingestion -> raw_ingestion)
    (rows : list raw_ingestion) :
  (forall r, ri_id (f r) = ri_id r) ->
  filter (fun r => ri_id r =? id)
    (map (fun r => if ri_id r =? id then f r else r) rows)
  = map f (filter (fun r => ri_id r =? id) rows).
Proof.
  intros Hf. induction rows as [|r t IH]; simpl; [reflexivity|].
  destruct (ri_id r =? id) eqn:E; simpl.
  - now rewrite Hf, E, IH.
  - now rewrite E, IH.
Qed.

Lemma single_filter_singleton {A : Type} (P : A -> bool) (rows : list A) (a : A) :
  single (filter P rows) = Some a -> filter P rows = [a].
Proof.
  destruct (filter P rows) as [|x [|y t]]; try discriminate.
  now intros [= ->].
Qed.

Section WithParsers.

Variable parse : string -> bool -> string -> option (list csv_row).
Variable regex_test : option string -> string -> bool.

Lemma validate_step_spec ingestion_id skip_rows fieldMapping required
    email_regex s row :
  let s' := validate_step regex_test ingestion_id skip_rows fieldMapping
              required email_regex s row in
  exists r,
    rawRows s' = rawRows s ++ [r]
    /\ validCount s' = validCount s + (if rr_is_valid r then 1 else 0)
    /\ errorCount s' = errorCount s + (if rr_is_valid r then 0 else 1).
Proof.
  unfold validate_step.
  destruct (validateRow regex_test row fieldMapping required email_regex)
    as [isValid errors].
  eexists. cbn [rawRows validCount errorCount]. split; [reflexivity|].
  cbn [rr_is_valid]. destruct isValid; split; lia.
Qed.

(** The loop: one raw row per CSV row, and the two counters count the rows
    by their [is_valid]. *)
Lemma validate_loop ingestion_id skip_rows fieldMapping required email_regex
    rows : forall s,
  let final := fold_left (validate_step regex_test ingestion_id skip_rows
                            fieldMapping required email_regex) rows s in
  exists new,
    rawRows final = rawRows s ++ new
    /\ length new = length rows
    /\ validCount final = validCount s + length (filter rr_is_valid new)
    /\ errorCount final
       = errorCount s + length (filter (fun r => negb (rr_is_valid r)) new).
Proof.
  induction rows as [|row rest IH]; intros s; cbn [fold_left].
  - exists []. rewrite app_nil_r. simpl. repeat split; lia.
  - destruct (IH (validate_step regex_test ingestion_id skip_rows fieldMapping
                    required email_regex s row)) as (new & H1 & H2 & H3 & H4).
    destruct (validate_step_spec ingestion_id skip_rows fieldMapping required
                email_regex s row) as (r & G1 & G2 & G3).
    exists (r :: new). rewrite H1, G1, <- app_assoc, H3, H4, G2, G3.
    split; [reflexivity|]. split; [simpl; now rewrite H2|].
    simpl. destruct (rr_is_valid r); simpl; split; lia.
Qed.

End WithParsers.

(** C10, as amended.  When the parse step ends (the handler answers with the
    counts and the batch is ['parsed']), the stored counters satisfy
    [total_rows = parsed_rows] and [parsed_rows = valid_rows + error_rows];
    one raw row was written per parsed row, [valid_rows] of them valid and
    [error_rows] of them failing validation. *)
Theorem parse_counters
    (parse : string -> bool -> string -> option (list csv_row))
    (regex_test : option string -> string -> bool)
    (st : store) (ingestion_id now total valid errors : nat) :
  snd (csv_parser parse regex_test st ingestion_id now)
  = parsed_response total valid errors ->
  let st' := fst (csv_parser parse regex_test st ingestion_id now) in
  exists batch new,
    filter (fun r => ri_id r =? ingestion_id) (raw_ingestions st') = [batch]
    /\ ri_status batch = ing_parsed
    /\ ri_total_rows batch = Some (ri_parsed_rows batch)
    /\ ri_parsed_rows batch = ri_valid_rows batch + ri_error_rows batch
    /\ raw_lead_rows st' = raw_lead_rows st ++ new
    /\ length new = ri_parsed_rows batch
    /\ length (filter rr_is_valid new) = ri_valid_rows batch
    /\ length (filter (fun r => negb (rr_is_valid r)) new) = ri_error_rows batch
    /\ (total, valid, errors)
       = (ri_parsed_rows batch, ri_valid_rows batch, ri_error_rows batch).
Proof.
  unfold csv_parser.
  destruct (single _) as [ingestion|] eqn:Es; [|discriminate].
  apply single_filter_singleton in Es.
  match goal with
  | |- context [find ?f (lead_files st)] =>
      destruct (find f (lead_files st)) as [[path csvContent]|];
        [|discriminate]
  end.
  match goal with
  | |- context [parse ?x ?y ?z] =>
      destruct (parse x y z) as [rows|]; [|discriminate]
  end.
  match goal with
  | |- context [fold_left (validate_step regex_test ?a ?b ?c ?d ?e) rows ?s0] =>
      destruct (validate_loop regex_test a b c d e rows s0)
        as (new & H1 & H2 & H3 & H4);
      set (final := fold_left (validate_step regex_test a b c d e) rows s0) in *
  end.
  cbn [fst snd]. intros [= <- <- <-].
  cbn [raw_ingestions raw_lead_rows update_ingestion].
  rewrite !filter_update_by_id by reflexivity. rewrite Es. simpl map.
  eexists. exists new. split; [reflexivity|].
  cbn [ri_set ri_status ri_total_rows ri_parsed_rows ri_valid_rows
       ri_error_rows].
  simpl in H1, H3, H4.
  pose proof (filter_length rr_is_valid new) as Hsum.
  repeat split; try congruence; lia.
Qed.

Example csv_parser_run :
  snd (csv_parser parse_one_column has_at store_two_rows 100 5000)
  = parsed_response 2 1 1
  /\ map (fun r => (ri_status r, ri_total_rows r, ri_parsed_rows r,
                    ri_valid_rows r, ri_error_rows r))
       (raw_ingestions
          (fst (csv_parser parse_one_column has_at store_two_rows 100 5000)))
     = [(ing_parsed, Some 2, 2, 1, 1)]
  /\ map (fun r => (rr_id r, rr_row_number r, rr_is_valid r,
                    rr_validation_errors r))
       (raw_lead_rows
          (fst (csv_parser parse_one_column has_at store_two_rows 100 5000)))
     = [(200, 1, true, []);
        (201, 2, false, ["Missing required field: email"%string])].
Proof. repeat split. Qed.

Lemma parse_counters_witness :
  exists batch new,
    filter (fun r => ri_id r =? 100)
      (raw_ingestions
         (fst (csv_parser parse_one_column has_at store_two_rows 100 5000)))
    = [batch]
    /\ ri_status batch = ing_parsed
    /\ ri_total_rows batch = Some (ri_parsed_rows batch)
    /\ ri_parsed_rows batch = ri_valid_rows batch + ri_error_rows batch
    /\ raw_lead_rows
         (fst (csv_parser parse_one_column has_at store_two_rows 100 5000))
       = raw_lead_rows store_two_rows ++ new
    /\ length new = ri_parsed_rows batch
    /\ length (filter rr_is_valid new) = ri_valid_rows batch
    /\ length (filter (fun r => negb (rr_is_valid r)) new) = ri_error_rows batch
    /\ (2, 1, 1)
       = (ri_parsed_rows batch, ri_valid_rows batch, ri_error_rows batch).
Proof.
  apply (parse_counters parse_one_column has_at store_two_rows 100 5000 2 1 1).
  reflexivity.
Defined.

(** C10, the claim as stated fails: with one valid and one invalid row the
    batch ends with [total_rows = 2], [parsed_rows = 2], [error_rows = 1],
    and 2 is not 2 + 1. *)
Lemma total_rows_is_not_parsed_plus_errors :
  map (fun r => (ri_total_rows r, ri_parsed_rows r, ri_error_rows r))
    (raw_ingestions
       (fst (csv_parser parse_one_column has_at store_two_rows 100 5000)))
  = [(Some 2, 2, 1)]
  /\ ~ Forall (fun r => ri_total_rows r
                        = Some (ri_parsed_rows r + ri_error_rows r))
         (raw_ingestions
            (fst (csv_parser parse_one_column has_at store_two_rows 100 5000))).
Proof.
  split; [reflexivity|]. intros H. apply Forall_inv in H. discriminate.
Qed.

End ParserSpec.

Module TransformerSpec.
Import ListFacts Schema Transformer.

(** Whatever the store, a row the transformer marks as duplicate gets the id
    of the existing [source_leads] row in [duplicate_of]; and the mark is
    written only if that id happens to be the id of a raw row. *)
Lemma mark_duplicate_rows st rawRowId existing r' :
  In r' (raw_lead_rows (mark_duplicate st rawRowId existing)) ->
  In r' (raw_lead_rows st)
  \/ (rr_is_duplicate r' = true
      /\ rr_duplicate_of r' = Some (sl_id existing)
      /\ exists r, In r (raw_lead_rows st) /\ rr_id r = sl_id existing).
Proof.
  unfold mark_duplicate.
  destruct (existsb _ (raw_lead_rows st)) eqn:E; [|now left].
  apply existsb_exists in E. destruct E as (r & Hr & Er).
  apply Nat.eqb_eq in Er.
  simpl. intros H. apply in_map_iff in H. destruct H as (r0 & E0 & H0).
  destruct (rr_id r0 =? rawRowId); subst r'; [|now left].
  right. repeat split. now exists r.
Qed.

(** C9, the run of scenario 3.  Rows 1 and 2 of one batch carry the same
    e-mail.  The transformer makes the canonical lead 200 from row 1 and none
    from row 2, and counts one duplicate.  For row 2 it asks for
    [duplicate_of = 200], the id of the canonical lead, which is not the id
    of a raw row: the foreign key refuses the update and row 2 stays
    [is_duplicate = false], [duplicate_of = NULL]. *)
Theorem scenario_3_duplicate_not_marked :
  let st' := fst (lead_transformer store_same_email 100 5000) in
  snd (lead_transformer store_same_email 100 5000) = transformed 1 1
  /\ map (fun l => (sl_id l, sl_raw_row_id l, sl_email_normalized l))
       (source_leads st')
     = [(200, Some 1, Some "a@b.co"%string)]
  /\ map (fun r => (rr_id r, rr_is_duplicate r, rr_duplicate_of r,
                    rr_source_lead_id r)) (raw_lead_rows st')
     = [(1, false, None, Some 200); (2, false, None, None)]
  /\ map (fun r => (ri_valid_rows r, ri_duplicate_rows r)) (raw_ingestions st')
     = [(2, 1)]
  /\ (forall lead, In lead (source_leads st') ->
        rr_duplicate_of (duplicate_payload lead raw_row_2) = Some 200
        /\ rr_duplicate_of (duplicate_payload lead raw_row_2)
           <> Some (rr_id raw_row_1)).
Proof.
  repeat split; try reflexivity;
    destruct H as [<- | []]; simpl; congruence.
Qed.

End TransformerSpec.

(* ================================================================== *)
(** * Part III: further properties of the code *)

Module MoreListFacts.

Lemma list_of_append (a b : string) :
  list_ascii_of_string (a ++ b)
  = (list_ascii_of_string a ++ list_ascii_of_string b)%list.
Proof. induction a as [|c a IH]; simpl; [reflexivity|]. now rewrite IH. Qed.

Lemma NoDup_snoc {A : Type} (l : list A) (x : A) :
  NoDup l -> ~ In x l -> NoDup (l ++ [x]).
Proof.
  intros Hl Hx. apply (Permutation_NoDup (l := x :: l)).
  - apply Permutation_cons_append.
  - now constructor.
Qed.

(** Under a unique key, a filter that fixes the key finds one row. *)
Lemma filter_unique {A K : Type} (key : A -> K) (P : A -> bool)
    (rows : list A) (a : A) :
  NoDup (map key rows) ->
  (forall x, P x = true -> key x = key a) ->
  In a rows -> P a = true ->
  filter P rows = [a].
Proof.
  intros Hnd HP. induction rows as [|x t IH]; intros Hin Ha; [contradiction|].
  simpl in Hnd. apply NoDup_cons_iff in Hnd. destruct Hnd as [Hx Hnd].
  assert (Hnone : In a t -> P x = false).
  { intros Hat. destruct (P x) eqn:E; [|reflexivity].
    exfalso. apply Hx. rewrite (HP x E). now apply in_map. }
  simpl. destruct Hin as [-> | Hin].
  - rewrite Ha. f_equal. apply ListFacts.filter_none. intros b Hb.
    destruct (P b) eqn:E; [|reflexivity].
    exfalso. apply Hx. rewrite <- (HP b E). now apply in_map.
  - rewrite (Hnone Hin). now apply IH.
Qed.

End MoreListFacts.

Module IngestSpec.
Import Ingest MoreListFacts.

Lemma span_to_gt_run (run rest : list ascii) :
  ~ In gt_sign run ->
  span_to_gt (run ++ gt_sign :: rest) = (run, gt_sign :: rest).
Proof.
  induction run as [|c run IH]; simpl; intros H.
  - reflexivity.
  - destruct (Ascii.eqb_spec c gt_sign) as [E|E].
    + exfalso. apply H. now left.
    + rewrite IH; [reflexivity|]. intros Hin. apply H. now right.
Qed.

Lemma span_to_gt_all (s : list ascii) :
  ~ In gt_sign s -> span_to_gt s = (s, []).
Proof.
  induction s as [|c s IH]; simpl; intros H; [reflexivity|].
  destruct (Ascii.eqb_spec c gt_sign) as [E|E].
  - exfalso. apply H. now left.
  - rewrite IH; [reflexivity|]. intros Hin. apply H. now right.
Qed.

Lemma first_group_skip (name s : list ascii) :
  ~ In lt_sign name -> first_group (name ++ s) = first_group s.
Proof.
  induction name as [|c name IH]; simpl; intros H; [reflexivity|].
  destruct (Ascii.eqb_spec c lt_sign) as [E|E].
  - exfalso. apply H. now left.
  - apply IH. intros Hin. apply H. now right.
Qed.

Lemma first_group_none (s : list ascii) :
  ~ In lt_sign s -> first_group s = None.
Proof.
  intros H. rewrite <- (app_nil_r s). now rewrite first_group_skip.
Qed.

Lemma first_group_display (name addr rest : list ascii) :
  ~ In lt_sign name -> addr <> [] -> ~ In gt_sign addr ->
  first_group (name ++ lt_sign :: addr ++ gt_sign :: rest) = Some addr.
Proof.
  intros Hname Hne Haddr. rewrite first_group_skip by exact Hname.
  simpl. unfold group_after_lt. rewrite span_to_gt_run by exact Haddr.
  destruct addr; [contradiction|reflexivity].
Qed.

Lemma split_on_first (sep : ascii) (a b : list ascii) :
  ~ In sep a ->
  split_on sep (a ++ sep :: b) = a :: split_on sep b.
Proof.
  induction a as [|c a IH]; simpl; intros H.
  - now rewrite Ascii.eqb_refl.
  - destruct (Ascii.eqb_spec c sep) as [E|E].
    + exfalso. apply H. now left.
    + rewrite IH; [reflexivity|]. intros Hin. apply H. now right.
Qed.

Lemma split_on_none (sep : ascii) (a : list ascii) :
  ~ In sep a -> split_on sep a = [a].
Proof.
  induction a as [|c a IH]; simpl; intros H; [reflexivity|].
  destruct (Ascii.eqb_spec c sep) as [E|E].
  - exfalso. apply H. now left.
  - rewrite IH; [reflexivity|]. intros Hin. apply H. now right.
Qed.

Lemma split_on_head (sep : ascii) (s : list ascii) :
  exists part parts, split_on sep s = part :: parts /\ ~ In sep part.
Proof.
  induction s as [|c s (part & parts & E & H)]; simpl.
  - exists [], []. split; [reflexivity|]. intros [].
  - destruct (Ascii.eqb_spec c sep) as [Ec|Ec].
    + exists [], (split_on sep s). split; [reflexivity|]. intros [].
    + rewrite E. exists (c :: part), parts. split; [reflexivity|].
      intros [Hc | Hc]; [now apply Ec | now apply H].
Qed.

Lemma split_on_parts (sep : ascii) (s : list ascii) (part : list ascii) :
  In part (split_on sep s) -> ~ In sep part.
Proof.
  revert part. induction s as [|c s IH]; simpl; intros part H.
  - destruct H as [<- | []]. intros [].
  - destruct (Ascii.eqb_spec c sep) as [Ec|Ec].
    + destruct H as [<- | H]; [intros [] | now apply IH].
    + destruct (split_on sep s) as [|p ps] eqn:E.
      * destruct H as [<- | []]. intros [Hc | []]. now apply Ec.
      * destruct H as [<- | H].
        -- intros [Hc | Hc]; [now apply Ec|].
           revert Hc. apply IH. now left.
        -- apply IH. now right.
Qed.

(** X1.  [extractEmailAddress] takes the address out of the display form:
    for a name without [<] and an address that is not empty and holds no [>],
    the result on [name<address>rest] is the address; a string without [<] is
    returned as it is. *)
Theorem extractEmailAddress_display (name addr rest : string) :
  free_of lt_sign name -> addr <> EmptyString -> free_of gt_sign addr ->
  extractEmailAddress (name ++ String lt_sign (addr ++ String gt_sign rest))
  = addr
  /\ extractEmailAddress name = name.
Proof.
  unfold free_of, extractEmailAddress. intros Hname Hne Haddr. split.
  - rewrite list_of_append. simpl. rewrite list_of_append. simpl.
    rewrite first_group_display; try assumption.
    + apply string_of_list_ascii_of_string.
    + intros E. apply Hne. rewrite <- (string_of_list_ascii_of_string addr).
      now rewrite E.
  - now rewrite first_group_none.
Qed.

Lemma extractEmailAddress_display_witness :
  extractEmailAddress "John Doe <john@example.com>" = "john@example.com"%string
  /\ extractEmailAddress "John Doe " = "John Doe "%string.
Proof.
  apply (extractEmailAddress_display "John Doe " "john@example.com" "").
  - unfold free_of. simpl. intros H.
    repeat (destruct H as [H | H]; [discriminate|]). exact H.
  - discriminate.
  - unfold free_of. simpl. intros H.
    repeat (destruct H as [H | H]; [discriminate|]). exact H.
Defined.

(** X2.  [extractDomain] never returns a string with an [@]; on the display
    form [name<local@domain>rest] and on the bare form [local@domain] it
    returns the domain; on a string without [<] and [@] it returns the empty
    string. *)
Theorem extractDomain_spec (email name loc domain rest : string) :
  free_of at_sign (extractDomain email)
  /\ (free_of lt_sign name -> free_of gt_sign loc -> free_of at_sign loc ->
      free_of gt_sign domain -> free_of at_sign domain ->
      extractDomain
        (name ++ String lt_sign
                   (loc ++ String at_sign (domain ++ String gt_sign rest)))
      = domain)
  /\ (free_of lt_sign loc -> free_of at_sign loc ->
      free_of lt_sign domain -> free_of at_sign domain ->
      extractDomain (loc ++ String at_sign domain) = domain)
  /\ (free_of lt_sign name -> free_of at_sign name ->
      extractDomain name = EmptyString).
Proof.
  split; [|split; [|split]].
  - unfold free_of, extractDomain.
    destruct (split_on at_sign _) as [|p [|dom ps]] eqn:E; simpl; try tauto.
    rewrite list_ascii_of_string_of_list_ascii.
    apply (split_on_parts at_sign (list_ascii_of_string (extractEmailAddress email))).
    rewrite E. right. now left.
  - unfold free_of. intros Hname Hg1 Ha1 Hg2 Ha2.
    unfold extractDomain, extractEmailAddress.
    rewrite list_of_append. simpl. rewrite list_of_append. simpl.
    rewrite list_of_append. simpl.
    replace (list_ascii_of_string loc
             ++ at_sign :: list_ascii_of_string domain ++ gt_sign
                :: list_ascii_of_string rest)%list
      with ((list_ascii_of_string loc
             ++ at_sign :: list_ascii_of_string domain)
            ++ gt_sign :: list_ascii_of_string rest)%list
      by (rewrite <- app_assoc; reflexivity).
    rewrite first_group_display.
    + rewrite list_ascii_of_string_of_list_ascii.
      rewrite split_on_first by exact Ha1.
      rewrite split_on_none by exact Ha2.
      apply string_of_list_ascii_of_string.
    + exact Hname.
    + destruct (list_ascii_of_string loc); discriminate.
    + intros Hin. apply in_app_or in Hin. destruct Hin as [Hin | [Hin | Hin]].
      * now apply Hg1.
      * discriminate.
      * now apply Hg2.
  - unfold free_of. intros Hl1 Ha1 Hl2 Ha2.
    unfold extractDomain, extractEmailAddress.
    rewrite first_group_none.
    + rewrite list_of_append. simpl.
      rewrite split_on_first by exact Ha1.
      rewrite split_on_none by exact Ha2.
      apply string_of_list_ascii_of_string.
    + rewrite list_of_append. simpl. intros Hin.
      apply in_app_or in Hin. destruct Hin as [Hin | [Hin | Hin]].
      * now apply Hl1.
      * discriminate.
      * now apply Hl2.
  - unfold free_of. intros Hl Ha.
    unfold extractDomain, extractEmailAddress.
    rewrite first_group_none by exact Hl.
    now rewrite split_on_none by exact Ha.
Qed.

Lemma extractDomain_spec_witness :
  extractDomain "Ann <ann@tge.example>" = "tge.example"%string
  /\ extractDomain "ann@tge.example" = "tge.example"%string.
Proof.
  assert (F : forall (c : ascii) (s : string),
             forallb (fun x => negb (Ascii.eqb x c)) (list_ascii_of_string s) = true ->
             free_of c s).
  { intros c s H Hin. rewrite forallb_forall in H. specialize (H c Hin).
    now rewrite Ascii.eqb_refl in H. }
  pose proof (extractDomain_spec "" "Ann " "ann" "tge.example" "") as (_ & H1 & H2 & _).
  split.
  - apply H1; apply F; reflexivity.
  - apply H2; apply F; reflexivity.
Defined.

End IngestSpec.

Module StagerCoverage.
Import ListFacts Schema Stager StagerViews MoreListFacts.

Section WithHash.

Variable computeHash : string -> string.

Lemma filter_hash_none (h : string) (rows : list raw_ingestion) :
  ~ In h (map ri_file_hash rows) ->
  filter (fun r => String.eqb (ri_file_hash r) h) rows = [].
Proof.
  intros H. apply filter_none. intros r Hr.
  destruct (String.eqb_spec (ri_file_hash r) h) as [E|E]; [|reflexivity].
  exfalso. apply H. rewrite <- E. now apply in_map.
Qed.

Lemma filter_hash_NoDup (h : string) (rows : list raw_ingestion) :
  NoDup (map ri_file_hash rows) ->
  filter (fun r => String.eqb (ri_file_hash r) h) rows = []
  \/ exists r, filter (fun r => String.eqb (ri_file_hash r) h) rows = [r].
Proof.
  induction rows as [|x t IH]; simpl; intros Hnd; [now left|].
  apply NoDup_cons_iff in Hnd. destruct Hnd as [Hx Hnd].
  destruct (String.eqb_spec (ri_file_hash x) h) as [E|E].
  - right. exists x. f_equal. apply filter_hash_none. now rewrite <- E.
  - now apply IH.
Qed.

(** One turn of the loop, seen from the tables. *)
Lemma stage_attachment_step mail now st ingestions a :
  let '(st', ingestions') :=
    stage_attachment computeHash mail now (st, ingestions) a in
  (st' = st /\ ingestions' = ingestions
   /\ In (computeHash (content a)) (map ri_file_hash (raw_ingestions st)))
  \/ (exists batch,
        raw_ingestions st' = raw_ingestions st ++ [batch]
        /\ ingestions' = ingestions ++ [batch]
        /\ parser_calls st' = parser_calls st ++ [ri_id batch]
        /\ raw_lead_rows st' = raw_lead_rows st
        /\ next_uuid st' = S (next_uuid st)
        /\ ri_id batch = next_uuid st
        /\ ri_file_hash batch = computeHash (content a)
        /\ ri_file_name batch = filename a
        /\ ri_status batch = ing_pending
        /\ ri_ingest_type batch = "email"%string
        /\ ri_lead_source_id batch = leadSource mail
        /\ ri_organization_id batch = organizationId mail
        /\ ri_total_rows batch = None
        /\ (NoDup (map ri_file_hash (raw_ingestions st)) ->
            ~ In (computeHash (content a))
                (map ri_file_hash (raw_ingestions st)))).
Proof.
  unfold stage_attachment.
  destruct (single _) as [existing|] eqn:Es.
  - left. repeat split.
    destruct (filter _ (raw_ingestions st)) as [|x [|y t]] eqn:Ef;
      try discriminate.
    assert (Hin : In x (filter (fun r => String.eqb (ri_file_hash r)
                                  (computeHash (content a)))
                          (raw_ingestions st))) by (rewrite Ef; now left).
    apply filter_In in Hin. destruct Hin as [Hin E].
    apply String.eqb_eq in E. rewrite <- E. now apply in_map.
  - right. eexists. repeat split.
    intros Hnd Hin.
    destruct (filter_hash_NoDup (computeHash (content a)) _ Hnd) as [E | [r E]].
    + apply in_map_iff in Hin. destruct Hin as (r & Er & Hr).
      assert (Hf : In r (filter (fun r => String.eqb (ri_file_hash r)
                                   (computeHash (content a)))
                           (raw_ingestions st))).
      { apply filter_In. split; [exact Hr|]. now apply String.eqb_eq. }
      now rewrite E in Hf.
    + now rewrite E in Es.
Qed.

Lemma stage_loop mail now attachments : forall st ingestions,
  let '(st', ingestions') :=
    fold_left (stage_attachment computeHash mail now) attachments
      (st, ingestions) in
  exists new,
    raw_ingestions st' = raw_ingestions st ++ new
    /\ ingestions' = ingestions ++ new
    /\ parser_calls st' = parser_calls st ++ map ri_id new
    /\ raw_lead_rows st' = raw_lead_rows st
    /\ next_uuid st' = next_uuid st + length new
    /\ length new <= length attachments
    /\ Forall (staged_from computeHash mail attachments) new
    /\ (forall a, In a attachments ->
          In (computeHash (content a)) (map ri_file_hash (raw_ingestions st')))
    /\ (NoDup (map ri_file_hash (raw_ingestions st)) ->
        NoDup (map ri_file_hash (raw_ingestions st'))).
Proof.
  induction attachments as [|a rest IH]; intros st ingestions.
  - simpl. exists []. rewrite !app_nil_r. repeat split; auto.
    intros a [].
  - cbn [fold_left].
    pose proof (stage_attachment_step mail now st ingestions a) as Hstep.
    destruct (stage_attachment computeHash mail now (st, ingestions) a)
      as [st1 ing1].
    specialize (IH st1 ing1).
    destruct (fold_left _ rest (st1, ing1)) as [st' ingestions'].
    destruct IH as (new & H1 & H2 & H3 & H4 & H5 & H6 & H7 & H8 & H9).
    destruct Hstep as [(-> & -> & Hin) | (batch & B1 & B2 & B3 & B4 & B5 & B6
                                          & B7 & B8 & B9 & B10 & B11 & B12
                                          & B13 & B14)].
    + exists new. repeat split; try assumption.
      * simpl. lia.
      * eapply Forall_impl; [|exact H7].
        intros r (R1 & R2 & R3 & R4 & R5 & x & Hx & R6).
        repeat split; try assumption. exists x. split; [now right|exact R6].
      * intros x [<- | Hx]; [|now apply H8].
        rewrite H1, map_app. apply in_or_app. now left.
    + exists (batch :: new). repeat split.
      * rewrite H1, B1, <- app_assoc. reflexivity.
      * rewrite H2, B2, <- app_assoc. reflexivity.
      * rewrite H3, B3, <- app_assoc. reflexivity.
      * now rewrite H4.
      * rewrite H5, B5. simpl. lia.
      * simpl. lia.
      * constructor.
        -- repeat split; try assumption. exists a. repeat split; auto.
           now left.
        -- eapply Forall_impl; [|exact H7].
           intros r (R1 & R2 & R3 & R4 & R5 & x & Hx & R6).
           repeat split; try assumption. exists x. split; [now right|exact R6].
      * intros x [<- | Hx]; [|now apply H8].
        rewrite H1, B1, !map_app. apply in_or_app. left. apply in_or_app.
        right. simpl. left. exact B7.
      * intros Hnd. apply H9. rewrite B1, map_app. simpl.
        apply NoDup_snoc; [exact Hnd|].
        rewrite B7. now apply B14.
Qed.

End WithHash.

(** X3.  The attachment loop keeps [file_hash] unique: if no two batches
    share a hash before the call, none do afterwards, also when the mail
    carries the same bytes twice; and after the call every attachment's hash
    is on a batch. *)
Theorem stage_keeps_hashes_unique (computeHash : string -> string)
    (st : store) (mail : Email) (attachments : list Attachment) (now : nat) :
  NoDup (map ri_file_hash (raw_ingestions st)) ->
  let st' := fst (stage computeHash st mail attachments now) in
  NoDup (map ri_file_hash (raw_ingestions st'))
  /\ forall a, In a attachments ->
       In (computeHash (content a)) (map ri_file_hash (raw_ingestions st')).
Proof.
  intros Hnd. unfold stage.
  pose proof (stage_loop computeHash mail now attachments st []) as H.
  destruct (fold_left _ attachments (st, [])) as [st' ingestions'].
  destruct H as (new & _ & _ & _ & _ & _ & _ & _ & H8 & H9).
  simpl. split; [now apply H9 | exact H8].
Qed.

Lemma stage_keeps_hashes_unique_witness :
  NoDup (map ri_file_hash
           (raw_ingestions
              (fst (stage hash_for_runs store_empty mail_zillow
                      [report_csv; report_csv] 1000)))).
Proof.
  apply (stage_keeps_hashes_unique hash_for_runs store_empty mail_zillow
           [report_csv; report_csv] 1000).
  simpl. constructor.
Defined.

(** X4.  What a staging call writes: the batches it creates are appended to
    [raw_ingestions], at most one per attachment, each ['pending'], of type
    ['email'], with the mail's organization and source and the name and hash
    of one of the attachments; [ingestion_ids] lists their ids, and exactly
    these ids are sent to [csv-parser]; no raw row is written. *)
Theorem stage_creates_and_triggers (computeHash : string -> string)
    (st : store) (mail : Email) (attachments : list Attachment) (now : nat) :
  let st' := fst (stage computeHash st mail attachments now) in
  let ingestion_ids := snd (stage computeHash st mail attachments now) in
  exists new,
    raw_ingestions st' = raw_ingestions st ++ new
    /\ ingestion_ids = map ri_id new
    /\ parser_calls st' = parser_calls st ++ ingestion_ids
    /\ raw_lead_rows st' = raw_lead_rows st
    /\ length new <= length attachments
    /\ Forall (staged_from computeHash mail attachments) new.
Proof.
  unfold stage.
  pose proof (stage_loop computeHash mail now attachments st []) as H.
  destruct (fold_left _ attachments (st, [])) as [st' ingestions'].
  destruct H as (new & H1 & H2 & H3 & H4 & _ & H6 & H7 & _).
  simpl in H2. subst ingestions'. simpl. exists new. repeat split; assumption.
Qed.

End StagerCoverage.

Module ParserCoverage.
Import ListFacts Schema Parser ParserViews ParserSpec.

Section WithParsers.

Variable parse : string -> bool -> string -> option (list csv_row).
Variable regex_test : option string -> string -> bool.

Lemma validate_step_row ingestion_id skip_rows fieldMapping required
    email_regex s row :
  let s' := validate_step regex_test ingestion_id skip_rows fieldMapping
              required email_regex s row in
  exists r,
    rawRows s' = rawRows s ++ [r]
    /\ rr_row_number r = index s + 1 + skip_rows
    /\ rr_id r = fresh s
    /\ rr_raw_data r = row
    /\ fresh_row_of ingestion_id r
    /\ index s' = S (index s)
    /\ fresh s' = S (fresh s).
Proof.
  unfold validate_step.
  destruct (validateRow regex_test row fieldMapping required email_regex)
    as [isValid errors].
  cbn. eexists. repeat split.
Qed.

Lemma validate_loop_rows ingestion_id skip_rows fieldMapping required
    email_regex rows : forall s,
  let final := fold_left (validate_step regex_test ingestion_id skip_rows
                            fieldMapping required email_regex) rows s in
  exists new,
    rawRows final = rawRows s ++ new
    /\ map rr_row_number new = seq (index s + 1 + skip_rows) (length rows)
    /\ map rr_id new = seq (fresh s) (length rows)
    /\ map rr_raw_data new = rows
    /\ Forall (fresh_row_of ingestion_id) new
    /\ fresh final = fresh s + length rows.
Proof.
  induction rows as [|row rest IH]; intros s; cbn [fold_left].
  - exists []. simpl. rewrite app_nil_r. repeat split; auto.
  - destruct (validate_step_row ingestion_id skip_rows fieldMapping required
                email_regex s row) as (r & R1 & R2 & R3 & R4 & R5 & R6 & R7).
    set (s1 := validate_step regex_test ingestion_id skip_rows fieldMapping
                 required email_regex s row) in *.
    destruct (IH s1) as (new & H1 & H2 & H3 & H4 & H5 & H6).
    exists (r :: new). cbv zeta. rewrite H1, R1, <- app_assoc. simpl.
    repeat split.
    + f_equal; [exact R2|]. rewrite H2, R6. f_equal; lia.
    + f_equal; [exact R3|]. now rewrite H3, R7.
    + f_equal; [exact R4 | exact H4].
    + constructor; [exact R5 | exact H5].
    + rewrite H6, R7. lia.
Qed.

(** [validateRow], the required fields: no message exactly when every field
    has a value in one of its columns. *)
Lemma missing_nil (row : csv_row) (fieldMapping : list (string * list string))
    (required : list string) :
  flat_map (fun requiredField =>
              if existsb (fun col => has_value (row_get row col))
                   (columns_of fieldMapping requiredField)
              then []
              else [append "Missing required field: " requiredField])
    required = []
  <-> forall f, In f required ->
        exists col, In col (columns_of fieldMapping f)
                    /\ has_value (row_get row col) = true.
Proof.
  induction required as [|f rest IH]; simpl.
  - split; [intros _ x [] | reflexivity].
  - destruct (existsb _ (columns_of fieldMapping f)) eqn:E; simpl.
    + rewrite IH. split.
      * intros H x [<- | Hx]; [|now apply H].
        apply existsb_exists in E. exact E.
      * intros H x Hx. apply H. now right.
    + split; [discriminate|]. intros H. exfalso.
      destruct (H f (or_introl eq_refl)) as (col & Hc & Hv).
      assert (Ex : existsb (fun col => has_value (row_get row col))
                     (columns_of fieldMapping f) = true).
      { apply existsb_exists. now exists col. }
      congruence.
Qed.

End WithParsers.






(** X8.  After a successful parse the batch is ['parsed'] and its
    [processing_log] is the log as it was before the call followed by the one
    entry [parsing_completed]: the entry [parsing_started], written when the
    step began, is replaced, since the last update builds the log from the
    row read at the start.  [started_at] is the time of the call and
    [errors] is unchanged. *)
Theorem parse_log_after_success
    (parse : string -> bool -> string -> option (list csv_row))
    (regex_test : option string -> string -> bool)
    (st : store) (ingestion_id now total valid errors : nat)
    (ingestion : raw_ingestion) :
  snd (csv_parser parse regex_test st ingestion_id now)
  = parsed_response total valid errors ->
  single (filter (fun r => ri_id r =? ingestion_id) (raw_ingestions st))
  = Some ingestion ->
  let st' := fst (csv_parser parse regex_test st ingestion_id now) in
  exists batch,
    filter (fun r => ri_id r =? ingestion_id) (raw_ingestions st') = [batch]
    /\ ri_status batch = ing_parsed
    /\ ri_processing_log batch
       = ri_processing_log ingestion
         ++ [mk_log_entry now "parsing_completed" None]
    /\ ri_started_at batch = Some now
    /\ ri_completed_at batch = ri_completed_at ingestion
    /\ ri_errors batch = ri_errors ingestion.
Proof.
  unfold csv_parser. intros Hr Hs. rewrite Hs in *. revert Hr.
  apply single_filter_singleton in Hs.
  match goal with
  | |- context [find ?f (lead_files st)] =>
      destruct (find f (lead_files st)) as [[path csvContent]|];
        [|discriminate]
  end.
  match goal with
  | |- context [parse ?x ?y ?z] =>
      destruct (parse x y z) as [rows|]; [|discriminate]
  end.
  cbn [fst snd]. intros _.
  cbn [raw_ingestions update_ingestion].
  rewrite !filter_update_by_id by reflexivity. rewrite Hs. simpl map.
  eexists. split; [reflexivity|]. cbn. repeat split.
Qed.

Lemma parse_log_after_success_witness :
  exists batch,
    filter (fun r => ri_id r =? 100)
      (raw_ingestions
         (fst (csv_parser parse_one_column has_at store_two_rows 100 5000)))
    = [batch]
    /\ ri_status batch = ing_parsed
    /\ ri_processing_log batch
       = ri_processing_log batch_two_rows
         ++ [mk_log_entry 5000 "parsing_completed" None]
    /\ ri_started_at batch = Some 5000
    /\ ri_completed_at batch = ri_completed_at batch_two_rows
    /\ ri_errors batch = ri_errors batch_two_rows.
Proof.
  apply (parse_log_after_success parse_one_column has_at store_two_rows 100
           5000 2 1 1 batch_two_rows); reflexivity.
Defined.

End ParserCoverage.

Module ScorerCoverage.
Import ListFacts Schema Scorer Matcher MatcherViews ScorerSpec.

Lemma present_not_empty (s : string) : present (Some s) = true -> s <> EmptyString.
Proof. simpl. intros H ->. discriminate. Qed.

Lemma matches_justified (similarity : string -> string -> Q) (v : source_lead)
    (fubs : list fub_lead) (m : MatchResult) :
  In m (matches similarity v fubs) ->
  exists f, In f fubs /\ fl_id f = fub_lead_id m
            /\ fl_organization_id f = sl_organization_id v
            /\ justified similarity v f m.
Proof.
  unfold matches. intros H.
  apply in_app_or in H. destruct H as [H | H];
    [|apply in_app_or in H; destruct H as [H | H]];
    apply in_flat_map in H; destruct H as (f & Hf & H).
  - unfold email_branch in H. destruct (_ && _) eqn:E in H; [|contradiction].
    destruct H as [<- | []].
    apply andb_true_iff in E. destruct E as [E E3].
    apply andb_true_iff in E. destruct E as [E1 E2].
    exists f. repeat split; try assumption.
    + now apply Nat.eqb_eq in E1.
    + left. repeat split; assumption.
  - unfold phone_branch in H. destruct (_ && _) eqn:E in H; [|contradiction].
    destruct H as [<- | []].
    apply andb_true_iff in E. destruct E as [E E3].
    apply andb_true_iff in E. destruct E as [E1 E2].
    exists f. repeat split; try assumption.
    + now apply Nat.eqb_eq in E1.
    + right. left. repeat split; assumption.
  - unfold address_branch in H.
    destruct (fl_address_normalized f) as [fa|] eqn:Efa; [|contradiction].
    destruct (sl_property_address_normalized v) as [va|] eqn:Eva;
      [|contradiction].
    destruct (_ && _) eqn:E in H; [|contradiction].
    destruct H as [<- | []].
    apply andb_true_iff in E. destruct E as [E E4].
    apply andb_true_iff in E. destruct E as [E E3].
    apply andb_true_iff in E. destruct E as [E1 E2].
    exists f. repeat split; try assumption.
    + now apply Nat.eqb_eq in E1.
    + right. right. split; [reflexivity|]. exists fa, va.
      split; [exact Efa|]. split; [exact Eva|].
      split; [now apply present_not_empty|].
      split; [now apply present_not_empty|].
      split; [reflexivity|].
      apply negb_true_iff in E4. apply Qnot_le_lt. intros Hle.
      apply Qle_bool_iff in Hle. congruence.
Qed.

Lemma matches_no_contact (similarity : string -> string -> Q) (v : source_lead)
    (fubs : list fub_lead) :
  no_contact_data v -> matches similarity v fubs = [].
Proof.
  intros (H1 & H2 & H3). unfold matches.
  assert (E1 : flat_map (email_branch v) fubs = []).
  { induction fubs as [|f t IH]; simpl; [reflexivity|]. rewrite IH.
    unfold email_branch. rewrite H1, andb_false_r. reflexivity. }
  assert (E2 : flat_map (phone_branch v) fubs = []).
  { clear -H2. induction fubs as [|f t IH]; simpl; [reflexivity|]. rewrite IH.
    unfold phone_branch. rewrite H2, andb_false_r. reflexivity. }
  assert (E3 : flat_map (address_branch similarity v) fubs = []).
  { clear -H3. induction fubs as [|f t IH]; simpl; [reflexivity|]. rewrite IH.
    unfold address_branch.
    destruct (fl_address_normalized f) as [fa|]; [|reflexivity].
    destruct (sl_property_address_normalized v) as [va|]; [|reflexivity].
    rewrite H3, andb_false_r. reflexivity. }
  now rewrite E1, E2, E3.
Qed.

Lemma find_by_id_NoDup (rows : list source_lead) (l : source_lead) :
  NoDup (map sl_id rows) -> In l rows ->
  find (fun x => sl_id x =? sl_id l) rows = Some l.
Proof.
  induction rows as [|x t IH]; simpl; intros Hnd Hin; [contradiction|].
  apply NoDup_cons_iff in Hnd. destruct Hnd as [Hx Hnd].
  destruct Hin as [-> | Hin].
  - now rewrite Nat.eqb_refl.
  - destruct (Nat.eqb_spec (sl_id x) (sl_id l)) as [E|E].
    + exfalso. apply Hx. rewrite E. now apply in_map.
    + now apply IH.
Qed.



End ScorerCoverage.

Module MatcherCoverage.
Import ListFacts Schema Scorer Matcher MatcherViews ScorerSpec MatcherSpec
  ScorerCoverage.

(** ** [processMatches] by cases *)

Lemma processMatches_cases d id ms org now :
  (find is_auto ms = None /\ filter is_candidate ms = []
   /\ processMatches d id ms org now
      = (update_source_lead d id (mark_unmatched now),
         Returned (mk_ProcessResult false None 0)))
  \/ (exists a, find is_auto ms = Some a
        /\ insert_lead_match d id (fub_lead_id a)
             (fun mid =>
                mk_lead_match mid id (fub_lead_id a) (result_type a)
                  (confidence a) (scorer_details (result_details a)) by_system
                  None (fst (attribution d (fub_lead_id a)))
                  (snd (attribution d (fub_lead_id a))) match_active) = None
        /\ processMatches d id ms org now = (d, Threw "Failed to create match"))
  \/ (exists a, find is_auto ms = Some a
        /\ lead_exists d id = true /\ fub_exists d (fub_lead_id a) = true
        /\ pair_matched d id (fub_lead_id a) = false
        /\ processMatches d id ms org now
           = (insert_lineage
                (update_source_lead
                   (mk_db (source_leads d) (fub_leads d) (agents d)
                      (lead_matches d
                       ++ [mk_lead_match (next_uuid d) id (fub_lead_id a)
                             (result_type a) (confidence a)
                             (scorer_details (result_details a)) by_system
                             None (fst (attribution d (fub_lead_id a)))
                             (snd (attribution d (fub_lead_id a)))
                             match_active])
                      (match_candidates d) (data_lineage d) (S (next_uuid d)))
                   id (mark_matched (confidence a) now))
                (lineage_of_match id (next_uuid d)),
              Returned (mk_ProcessResult true (Some (next_uuid d)) 0)))
  \/ (exists first rest, find is_auto ms = None
        /\ filter is_candidate ms = first :: rest
        /\ processMatches d id ms org now
           = (update_source_lead
                (upsert_candidates d
                   (map (candidateInsert id) (first :: rest)))
                id
                (mark_review (if 1 <? length (first :: rest)
                              then lead_multiple else lead_review)
                   (max_confidence first rest)),
              Returned (mk_ProcessResult false None (length (first :: rest))))).
Proof.
  unfold processMatches.
  destruct ms as [|m0 ms0]; [left; repeat split|].
  destruct (find is_auto (m0 :: ms0)) as [a|] eqn:Ea.
  - right. destruct (attribution d (fub_lead_id a)) as [agentId teamId] eqn:Eat.
    destruct (insert_lead_match _ _ _ _) as [[mid d1]|] eqn:Eins.
    + right. left. exists a. rewrite Eat. apply insert_lead_match_inv in Eins.
      destruct Eins as (-> & H1 & H2 & H3 & ->). repeat split; assumption.
    + left. exists a. rewrite Eat. repeat split. exact Eins.
  - destruct (filter is_candidate (m0 :: ms0)) as [|first rest] eqn:Ec.
    + left. repeat split.
    + right. right. right. exists first, rest. repeat split.
Qed.

(** ** The summary of a matcher run *)

Section WithScorer.

Variable similarity : string -> string -> Q.
Variable order_by : list MatchResult -> list MatchResult.

Lemma count_result_sum s r :
  processed (count_result s r) + errors (count_result s r)
  = S (processed s + errors s)
  /\ (processed s = n_matched s + n_unmatched s + n_review s ->
      processed (count_result s r)
      = n_matched (count_result s r) + n_unmatched (count_result s r)
        + n_review (count_result s r)).
Proof.
  unfold count_result. destruct r as [[res|msg]|]; simpl.
  - destruct (matched res); simpl; [split; lia|].
    destruct (0 <? candidatesCreated res); simpl; split; lia.
  - split; lia.
  - split; lia.
Qed.

Lemma match_all_summary ids : forall d now s,
  let s' := snd (match_all similarity order_by d ids now s) in
  processed s' + errors s' = processed s + errors s + length ids
  /\ (processed s = n_matched s + n_unmatched s + n_review s ->
      processed s' = n_matched s' + n_unmatched s' + n_review s').
Proof.
  induction ids as [|id rest IH]; intros d now s; simpl.
  - split; [lia | auto].
  - destruct (match_lead similarity order_by d id now) as [d' r].
    destruct (IH d' now (count_result s r)) as [H1 H2].
    destruct (count_result_sum s r) as [G1 G2].
    split; [lia | auto].
Qed.

End WithScorer.

(** X10.  The summary of a matcher run adds up: every selected id is counted
    once, as processed or as an error, and every processed lead is counted in
    exactly one of matched, unmatched and review. *)
Theorem serve_summary_adds_up (similarity : string -> string -> Q)
    (order_by : list MatchResult -> list MatchResult)
    (d : db) (body : MatchRequest) (now : nat) :
  let s := snd (serve similarity order_by d body now) in
  processed s + errors s = length (selected_ids d body)
  /\ processed s = n_matched s + n_unmatched s + n_review s.
Proof.
  unfold serve.
  destruct (match_all_summary similarity order_by (selected_ids d body) d now
              (mk_MatchSummary 0 0 0 0 0)) as [H1 H2].
  simpl in H1. split; [exact H1 | now apply H2].
Qed.

(** ** A lead the scorer finds nothing for *)

Lemma order_by_nil (order_by : list MatchResult -> list MatchResult) :
  is_order_by order_by -> order_by [] = [].
Proof.
  intros H. destruct (H []) as [Hp _]. now apply Permutation_nil.
Qed.

Lemma update_source_lead_rows d id f l :
  NoDup (map sl_id (source_leads d)) -> In l (source_leads d) ->
  sl_id l = id -> (forall x, sl_id (f x) = sl_id x) ->
  rows_of_lead (update_source_lead d id f) id = [f l].
Proof.
  intros Hnd Hl Hid Hf. unfold rows_of_lead, update_source_lead. simpl.
  assert (E : forall rows,
             filter (fun x => sl_id x =? id)
               (map (fun x => if sl_id x =? id then f x else x) rows)
             = map f (filter (fun x => sl_id x =? id) rows)).
  { induction rows as [|x t IH]; simpl; [reflexivity|].
    destruct (sl_id x =? id) eqn:E; simpl.
    - now rewrite Hf, E, IH.
    - now rewrite E, IH. }
  rewrite E. subst id.
  now rewrite (filter_key_NoDup sl_id (source_leads d) l Hnd Hl).
Qed.

(** X11.  A lead with no e-mail, no phone of at least ten digits and no
    address matches nothing: the scorer returns no row, and the matcher marks
    the lead ['unmatched'] at the time of the run, keeps its confidence, and
    writes no match, no candidate and no lineage row. *)
Theorem lead_without_contact_data_is_unmatched
    (similarity : string -> string -> Q)
    (order_by : list MatchResult -> list MatchResult)
    (d : db) (l : source_lead) (now : nat) :
  is_order_by order_by ->
  NoDup (map sl_id (source_leads d)) ->
  In l (source_leads d) ->
  no_contact_data l ->
  let run := match_lead similarity order_by d (sl_id l) now in
  findMatches similarity order_by d (sl_id l) 5 = []
  /\ snd run = Some (Returned (mk_ProcessResult false None 0))
  /\ (exists l', rows_of_lead (fst run) (sl_id l) = [l']
                 /\ sl_match_status l' = lead_unmatched
                 /\ sl_matched_at l' = Some now
                 /\ sl_match_confidence l' = sl_match_confidence l)
  /\ lead_matches (fst run) = lead_matches d
  /\ match_candidates (fst run) = match_candidates d
  /\ data_lineage (fst run) = data_lineage d.
Proof.
  intros Hob Hnd Hl Hno.
  assert (Hfind : findMatches similarity order_by d (sl_id l) 5 = []).
  { unfold findMatches, find_fub_matches.
    rewrite (find_by_id_NoDup (source_leads d) l Hnd Hl).
    rewrite (matches_no_contact similarity l (fub_leads d) Hno).
    now rewrite (order_by_nil order_by Hob). }
  split; [exact Hfind|].
  unfold match_lead.
  rewrite (filter_key_NoDup sl_id (source_leads d) l Hnd Hl). cbn [single].
  rewrite Hfind. cbn [processMatches fst snd].
  split; [reflexivity|]. split.
  - exists (mark_unmatched now l). split.
    + now apply update_source_lead_rows.
    + repeat split.
  - repeat split.
Qed.

Lemma lead_without_contact_data_is_unmatched_witness :
  findMatches similarity_70 sort_rows
    (mk_db [mk_source_lead 1 None None 3 7 None (Some "555-1234"%string) None
              lead_pending None None]
       [crm_oak_a] [] [] [] [] 100) 1 5 = [].
Proof.
  apply (lead_without_contact_data_is_unmatched similarity_70 sort_rows
           (mk_db [mk_source_lead 1 None None 3 7 None
                     (Some "555-1234"%string) None lead_pending None None]
              [crm_oak_a] [] [] [] [] 100)
           (mk_source_lead 1 None None 3 7 None (Some "555-1234"%string) None
              lead_pending None None) 1000 sort_rows_is_order_by).
  - simpl. constructor; [intros []|constructor].
  - now left.
  - repeat split.
Defined.

(** ** The automatic match *)

Lemma find_first {A : Type} (P : A -> bool) (l : list A) (a : A) :
  find P l = Some a ->
  exists l1 l2, l = l1 ++ a :: l2 /\ P a = true
                /\ forall x, In x l1 -> P x = false.
Proof.
  induction l as [|x t IH]; simpl; [discriminate|].
  destruct (P x) eqn:E.
  - intros [= <-]. exists [], t. repeat split; [exact E|]. intros y [].
  - intros H. destruct (IH H) as (l1 & l2 & -> & Ha & Hl1).
    exists (x :: l1), l2. repeat split; [exact Ha|].
    intros y [<- | Hy]; [exact E | now apply Hl1].
Qed.

Lemma find_some_exists {A : Type} (P : A -> bool) (l : list A) (a : A) :
  In a l -> P a = true -> exists b, find P l = Some b.
Proof.
  intros Hin Ha. destruct (find P l) as [b|] eqn:E; [now exists b|].
  exfalso. pose proof (find_none P l E a Hin). congruence.
Qed.

(** X12.  When the scorer returns a row at or above 0.90, the matcher takes
    the first such row in the order returned, which is the one with the
    smallest CRM lead id (not the one of highest confidence).  If the pair
    has a match row already the insert is refused, [processMatches] throws
    and nothing is written.  Otherwise one active match of that pair is
    appended, made by ['system'] with the row's type and confidence and the
    CRM lead's attribution; the lead becomes ['matched'] with that
    confidence; one lineage row is written; no candidate is created. *)
Theorem auto_match_takes_lowest_id (similarity : string -> string -> Q)
    (order_by : list MatchResult -> list MatchResult)
    (d : db) (id org maxResults now : nat) (a : MatchResult) :
  is_order_by order_by ->
  let ms := findMatches similarity order_by d id maxResults in
  In a ms -> (AUTO_MATCH <= confidence a)%Q ->
  exists m,
    In m ms /\ (AUTO_MATCH <= confidence m)%Q
    /\ (forall a', In a' ms -> (AUTO_MATCH <= confidence a')%Q ->
                   fub_lead_id m <= fub_lead_id a')
    /\ let run := processMatches d id ms org now in
       (pair_matched d id (fub_lead_id m) = true ->
        run = (d, Threw "Failed to create match"))
       /\ (pair_matched d id (fub_lead_id m) = false ->
           snd run = Returned (mk_ProcessResult true (Some (next_uuid d)) 0)
           /\ lead_matches (fst run)
              = lead_matches d
                ++ [mk_lead_match (next_uuid d) id (fub_lead_id m)
                      (result_type m) (confidence m)
                      (scorer_details (result_details m)) by_system None
                      (fst (attribution d (fub_lead_id m)))
                      (snd (attribution d (fub_lead_id m))) match_active]
           /\ match_candidates (fst run) = match_candidates d
           /\ data_lineage (fst run)
              = data_lineage d
                ++ [lineage_of_match id (next_uuid d) (S (next_uuid d))]
           /\ forall l, In l (source_leads (fst run)) -> sl_id l = id ->
                sl_match_status l = lead_matched
                /\ sl_match_confidence l = Some (confidence m)
                /\ sl_matched_at l = Some now).
Proof.
  intros Hob ms Ha Hauto.
  assert (Hisauto : forall x, is_auto x = true <-> (AUTO_MATCH <= confidence x)%Q).
  { intros x. unfold is_auto. apply Qle_bool_iff. }
  destruct (find_some_exists is_auto ms a Ha (proj2 (Hisauto a) Hauto))
    as [m Hm].
  destruct (find_first is_auto ms m Hm) as (l1 & l2 & Hsplit & Hmauto & Hl1).
  destruct (limit_distinct_sorted similarity order_by (source_leads d)
              (fub_leads d) id maxResults Hob) as (_ & _ & _ & Hsorted & _).
  fold (findMatches similarity order_by d id maxResults) in Hsorted.
  fold ms in Hsorted.
  destruct (findMatches_rows similarity order_by Hob d id maxResults)
    as (_ & Hlead & Hrows).
  fold ms in Hlead, Hrows.
  assert (Hmin : In m ms) by (rewrite Hsplit; apply in_or_app; right; now left).
  exists m. split; [exact Hmin|]. split; [now apply Hisauto|]. split.
  { intros a' Ha' Hauto'. rewrite Hsplit in Ha'.
    apply in_app_or in Ha'. destruct Ha' as [Hin | [<- | Hin]].
    - apply Hl1 in Hin. apply Hisauto in Hauto'. congruence.
    - lia.
    - unfold sorted_by_id in Hsorted. rewrite Hsplit in Hsorted.
      apply StronglySorted_app_inv in Hsorted.
      destruct Hsorted as (_ & S2 & _).
      apply StronglySorted_inv in S2. destruct S2 as [_ S2].
      rewrite Forall_forall in S2. specialize (S2 a' Hin). lia. }
  assert (Hle : lead_exists d id = true).
  { apply Hlead. intros E. rewrite E in Hmin. contradiction. }
  destruct (Hrows m Hmin) as [Hfub _].
  cbv zeta.
  destruct (processMatches_cases d id ms org now)
    as [(E & _) | [(a0 & E & Hins & Hrun) | [(a0 & E & _ & _ & Hpm & Hrun)
                                            | (f & r & E & _)]]];
    try congruence.
  - assert (a0 = m) by congruence. subst a0. split.
    + intros _. exact Hrun.
    + intros Hpm. exfalso. unfold insert_lead_match in Hins.
      rewrite Hle, Hfub, Hpm in Hins. discriminate.
  - assert (a0 = m) by congruence. subst a0. split; [congruence|].
    intros _. rewrite Hrun. cbn [fst snd].
    split; [reflexivity|]. split; [reflexivity|]. split; [reflexivity|].
    split; [reflexivity|].
    intros l Hl Hid. cbn in Hl. apply in_map_iff in Hl.
    destruct Hl as (l0 & El & Hl0).
    destruct (Nat.eqb_spec (sl_id l0) id) as [E0|E0].
    + subst l. repeat split.
    + subst l. contradiction.
Qed.

Lemma auto_match_takes_lowest_id_witness :
  exists m,
    In m (findMatches similarity_70 sort_rows
            (mk_db [lead_john] [crm_by_address; crm_by_email] [] [] [] [] 100)
            1 5)
    /\ fub_lead_id m = 20.
Proof.
  destruct (auto_match_takes_lowest_id similarity_70 sort_rows
              (mk_db [lead_john] [crm_by_address; crm_by_email] [] [] [] [] 100)
              1 7 5 1000
              (mk_MatchResult 20 email_exact 1
                 (matched_email (Some "john.smith@example.com"%string)))
              sort_rows_is_order_by)
    as (m & Hm & Hauto & _).
  - vm_compute. right. now left.
  - vm_compute. discriminate.
  - exists m. split; [exact Hm|].
    vm_compute in Hm. destruct Hm as [<- | [<- | []]].
    + exfalso. vm_compute in Hauto. now apply Hauto.
    + reflexivity.
Defined.

(** ** Tenants *)

Lemma same_tenant_transfer d d' lead fub :
  map key_of (source_leads d') = map key_of (source_leads d) ->
  fub_leads d' = fub_leads d ->
  same_tenant d lead fub -> same_tenant d' lead fub.
Proof.
  intros Hk Hf (l & f & Hl & Hfin & Hid & Hfid & Horg).
  assert (Hin : In (key_of l) (map key_of (source_leads d')))
    by (rewrite Hk; now apply in_map).
  apply in_map_iff in Hin. destruct Hin as (l' & E & Hl').
  unfold key_of in E. injection E as E1 E2.
  exists l', f. rewrite Hf. repeat split; try assumption; congruence.
Qed.

Lemma update_source_lead_keys d id f :
  (forall l, key_of (f l) = key_of l) ->
  map key_of (source_leads (update_source_lead d id f))
  = map key_of (source_leads d).
Proof.
  intros Hf. unfold update_source_lead. simpl. rewrite map_map.
  apply map_ext. intros l. destruct (sl_id l =? id); [apply Hf | reflexivity].
Qed.

Lemma upsert_candidates_frame d payload :
  source_leads (upsert_candidates d payload) = source_leads d
  /\ fub_leads (upsert_candidates d payload) = fub_leads d
  /\ lead_matches (upsert_candidates d payload) = lead_matches d
  /\ data_lineage (upsert_candidates d payload) = data_lineage d.
Proof.
  unfold upsert_candidates. destruct (upsert_accepted d payload);
    [|repeat split].
  destruct (fold_upsert_frame payload d) as (H1 & H2 & _ & H4 & H5).
  repeat split; assumption.
Qed.

Lemma upsert_candidates_rows d payload c :
  In c (match_candidates (upsert_candidates d payload)) ->
  In c (match_candidates d) \/ exists p, In p payload /\ row_of_insert p c.
Proof.
  unfold upsert_candidates. destruct (upsert_accepted d payload);
    [apply fold_upsert_rows | now left].
Qed.

(** The tables after [processMatches]: the keys of the leads and the CRM
    leads are as before, and every new match or candidate joins the lead to a
    CRM lead of one of the results. *)
Lemma processMatches_tables d id ms org now :
  let d' := fst (processMatches d id ms org now) in
  map key_of (source_leads d') = map key_of (source_leads d)
  /\ fub_leads d' = fub_leads d
  /\ (forall m, In m (lead_matches d') ->
        In m (lead_matches d)
        \/ (lm_source_lead_id m = id
            /\ exists r, In r ms /\ lm_fub_lead_id m = fub_lead_id r))
  /\ (forall c, In c (match_candidates d') ->
        In c (match_candidates d)
        \/ (mc_source_lead_id c = id
            /\ exists r, In r ms /\ mc_fub_lead_id c = fub_lead_id r)).
Proof.
  cbv zeta.
  destruct (processMatches_cases d id ms org now)
    as [(_ & _ & ->) | [(a & _ & _ & ->) | [(a & Ea & _ & _ & _ & ->)
                                           | (first & rest & _ & Ec & ->)]]];
    cbn [fst].
  - split; [now apply update_source_lead_keys|]. repeat split; auto.
  - repeat split; auto.
  - split; [cbn; rewrite map_map; apply map_ext; intros l;
            destruct (sl_id l =? id); reflexivity|].
    split; [reflexivity|]. split.
    + cbn. intros m Hm. apply in_app_or in Hm. destruct Hm as [Hm | [<- | []]].
      * now left.
      * right. split; [reflexivity|]. exists a. split; [|reflexivity].
        apply find_some in Ea. tauto.
    + cbn. auto.
  - destruct (upsert_candidates_frame d
                (map (candidateInsert id) (first :: rest)))
      as (H1 & H2 & H3 & H4).
    split.
    { rewrite update_source_lead_keys by reflexivity. now rewrite H1. }
    split; [exact H2|]. split.
    + intros m Hm. left.
      cbn [lead_matches update_source_lead with_source_leads] in Hm.
      now rewrite H3 in Hm.
    + intros c Hc.
      cbn [match_candidates update_source_lead with_source_leads] in Hc.
      apply upsert_candidates_rows in Hc.
      destruct Hc as [Hc | (p & Hp & Hrow)]; [now left|].
      right. apply in_map_iff in Hp. destruct Hp as (r & <- & Hr).
      destruct Hrow as (R1 & R2 & _). split; [exact R1|].
      exists r. split; [|exact R2].
      rewrite <- Ec in Hr. apply filter_In in Hr. tauto.
Qed.

Lemma tenant_safe_processMatches d id ms org now :
  tenant_safe d ->
  (forall r, In r ms -> same_tenant d id (fub_lead_id r)) ->
  tenant_safe (fst (processMatches d id ms org now)).
Proof.
  intros [Hm Hc] Hms.
  destruct (processMatches_tables d id ms org now) as (K & F & M & C).
  split.
  - intros m Hin. apply (same_tenant_transfer d _ _ _ K F).
    destruct (M m Hin) as [Hold | (-> & r & Hr & ->)]; [now apply Hm|].
    now apply Hms.
  - intros c Hin. apply (same_tenant_transfer d _ _ _ K F).
    destruct (C c Hin) as [Hold | (-> & r & Hr & ->)]; [now apply Hc|].
    now apply Hms.
Qed.

Lemma tenant_safe_approveCandidate d candidateId reviewedBy now :
  tenant_safe d ->
  tenant_safe (fst (approveCandidate d candidateId reviewedBy now)).
Proof.
  intros [Hm Hc]. unfold approveCandidate.
  destruct (single _) as [c|] eqn:Es; [|now split].
  assert (Hcin : In c (match_candidates d)).
  { apply ParserSpec.single_filter_singleton in Es.
    assert (H : In c (filter (fun c => mc_id c =? candidateId)
                        (match_candidates d))) by (rewrite Es; now left).
    apply filter_In in H. tauto. }
  destruct (attribution d (mc_fub_lead_id c)) as [agentId teamId].
  destruct (insert_lead_match _ _ _ _) as [[matchId d1]|] eqn:Eins;
    [|now split].
  apply insert_lead_match_inv in Eins.
  destruct Eins as (_ & _ & _ & _ & ->).
  cbn [fst].
  match goal with
  | |- tenant_safe ?d' =>
      assert (K : map key_of (source_leads d') = map key_of (source_leads d))
        by (cbn; rewrite map_map; apply map_ext; intros l;
            destruct (sl_id l =? _); reflexivity);
      assert (F : fub_leads d' = fub_leads d) by reflexivity
  end.
  split.
  - intros m Hin. apply (same_tenant_transfer d _ _ _ K F).
    cbn in Hin. apply in_app_or in Hin. destruct Hin as [Hin | [<- | []]].
    + now apply Hm.
    + cbn. now apply Hc.
  - intros c' Hin. apply (same_tenant_transfer d _ _ _ K F).
    cbn in Hin.
    apply in_map_iff in Hin. destruct Hin as (c1 & E1 & Hin).
    apply in_map_iff in Hin. destruct Hin as (c2 & E2 & Hin).
    specialize (Hc c2 Hin).
    assert (E : mc_source_lead_id c' = mc_source_lead_id c2
                /\ mc_fub_lead_id c' = mc_fub_lead_id c2).
    { subst c'. subst c1.
      destruct (mc_id c2 =? candidateId); cbn;
        match goal with
        | |- context [if ?b then _ else _] => destruct b
        end; now split. }
    destruct E as [-> ->]. exact Hc.
Qed.

Section Tenants.

Variable similarity : string -> string -> Q.
Variable order_by : list MatchResult -> list MatchResult.
Hypothesis order_by_ok : is_order_by order_by.

Lemma findMatches_same_tenant d id n r :
  In r (findMatches similarity order_by d id n) ->
  same_tenant d id (fub_lead_id r).
Proof.
  intros Hr. unfold findMatches in Hr.
  destruct (limit_distinct_sorted similarity order_by (source_leads d)
              (fub_leads d) id n order_by_ok) as (_ & _ & H & _).
  destruct (H r Hr) as [Hsig _]. unfold signals_of in Hsig.
  destruct (find _ (source_leads d)) as [v|] eqn:Ev; [|contradiction].
  apply find_some in Ev. destruct Ev as [Hv Eid]. apply Nat.eqb_eq in Eid.
  destruct (matches_justified similarity v (fub_leads d) r Hsig)
    as (f & H1 & H2 & H3 & _).
  exists v, f. repeat split; assumption.
Qed.

Lemma tenant_safe_match_lead d id now :
  tenant_safe d ->
  tenant_safe (fst (match_lead similarity order_by d id now)).
Proof.
  intros Hs. unfold match_lead.
  destruct (single _) as [sourceLead|]; [|exact Hs].
  destruct (processMatches _ _ _ _ _) as [d' r] eqn:E. simpl.
  change d' with (fst (d', r)). rewrite <- E.
  apply tenant_safe_processMatches; [exact Hs|].
  intros x. apply findMatches_same_tenant.
Qed.

Lemma tenant_safe_match_all ids : forall d now s,
  tenant_safe d ->
  tenant_safe (fst (match_all similarity order_by d ids now s)).
Proof.
  induction ids as [|id rest IH]; intros d now s Hs; [exact Hs|].
  simpl. destruct (match_lead similarity order_by d id now) as [d' r] eqn:E.
  apply IH. change d' with (fst (d', r)). rewrite <- E.
  now apply tenant_safe_match_lead.
Qed.

End Tenants.

(** X13.  The pipeline never joins two organizations.  If every match row
    and every candidate row joins a source lead and a CRM lead of the same
    organization, this is still so after a matcher run (whatever the request:
    listed ids, one organization, or cron mode) and after the approval of any
    candidate. *)
Theorem matcher_keeps_tenants_apart (similarity : string -> string -> Q)
    (order_by : list MatchResult -> list MatchResult)
    (d : db) (body : MatchRequest) (candidateId reviewedBy now : nat) :
  is_order_by order_by ->
  tenant_safe d ->
  tenant_safe (fst (serve similarity order_by d body now))
  /\ tenant_safe (fst (approveCandidate d candidateId reviewedBy now)).
Proof.
  intros Hob Hs. split.
  - unfold serve. now apply tenant_safe_match_all.
  - now apply tenant_safe_approveCandidate.
Qed.

Lemma matcher_keeps_tenants_apart_witness :
  tenant_safe db_oak_review.
Proof.
  apply (matcher_keeps_tenants_apart similarity_70 sort_rows db_oak
           cron_request 0 0 1000 sort_rows_is_order_by).
  split; intros x [].
Defined.

(** ** The review path *)

Lemma Qmax_bool_cases (a b : Q) :
  (Qmax_bool a b = a \/ Qmax_bool a b = b)
  /\ (a <= Qmax_bool a b)%Q /\ (b <= Qmax_bool a b)%Q.
Proof.
  unfold Qmax_bool. destruct (Qle_bool a b) eqn:E.
  - apply Qle_bool_iff in E. repeat split; [now right | exact E | apply Qle_refl].
  - repeat split; [now left | apply Qle_refl |].
    apply Qlt_le_weak. apply Qnot_le_lt. intros H.
    apply Qle_bool_iff in H. congruence.
Qed.

Lemma max_confidence_is_max (first : MatchResult) (rest : list MatchResult) :
  (exists m, In m (first :: rest) /\ max_confidence first rest = confidence m)
  /\ forall m, In m (first :: rest) ->
       (confidence m <= max_confidence first rest)%Q.
Proof.
  unfold max_confidence.
  assert (G : forall l acc,
             (fold_left (fun acc c => Qmax_bool acc (confidence c)) l acc = acc
              \/ exists m, In m l
                   /\ fold_left (fun acc c => Qmax_bool acc (confidence c)) l acc
                      = confidence m)
             /\ (acc <= fold_left (fun acc c => Qmax_bool acc (confidence c))
                          l acc)%Q
             /\ forall m, In m l ->
                  (confidence m
                   <= fold_left (fun acc c => Qmax_bool acc (confidence c))
                        l acc)%Q).
  { induction l as [|x t IH]; intros acc; simpl.
    - split; [now left|]. split; [apply Qle_refl | intros m []].
    - destruct (IH (Qmax_bool acc (confidence x))) as (H1 & H2 & H3).
      destruct (Qmax_bool_cases acc (confidence x)) as (C1 & C2 & C3).
      split; [|split].
      + destruct H1 as [H1 | (m & Hm & H1)].
        * destruct C1 as [C1 | C1].
          -- left. now rewrite H1.
          -- right. exists x. split; [now left|]. now rewrite H1.
        * right. exists m. split; [now right | exact H1].
      + eapply Qle_trans; eassumption.
      + intros m [<- | Hm]; [eapply Qle_trans; eassumption | now apply H3]. }
  destruct (G rest (confidence first)) as (H1 & H2 & H3). split.
  - destruct H1 as [H1 | (m & Hm & H1)].
    + exists first. split; [now left | exact H1].
    + exists m. split; [now right | exact H1].
  - intros m [<- | Hm]; [exact H2 | now apply H3].
Qed.



End MatcherCoverage.

Module NormalizerCoverage.
Import Normalizer NormalizerViews NormalizerSpec MoreListFacts.

Lemma digits_only_digits (s : text) : forallb is_digit (digits_only s) = true.
Proof.
  unfold digits_only. apply forallb_forall. intros c Hc.
  apply filter_In in Hc. tauto.
Qed.

Lemma digits_only_fix (s : text) :
  forallb is_digit s = true -> digits_only s = s.
Proof.
  unfold digits_only. induction s as [|c s IH]; simpl; [reflexivity|].
  intros H. apply andb_true_iff in H. destruct H as [Hc Hs].
  rewrite Hc. f_equal. now apply IH.
Qed.

(** X15.  [normalize_phone] keeps the digits and nothing else: the result
    holds only digits, a string of digits is returned as it is, and a
    character that is not a digit, wherever it stands, does not change the
    result (so two spellings of a number that differ in punctuation and
    spacing are normalised to the same value). *)
Theorem normalize_phone_keeps_digits (a b : string) (c : ascii) :
  all_digits (on_text digits_only a) = true
  /\ (all_digits a = true -> normalize_phone (Some a) = Some a)
  /\ (is_digit c = false ->
      normalize_phone (Some (a ++ String c b)%string)
      = normalize_phone (Some (a ++ b)%string)).
Proof.
  unfold all_digits, normalize_phone, on_text. simpl. split; [|split].
  - rewrite list_ascii_of_string_of_list_ascii. apply digits_only_digits.
  - intros H. rewrite digits_only_fix by exact H.
    now rewrite string_of_list_ascii_of_string.
  - intros Hc. do 2 f_equal. rewrite !list_of_append. simpl.
    unfold digits_only. rewrite !filter_app. simpl. now rewrite Hc.
Qed.

Lemma normalize_phone_keeps_digits_witness :
  normalize_phone (Some "555-1234"%string) = normalize_phone (Some "5551234"%string).
Proof.
  exact (proj2 (proj2 (normalize_phone_keeps_digits "555" "1234" "-"%char))
           eq_refl).
Defined.

(** ** The rewriting rules *)

Lemma replace_all_no_backspace (pat rep s : text) :
  forallb (fun c => negb (Ascii.eqb c backspace)) s = true ->
  replace_all_aux (backspace :: pat) rep 0 s = s.
Proof.
  induction s as [|c s IH]; intros Hs; [reflexivity|].
  cbn [forallb] in Hs. apply andb_true_iff in Hs. destruct Hs as [Hc Hs].
  apply negb_true_iff in Hc. rewrite Ascii.eqb_sym in Hc.
  cbn [replace_all_aux starts_with]. rewrite Hc. simpl. now rewrite IH.
Qed.

Lemma apply_rules_no_backspace (s : text) :
  forallb (fun c => negb (Ascii.eqb c backspace)) s = true ->
  apply_rules s = s.
Proof.
  intros Hs. unfold apply_rules.
  induction abbreviations as [|r rs IH]; [reflexivity|].
  simpl. unfold apply_rule at 2, regexp_replace_all, rule_pattern.
  now rewrite replace_all_no_backspace.
Qed.

Lemma forallb_ltrim (P : ascii -> bool) (s : text) :
  forallb P s = true -> forallb P (ltrim s) = true.
Proof.
  induction s as [|c s IH]; simpl; intros Hs; [reflexivity|].
  apply andb_true_iff in Hs. destruct Hs as [Hc Hs].
  destruct (Ascii.eqb c space); [now apply IH|].
  simpl. now rewrite Hc, Hs.
Qed.

Lemma forallb_rtrim (P : ascii -> bool) (s : text) :
  forallb P s = true -> forallb P (rtrim s) = true.
Proof.
  induction s as [|c s IH]; intros Hs; [reflexivity|].
  simpl in Hs. apply andb_true_iff in Hs. destruct Hs as [Hc Hs].
  rewrite rtrim_cons. specialize (IH Hs).
  destruct (rtrim s) as [|d r]; [destruct (Ascii.eqb c space)|].
  - reflexivity.
  - simpl. now rewrite Hc.
  - change (forallb P (c :: d :: r)) with (P c && forallb P (d :: r)).
    now rewrite Hc, IH.
Qed.

Lemma lower_char_backspace (c : ascii) :
  Ascii.eqb (lower_char c) backspace = Ascii.eqb c backspace.
Proof. destruct c as [[] [] [] [] [] [] [] []]; reflexivity. Qed.

Lemma forallb_lower_no_backspace (s : text) :
  forallb (fun c => negb (Ascii.eqb c backspace)) s = true ->
  forallb (fun c => negb (Ascii.eqb c backspace)) (pg_lower s) = true.
Proof.
  unfold pg_lower. rewrite !forallb_forall. intros H c Hc.
  apply in_map_iff in Hc. destruct Hc as (d & <- & Hd).
  rewrite lower_char_backspace. now apply H.
Qed.

(** X16.  On a text without a backspace character none of the thirteen
    abbreviation rules of [normalize_address] applies: their patterns
    ['\bstreet\b'] and the like ask for a backspace on both sides of the
    token.  [normalize_address] then trims spaces, lower-cases and collapses
    white space, and [street], [avenue], ... stay as they are written. *)
Theorem normalize_address_without_backspace (s : string) :
  no_backspace s = true ->
  normalize_address (Some s) = Some (on_text trim_lower_collapse s).
Proof.
  unfold no_backspace, normalize_address, on_text, normalize_address_text,
    trim_lower_collapse.
  intros Hs. simpl. do 2 f_equal.
  rewrite apply_rules_no_backspace; [reflexivity|].
  apply forallb_lower_no_backspace. unfold pg_trim.
  now apply forallb_rtrim, forallb_ltrim.
Qed.

Lemma normalize_address_without_backspace_witness :
  normalize_address (Some "123 Main Street"%string)
  = Some "123 main street"%string.
Proof.
  exact (normalize_address_without_backspace "123 Main Street" eq_refl).
Defined.

(** ** The shape of a normalised address *)

Lemma single_spaced_collapse (s : text) (b : bool) :
  single_spaced_from b (collapse_aux b s) = true.
Proof.
  revert b. induction s as [|c s IH]; intros b; [reflexivity|].
  simpl. destruct (is_pg_space c) eqn:E.
  - destruct b; [apply IH|]. simpl. apply IH.
  - simpl. rewrite E. apply IH.
Qed.

Lemma is_upper_lower (c : ascii) : is_upper (lower_char c) = false.
Proof. destruct c as [[] [] [] [] [] [] [] []]; reflexivity. Qed.

Lemma no_upper_replace (pat rep : text) :
  forallb (fun c => negb (is_upper c)) rep = true ->
  forall s skip,
  forallb (fun c => negb (is_upper c)) s = true ->
  forallb (fun c => negb (is_upper c)) (replace_all_aux pat rep skip s) = true.
Proof.
  intros Hrep. induction s as [|c s IH]; intros skip Hs; [reflexivity|].
  simpl in Hs. apply andb_true_iff in Hs. destruct Hs as [Hc Hs].
  cbn [replace_all_aux]. destruct skip as [|k]; [|now apply IH].
  destruct (starts_with pat (c :: s)).
  - rewrite forallb_app, Hrep. simpl. now apply IH.
  - cbn [forallb]. rewrite Hc. simpl. now apply IH.
Qed.

Lemma no_upper_rules (s : text) :
  forallb (fun c => negb (is_upper c)) s = true ->
  forallb (fun c => negb (is_upper c)) (apply_rules s) = true.
Proof.
  unfold apply_rules.
  assert (Hreps : Forall (fun r => forallb (fun c => negb (is_upper c))
                                     (list_ascii_of_string (snd r)) = true)
                    abbreviations) by (repeat constructor).
  revert s. induction Hreps as [|r rs Hr _ IH]; intros s Hs; [exact Hs|].
  simpl. apply IH. unfold apply_rule, regexp_replace_all.
  now apply no_upper_replace.
Qed.

Lemma no_upper_collapse (s : text) (b : bool) :
  forallb (fun c => negb (is_upper c)) s = true ->
  forallb (fun c => negb (is_upper c)) (collapse_aux b s) = true.
Proof.
  revert b. induction s as [|c s IH]; intros b Hs; [reflexivity|].
  simpl in Hs. apply andb_true_iff in Hs. destruct Hs as [Hc Hs].
  simpl. destruct (is_pg_space c), b; simpl; try rewrite Hc; simpl;
    now apply IH.
Qed.

(** X17.  Whatever the input, a normalised address holds no upper-case ASCII
    letter, and its white space is single space characters only: no tab or
    line break, and no two spaces in a row. *)
Theorem normalize_address_shape (addr out : string) :
  normalize_address (Some addr) = Some out ->
  no_upper out = true /\ single_spaced out = true.
Proof.
  unfold normalize_address, on_text, no_upper, single_spaced. simpl.
  intros [= <-]. rewrite list_ascii_of_string_of_list_ascii.
  unfold normalize_address_text, collapse_spaces. split.
  - apply no_upper_collapse, no_upper_rules.
    unfold pg_lower. apply forallb_forall. intros c Hc.
    apply in_map_iff in Hc. destruct Hc as (d & <- & _).
    now rewrite is_upper_lower.
  - apply single_spaced_collapse.
Qed.

Lemma normalize_address_shape_witness :
  no_upper "456 oak avenue" = true /\ single_spaced "456 oak avenue" = true.
Proof.
  exact (normalize_address_shape "  456   Oak Avenue " "456 oak avenue" eq_refl).
Defined.

End NormalizerCoverage.

Module EmbeddingCoverage.
Import ListFacts Schema EmbeddingQueue EmbeddingViews EmbeddingQueueSpec.

(** ** [queueForEmbedding] *)

Lemma same_record_key tableName recordId t :
  same_record tableName recordId t = true
  <-> record_of t = (tableName, recordId).
Proof.
  unfold same_record, record_of. rewrite andb_true_iff, String.eqb_eq, Nat.eqb_eq.
  split; [intros [-> ->]; reflexivity | intros [= -> ->]; now split].
Qed.

Lemma existsb_same_record tableName recordId q :
  existsb (same_record tableName recordId) q = false ->
  ~ In (tableName, recordId) (map record_of q).
Proof.
  intros E Hin. apply in_map_iff in Hin. destruct Hin as (t & Ht & Hin).
  assert (H : existsb (same_record tableName recordId) q = true).
  { apply existsb_exists. exists t. split; [exact Hin|].
    now apply same_record_key. }
  congruence.
Qed.

(** X18.  [queueForEmbedding] is an upsert on [(table_name, record_id)]:
    afterwards the record has a task, every task of the record is
    ['pending'] with [attempts = 0] and the given text, hence within reach of
    the worker again whatever its state was; the tasks of other records and
    the target tables are untouched; the pair stays unique if it was; and
    queueing the same text a second time changes nothing. *)
Theorem queueForEmbedding_upserts (st : store) (tableName : string)
    (recordId : uuid) (textToEmbed : string) (maxAttempts : nat) :
  let st' := queueForEmbedding st tableName recordId textToEmbed in
  tasks_of st' tableName recordId <> []
  /\ (forall t, In t (tasks_of st' tableName recordId) ->
        eq_status t = task_pending /\ eq_attempts t = 0
        /\ eq_text_to_embed t = textToEmbed
        /\ (0 < maxAttempts -> claimable maxAttempts t = true))
  /\ other_tasks st' tableName recordId = other_tasks st tableName recordId
  /\ embedded st' = embedded st
  /\ (NoDup (map record_of (embedding_queue st)) ->
      NoDup (map record_of (embedding_queue st')))
  /\ queueForEmbedding st' tableName recordId textToEmbed = st'.
Proof.
  cbv zeta. unfold queueForEmbedding, tasks_of, other_tasks.
  destruct (existsb (same_record tableName recordId) (embedding_queue st))
    eqn:Ex.
  - set (upd := fun t : embedding_task =>
                  if same_record tableName recordId t
                  then mk_embedding_task (eq_id t) tableName recordId
                         textToEmbed task_pending 0 (eq_last_error t)
                         (eq_embedding t) (eq_processed_at t)
                  else t).
    assert (Hsame : forall t, same_record tableName recordId (upd t)
                              = same_record tableName recordId t).
    { intros t. unfold upd.
      destruct (same_record tableName recordId t) eqn:E; [|exact E].
      unfold same_record. cbn. now rewrite String.eqb_refl, Nat.eqb_refl. }
    assert (Hkey : forall t, record_of (upd t) = record_of t).
    { intros t. unfold upd.
      destruct (same_record tableName recordId t) eqn:E; [|reflexivity].
      apply same_record_key in E. now rewrite E. }
    assert (Hidem : forall t, upd (upd t) = upd t).
    { intros t. unfold upd at 1. rewrite Hsame. unfold upd.
      destruct (same_record tableName recordId t); reflexivity. }
    cbn [embedding_queue embedded with_queue].
    split; [|split; [|split; [|split; [|split]]]].
    + apply existsb_exists in Ex. destruct Ex as (t & Hin & Ht).
      intros E.
      assert (H : In (upd t) (filter (same_record tableName recordId)
                                (map upd (embedding_queue st)))).
      { apply filter_In. split; [now apply in_map | now rewrite Hsame]. }
      now rewrite E in H.
    + intros t Ht. apply filter_In in Ht. destruct Ht as [Hin Hrec].
      apply in_map_iff in Hin. destruct Hin as (t0 & <- & _).
      rewrite Hsame in Hrec. unfold upd. rewrite Hrec. cbn.
      repeat split. intros Hpos. unfold claimable. cbn.
      destruct maxAttempts; [lia | reflexivity].
    + clear Ex. induction (embedding_queue st) as [|t q IH]; simpl;
        [reflexivity|].
      rewrite Hsame. destruct (same_record tableName recordId t) eqn:E; simpl.
      * exact IH.
      * unfold upd at 1. rewrite E. now rewrite IH.
    + reflexivity.
    + intros Hnd. rewrite map_map.
      now rewrite (map_ext _ record_of Hkey).
    + assert (Ex' : existsb (same_record tableName recordId)
                      (map upd (embedding_queue st)) = true).
      { apply existsb_exists in Ex. destruct Ex as (t & Hin & Ht).
        apply existsb_exists. exists (upd t).
        split; [now apply in_map | now rewrite Hsame]. }
      rewrite Ex'. unfold with_queue. cbn. f_equal.
      rewrite map_map. apply map_ext. exact Hidem.
  - cbn [embedding_queue embedded].
    assert (Hnone : filter (same_record tableName recordId)
                      (embedding_queue st) = []).
    { apply filter_none. intros t Ht.
      destruct (same_record tableName recordId t) eqn:E; [|reflexivity].
      assert (H : existsb (same_record tableName recordId)
                    (embedding_queue st) = true)
        by (apply existsb_exists; now exists t).
      congruence. }
    assert (Hnew : same_record tableName recordId
                     (mk_embedding_task (next_uuid st) tableName recordId
                        textToEmbed task_pending 0 None None None) = true).
    { unfold same_record. cbn. now rewrite String.eqb_refl, Nat.eqb_refl. }
    split; [|split; [|split; [|split; [|split]]]].
    + rewrite filter_app, Hnone. simpl. rewrite Hnew. discriminate.
    + intros t Ht. rewrite filter_app, Hnone in Ht. simpl in Ht.
      rewrite Hnew in Ht. destruct Ht as [<- | []]. cbn. repeat split.
      intros Hpos. unfold claimable. cbn.
      destruct maxAttempts; [lia | reflexivity].
    + rewrite filter_app. simpl. rewrite Hnew. simpl. apply app_nil_r.
    + reflexivity.
    + intros Hnd. rewrite map_app. simpl.
      apply (Permutation_NoDup (l := (tableName, recordId)
                                       :: map record_of (embedding_queue st))).
      * apply Permutation_cons_append.
      * constructor; [now apply existsb_same_record | exact Hnd].
    + rewrite existsb_app. simpl. rewrite Hnew, orb_true_r.
      unfold with_queue. cbn. f_equal. rewrite map_app. simpl.
      rewrite Hnew. f_equal.
      rewrite <- (map_id (embedding_queue st)) at 2. apply map_ext_in.
      intros t Ht.
      destruct (same_record tableName recordId t) eqn:E; [|reflexivity].
      assert (H : existsb (same_record tableName recordId)
                    (embedding_queue st) = true)
        by (apply existsb_exists; now exists t).
      congruence.
Qed.

(** ** The counters of a worker run *)

Section WithProvider.

Variable generateEmbeddings : list string -> list vector + string.
Variable target_update_error : embedding_task -> option string.

Lemma store_embedding_counts now zs : forall st p f,
  let r := fold_left (store_embedding target_update_error now) zs
             (st, (p, f)) in
  fst (snd r) + snd (snd r) = p + f + length zs.
Proof.
  induction zs as [|[item e] rest IH]; intros st p f; [simpl; lia|].
  cbn [fold_left store_embedding length].
  destruct e as [v|]; [destruct (target_update_error item)|];
    cbv zeta in IH |- *; rewrite IH; lia.
Qed.

Lemma zip_embeddings_length items : forall es,
  length (zip_embeddings items es) = length items.
Proof.
  induction items as [|x rest IH]; intros es; simpl; [reflexivity|].
  now rewrite IH.
Qed.

(** A row after an update by id: an old row of another id, or an image. *)
Lemma update_task_rows_id st id f t' :
  In t' (embedding_queue (update_task st id f)) ->
  (In t' (embedding_queue st) /\ eq_id t' <> id)
  \/ exists t, In t (embedding_queue st) /\ eq_id t = id /\ t' = f t.
Proof.
  simpl. intros H. apply in_map_iff in H. destruct H as (t & E & Hin).
  destruct (Nat.eqb_spec (eq_id t) id) as [Ei|Ei]; subst t'.
  - right. now exists t.
  - left. now split.
Qed.

Lemma processing_left_update q0 id rest st f :
  (forall t, eq_status (f t) <> task_processing) ->
  processing_left q0 (id :: rest) st ->
  processing_left q0 rest (update_task st id f).
Proof.
  intros Hf H t Hin Hst. apply update_task_rows_id in Hin.
  destruct Hin as [[Hin Hne] | (t0 & _ & _ & ->)].
  - destruct (H t Hin Hst) as [Hq | [E | Hr]]; [now left | | now right].
    now destruct Hne.
  - now destruct (Hf t0).
Qed.

Lemma processing_left_store now zs : forall st acc q0,
  processing_left q0 (map (fun z => eq_id (fst z)) zs) st ->
  processing_left q0 []
    (fst (fold_left (store_embedding target_update_error now) zs (st, acc))).
Proof.
  induction zs as [|[item e] rest IH]; intros st [p f] q0 H; [exact H|].
  cbn [fold_left store_embedding]. cbn [map fst] in H.
  destruct e as [v|]; [destruct (target_update_error item)|]; apply IH.
  - apply processing_left_update with (id := eq_id item);
      [discriminate | exact H].
  - apply processing_left_update with (id := eq_id item);
      [discriminate|].
    intros t Hin. apply H. exact Hin.
  - apply processing_left_update with (id := eq_id item);
      [discriminate | exact H].
Qed.

Lemma processing_left_reset message items : forall st q0,
  processing_left q0 (map eq_id items) st ->
  processing_left q0 [] (reset_all st items message).
Proof.
  induction items as [|item rest IH]; intros st q0 H; [exact H|].
  simpl. apply IH.
  apply processing_left_update with (id := eq_id item);
    [discriminate | exact H].
Qed.

Lemma processing_left_mark st items :
  processing_left (embedding_queue st) (map eq_id items)
    (mark_processing st items).
Proof.
  intros t Hin Hst. simpl in Hin. apply in_map_iff in Hin.
  destruct Hin as (t0 & E & Hin).
  destruct (existsb _ items) eqn:Ex; subst t; [|now left].
  right. apply existsb_exists in Ex. destruct Ex as (i & Hi & Ei).
  apply Nat.eqb_eq in Ei. simpl. rewrite <- Ei. now apply in_map.
Qed.

Lemma zip_embeddings_ids items : forall es,
  map (fun z => eq_id (fst z)) (zip_embeddings items es) = map eq_id items.
Proof.
  induction items as [|x rest IH]; intros es; simpl; [reflexivity|].
  now rewrite IH.
Qed.

End WithProvider.

(** X19.  The two counters a worker run returns add up to the number of
    tasks it fetched, which is at most [batchSize]: every fetched task is
    counted once, as processed or as failed; a run that fetches nothing
    returns (0, 0) and leaves the store as it is. *)
Theorem worker_counts_every_item
    (generateEmbeddings : list string -> list vector + string)
    (target_update_error : embedding_task -> option string)
    (st : store) (batchSize maxAttempts now : nat) :
  let items := fetch_items st batchSize maxAttempts in
  let run := processEmbeddingQueue generateEmbeddings target_update_error st
               batchSize maxAttempts now in
  fst (snd run) + snd (snd run) = length items
  /\ length items <= batchSize
  /\ (items = [] -> run = (st, (0, 0))).
Proof.
  cbv zeta. unfold processEmbeddingQueue.
  split; [|split].
  - destruct (fetch_items st batchSize maxAttempts) as [|first rest];
      [reflexivity|].
    destruct (generateEmbeddings _) as [embeddings | message].
    + pose proof (store_embedding_counts target_update_error now
                    (zip_embeddings (first :: rest) embeddings)
                    (mark_processing st (first :: rest)) 0 0) as H.
      cbv zeta in H. rewrite H, zip_embeddings_length. reflexivity.
    + reflexivity.
  - unfold fetch_items. apply firstn_le_length.
  - intros ->. reflexivity.
Qed.

(** X20.  A worker run leaves no task of its own at ['processing']: every
    task it fetched ends at ['completed'] or back at ['pending'].  A task
    that has the status ['processing'] after the run had it before the run
    and was not touched; the worker fetches ['pending'] tasks only, so no
    later run picks such a task up. *)
Theorem worker_leaves_nothing_processing
    (generateEmbeddings : list string -> list vector + string)
    (target_update_error : embedding_task -> option string)
    (st : store) (batchSize maxAttempts now : nat) (t : embedding_task) :
  let run := processEmbeddingQueue generateEmbeddings target_update_error st
               batchSize maxAttempts now in
  (In t (embedding_queue (fst run)) -> eq_status t = task_processing ->
   In t (embedding_queue st))
  /\ (In t (embedding_queue st) -> eq_status t = task_processing ->
      ~ In t (fetch_items st batchSize maxAttempts)).
Proof.
  cbv zeta. split.
  - unfold processEmbeddingQueue.
    destruct (fetch_items st batchSize maxAttempts) as [|first rest];
      [auto|].
    pose proof (processing_left_mark st (first :: rest)) as H0.
    destruct (generateEmbeddings _) as [embeddings | message]; intros Hin Hst.
    + rewrite <- (zip_embeddings_ids (first :: rest) embeddings) in H0.
      destruct (processing_left_store target_update_error now _ _ (0, 0) _ H0
                  t Hin Hst) as [H | []].
      exact H.
    + destruct (processing_left_reset message _ _ _ H0 t Hin Hst) as [H | []].
      exact H.
  - intros _ Hst Hin. apply fetch_items_In in Hin.
    destruct Hin as (_ & Hp & _). congruence.
Qed.

(** ** A run whose embeddings all arrive *)

Section Success.

Variable target_update_error : embedding_task -> option string.

Lemma zip_embeddings_combine items : forall vs,
  length items <= length vs ->
  zip_embeddings items vs
  = map (fun iv => (fst iv, Some (snd iv))) (combine items vs)
  /\ map fst (combine items vs) = items.
Proof.
  induction items as [|x rest IH]; intros vs Hlen; [now split|].
  destruct vs as [|v vs]; [simpl in Hlen; lia|].
  simpl in Hlen. destruct (IH vs ltac:(lia)) as [H1 H2].
  simpl. now rewrite H1, H2.
Qed.

Lemma store_embedding_success now ivs : forall st p f,
  (forall iv, In iv ivs -> target_update_error (fst iv) = None) ->
  NoDup (map (fun iv => eq_id (fst iv)) ivs) ->
  let r := fold_left (store_embedding target_update_error now)
             (map (fun iv => (fst iv, Some (snd iv))) ivs) (st, (p, f)) in
  snd r = (p + length ivs, f)
  /\ embedded (fst r) = embedded st ++ map (target_write now) ivs
  /\ forall iv t, In iv ivs -> In t (embedding_queue st) ->
       eq_id t = eq_id (fst iv) ->
       In (complete (snd iv) now t) (embedding_queue (fst r)).
Proof.
  induction ivs as [|[item v] rest IH]; intros st p f Hok Hnd.
  - simpl. rewrite app_nil_r. repeat split; [f_equal; lia | intros iv t []].
  - cbn [map fst snd] in Hnd. apply NoDup_cons_iff in Hnd.
    destruct Hnd as [Hx Hnd].
    cbn [map fold_left store_embedding fst snd].
    pose proof (Hok (item, v) (or_introl eq_refl)) as Hitem.
    cbn [fst] in Hitem. rewrite Hitem.
    match goal with
    | |- context [fold_left _ _ (?s1, _)] => set (st1 := s1)
    end.
    destruct (IH st1 (S p) f) as (H1 & H2 & H3);
      [intros iv Hiv; apply Hok; now right | exact Hnd |].
    cbv zeta in H1, H2, H3 |- *. rewrite H1, H2. split; [|split].
    + f_equal. simpl. lia.
    + subst st1. cbn [embedded update_task with_queue].
      rewrite <- app_assoc. reflexivity.
    + intros iv t [<- | Hiv] Ht Eid.
      * cbn [fst snd] in *.
        apply store_embedding_keeps.
        -- subst st1. apply update_task_hits; assumption.
        -- intros z Hz Ez. apply Hx. apply in_map_iff in Hz.
           destruct Hz as (iv' & <- & Hiv'). cbn [fst] in Ez.
           apply in_map_iff. exists iv'. split; [|exact Hiv'].
           now rewrite <- Ez.
      * apply H3; [exact Hiv | | exact Eid].
        subst st1. apply update_task_keeps; [exact Ht|].
        intros E. apply Hx. rewrite <- E, Eid.
        apply in_map_iff. now exists iv.
Qed.

End Success.

(** X21.  When the provider answers with one vector per text and the target
    rows accept their updates, a worker run counts every fetched task as
    processed and none as failed; it writes each task's vector and text, with
    the time, to the row [record_id] of the table [table_name], in fetch
    order; and each fetched task ends ['completed'] with its vector and
    [processed_at] set, its [attempts] and [last_error] as they were. *)
Theorem worker_stores_every_embedding
    (generateEmbeddings : list string -> list vector + string)
    (target_update_error : embedding_task -> option string)
    (st : store) (batchSize maxAttempts now : nat) (vs : list vector) :
  NoDup (map eq_id (embedding_queue st)) ->
  let items := fetch_items st batchSize maxAttempts in
  generateEmbeddings (map eq_text_to_embed items) = inl vs ->
  length vs = length items ->
  (forall i, In i items -> target_update_error i = None) ->
  let run := processEmbeddingQueue generateEmbeddings target_update_error st
               batchSize maxAttempts now in
  snd run = (length items, 0)
  /\ embedded (fst run)
     = embedded st ++ map (target_write now) (combine items vs)
  /\ forall i v, In (i, v) (combine items vs) ->
       In (completed_row i v now) (embedding_queue (fst run)).
Proof.
  intros Hpk items Hgen Hlen Hok run. subst run.
  unfold processEmbeddingQueue. fold items. fold items in Hgen.
  assert (Hnd : NoDup (map eq_id items)).
  { unfold items, fetch_items. now apply NoDup_map_firstn_filter. }
  assert (Hsub : forall i, In i items -> In i (embedding_queue st)).
  { intros i Hi. apply fetch_items_In in Hi. tauto. }
  destruct items as [|first rest] eqn:Ei.
  { destruct vs; [|discriminate]. simpl. rewrite app_nil_r.
    repeat split. intros i v []. }
  rewrite Hgen.
  destruct (zip_embeddings_combine (first :: rest) vs ltac:(lia)) as [Hz Hfst].
  rewrite Hz.
  assert (Hids : map (fun iv : embedding_task * vector => eq_id (fst iv))
                   (combine (first :: rest) vs) = map eq_id (first :: rest)).
  { rewrite <- Hfst at 2. now rewrite map_map. }
  destruct (store_embedding_success target_update_error now
              (combine (first :: rest) vs)
              (mark_processing st (first :: rest)) 0 0) as (H1 & H2 & H3).
  { intros iv Hiv. apply Hok. rewrite <- Hfst. now apply in_map. }
  { now rewrite Hids. }
  cbv zeta in H1, H2, H3. rewrite H1, H2. split; [|split].
  - assert (Hl : length (combine (first :: rest) vs) = length (first :: rest)).
    { rewrite <- Hfst at 2. now rewrite length_map. }
    now rewrite Hl.
  - reflexivity.
  - intros i v Hiv.
    assert (Hi : In i (first :: rest)).
    { rewrite <- Hfst. apply in_map_iff. now exists (i, v). }
    specialize (H3 (i, v) (set_status task_processing i) Hiv).
    cbn [fst snd] in H3. apply H3; [|reflexivity].
    exact (proj1 (mark_processing_rows st (first :: rest) i (Hsub i Hi)) Hi).
Qed.

Lemma worker_stores_every_embedding_witness :
  snd (processEmbeddingQueue provider_up target_updates_succeed
         (mk_store [mk_embedding_task 1 "source_leads" 200 "Lead from Zillow"
                      task_pending 0 None None None] [] 2) 50 3 1000)
  = (1, 0).
Proof.
  apply (worker_stores_every_embedding provider_up target_updates_succeed
           (mk_store [mk_embedding_task 1 "source_leads" 200 "Lead from Zillow"
                        task_pending 0 None None None] [] 2) 50 3 1000
           [[1%Q]]).
  - simpl. constructor; [intros []|constructor].
  - reflexivity.
  - reflexivity.
  - reflexivity.
Defined.

End EmbeddingCoverage.

Module TransformerCoverage.
Import ListFacts Schema Normalizer Transformer TransformerViews NormalizerSpec.

(** ** [String.prototype.trim] *)

Lemma js_ltrim_no_lead (s : list ascii) : no_lead_ws (js_ltrim s).
Proof.
  induction s as [|c s IH]; simpl; [exact I|].
  destruct (is_pg_space c) eqn:E; [exact IH | exact E].
Qed.

Lemma js_ltrim_fix (s : list ascii) : no_lead_ws s -> js_ltrim s = s.
Proof. destruct s as [|c s]; simpl; [reflexivity|]. now intros ->. Qed.

Lemma js_rtrim_cons (c : ascii) (t : list ascii) :
  js_rtrim (c :: t) =
  match js_rtrim t with
  | [] => if is_pg_space c then [] else [c]
  | t' => c :: t'
  end.
Proof. reflexivity. Qed.

Lemma js_rtrim_idem (s : list ascii) : js_rtrim (js_rtrim s) = js_rtrim s.
Proof.
  induction s as [|c s IH]; [reflexivity|].
  rewrite js_rtrim_cons. destruct (js_rtrim s) as [|d r] eqn:E.
  - destruct (is_pg_space c) eqn:Ec; [reflexivity|].
    simpl. now rewrite Ec.
  - rewrite js_rtrim_cons, IH. reflexivity.
Qed.

Lemma js_rtrim_no_lead (s : list ascii) :
  no_lead_ws s -> no_lead_ws (js_rtrim s).
Proof.
  destruct s as [|c s]; [trivial|]. intros H. rewrite js_rtrim_cons.
  simpl in H. destruct (js_rtrim s); [rewrite H|]; exact H.
Qed.

Lemma js_rtrim_nonempty (c : ascii) (s : list ascii) :
  is_pg_space c = false -> exists t, js_rtrim (c :: s) = c :: t.
Proof.
  intros H. rewrite js_rtrim_cons. destruct (js_rtrim s) as [|d r].
  - rewrite H. now exists [].
  - now exists (d :: r).
Qed.

Lemma js_ltrim_blank (s : list ascii) :
  forallb is_pg_space s = false ->
  exists c t, js_ltrim s = c :: t /\ is_pg_space c = false.
Proof.
  induction s as [|c s IH]; simpl; [discriminate|].
  destruct (is_pg_space c) eqn:E; simpl.
  - exact IH.
  - intros _. now exists c, s.
Qed.

Lemma js_trim_text_idem (t : list ascii) :
  js_rtrim (js_ltrim (js_rtrim (js_ltrim t))) = js_rtrim (js_ltrim t).
Proof.
  rewrite (js_ltrim_fix (js_rtrim (js_ltrim t)))
    by apply js_rtrim_no_lead, js_ltrim_no_lead.
  apply js_rtrim_idem.
Qed.

Lemma js_trim_idem (s : string) : js_trim (js_trim s) = js_trim s.
Proof.
  unfold js_trim. rewrite on_text_on_text. unfold on_text.
  now rewrite js_trim_text_idem.
Qed.

Lemma js_trim_not_blank (s : string) :
  is_blank s = false -> is_blank (js_trim s) = false /\ js_trim s <> EmptyString.
Proof.
  unfold is_blank, js_trim, on_text. intros H.
  destruct (js_ltrim_blank _ H) as (c & t & E & Hc). rewrite E.
  destruct (js_rtrim_nonempty c t Hc) as (t' & ->).
  rewrite list_ascii_of_string_of_list_ascii. simpl. rewrite Hc.
  split; [reflexivity | discriminate].
Qed.

(** ** [mapFields] *)

Lemma mapFields_keys (rawData : csv_row)
    (fieldMapping : list (string * list string)) :
  map fst (mapFields rawData fieldMapping) = map fst fieldMapping.
Proof.
  unfold mapFields. rewrite map_map. apply map_ext. now intros [name cols].
Qed.

Lemma mapFields_some (rawData : csv_row)
    (fieldMapping : list (string * list string)) (name v : string) :
  In (name, Some v) (mapFields rawData fieldMapping) ->
  v <> EmptyString /\ is_blank v = false /\ trimmed v
  /\ exists cols col raw,
       In (name, cols) fieldMapping /\ In col cols
       /\ row_get rawData col = Some raw /\ v = js_trim raw
       /\ find (fun col => has_value (row_get rawData col)) cols = Some col.
Proof.
  unfold mapFields. intros H. apply in_map_iff in H.
  destruct H as ([n cols] & E & Hin). injection E as -> E.
  destruct (find _ cols) as [col|] eqn:Ef; [|discriminate].
  pose proof (find_some _ _ Ef) as [Hcol Hv].
  destruct (row_get rawData col) as [raw|] eqn:Er; [|discriminate].
  simpl in Hv, E. injection E as <-. apply negb_true_iff in Hv.
  destruct (js_trim_not_blank raw Hv) as [H1 H2].
  split; [exact H2|]. split; [exact H1|]. split; [apply js_trim_idem|].
  exists cols, col, raw. repeat split; assumption.
Qed.

Lemma mapFields_none (rawData : csv_row)
    (fieldMapping : list (string * list string)) (name : string) :
  In (name, None) (mapFields rawData fieldMapping) ->
  exists cols, In (name, cols) fieldMapping
               /\ forall col, In col cols ->
                    has_value (row_get rawData col) = false.
Proof.
  unfold mapFields. intros H. apply in_map_iff in H.
  destruct H as ([n cols] & E & Hin). injection E as -> E.
  destruct (find _ cols) as [col|] eqn:Ef.
  - pose proof (find_some _ _ Ef) as [Hcol Hv].
    destruct (row_get rawData col); [discriminate|]. discriminate.
  - exists cols. split; [exact Hin|]. intros col Hcol.
    exact (find_none _ _ Ef col Hcol).
Qed.

Lemma field_In (normalized : list (string * option string))
    (name : string) (v : string) :
  field normalized name = Some v -> In (name, Some v) normalized.
Proof.
  unfold field. destruct (find _ normalized) as [[n w]|] eqn:Ef;
    [|discriminate].
  intros ->. apply find_some in Ef. destruct Ef as [Hin E].
  simpl in E. apply String.eqb_eq in E. now subst n.
Qed.


(** ** Normalised e-mail of a trimmed value *)

Lemma js_rtrim_fix_rtrim (t : list ascii) : js_rtrim t = t -> rtrim t = t.
Proof.
  induction t as [|c t IH]; [reflexivity|].
  rewrite js_rtrim_cons, rtrim_cons.
  destruct (js_rtrim t) as [|d r] eqn:E.
  - destruct (is_pg_space c) eqn:Ec; [discriminate|].
    intros H. injection H as <-. simpl.
    destruct (Ascii.eqb_spec c space) as [->|_]; [discriminate | reflexivity].
  - intros H. injection H as H. rewrite (IH H). rewrite <- H. reflexivity.
Qed.

Lemma no_lead_ws_space (t : list ascii) : no_lead_ws t -> no_lead_space t.
Proof.
  destruct t as [|c t]; simpl; [trivial|]. intros H.
  destruct (Ascii.eqb_spec c space) as [->|_]; [discriminate | reflexivity].
Qed.

Lemma js_ltrim_lower (t : list ascii) :
  js_ltrim (pg_lower t) = pg_lower (js_ltrim t).
Proof.
  induction t as [|c t IH]; [reflexivity|].
  simpl. rewrite lower_char_pg_space.
  destruct (is_pg_space c); [exact IH | reflexivity].
Qed.

Lemma js_rtrim_lower (t : list ascii) :
  js_rtrim (pg_lower t) = pg_lower (js_rtrim t).
Proof.
  induction t as [|c t IH]; [reflexivity|].
  change (pg_lower (c :: t)) with (lower_char c :: pg_lower t).
  rewrite !js_rtrim_cons, IH, lower_char_pg_space.
  destruct (js_rtrim t); simpl; [destruct (is_pg_space c)|]; reflexivity.
Qed.

Lemma string_of_list_inj (a b : list ascii) :
  string_of_list_ascii a = string_of_list_ascii b -> a = b.
Proof.
  intros H. rewrite <- (list_ascii_of_string_of_list_ascii a),
              <- (list_ascii_of_string_of_list_ascii b). now rewrite H.
Qed.

(** The value the lookup compares with is the [email_normalized] the new
    lead will have. *)
Lemma lookup_key_is_normalized (e : string) :
  trimmed e ->
  normalize_email (Some e) = Some (js_trim (toLowerCase e)).
Proof.
  unfold trimmed, js_trim, toLowerCase, normalize_email, on_text. simpl.
  intros H. set (t := list_ascii_of_string e) in *.
  assert (Ht : js_rtrim (js_ltrim t) = t).
  { apply string_of_list_inj. rewrite H. unfold t.
    now rewrite string_of_list_ascii_of_string. }
  f_equal. f_equal. rewrite list_ascii_of_string_of_list_ascii.
  rewrite js_ltrim_lower, js_rtrim_lower, Ht.
  unfold normalize_email_text, pg_trim. f_equal.
  assert (Hl : no_lead_ws t)
    by (rewrite <- Ht; apply js_rtrim_no_lead, js_ltrim_no_lead).
  rewrite (ltrim_fix t (no_lead_ws_space t Hl)).
  apply js_rtrim_fix_rtrim.
  rewrite (js_ltrim_fix t Hl) in Ht. exact Ht.
Qed.

(** ** One turn of the loop *)

Lemma mark_duplicate_frame st rawRowId existing :
  source_leads (mark_duplicate st rawRowId existing) = source_leads st
  /\ data_lineage (mark_duplicate st rawRowId existing) = data_lineage st
  /\ embedding_queue (mark_duplicate st rawRowId existing)
     = embedding_queue st
  /\ raw_ingestions (mark_duplicate st rawRowId existing) = raw_ingestions st
  /\ matcher_calls (mark_duplicate st rawRowId existing) = matcher_calls st.
Proof.
  unfold mark_duplicate. destruct (existsb _ _); repeat split.
Qed.

(** What a turn does to the leads, the lineage and the counters: nothing is
    created (and the row may count as a duplicate), or one lead is appended. *)
Lemma transform_row_cases ingestion leadSource fieldMapping s rawRow :
  let s' := transform_row ingestion leadSource fieldMapping s rawRow in
  let normalized := mapFields (rr_raw_data rawRow) fieldMapping in
  (source_leads (db s') = source_leads (db s)
   /\ data_lineage (db s') = data_lineage (db s)
   /\ raw_ingestions (db s') = raw_ingestions (db s)
   /\ matcher_calls (db s') = matcher_calls (db s)
   /\ createdCount s' = createdCount s
   /\ sourceLeadIds s' = sourceLeadIds s
   /\ duplicateCount s <= duplicateCount s' <= S (duplicateCount s))
  \/ (exists ls org,
        source_leads (db s')
        = source_leads (db s)
          ++ [mk_source_lead (next_uuid (db s)) (Some (rr_id rawRow))
                (Some (ri_id ingestion)) ls org (field normalized "email")
                (field normalized "phone") (field normalized "address")
                lead_pending None None]
        /\ (forall e, field normalized "email" = Some e ->
              find_existing (db s) (Some org) (Some ls) e = None)
        /\ length (data_lineage (db s')) = S (length (data_lineage (db s)))
        /\ raw_ingestions (db s') = raw_ingestions (db s)
        /\ matcher_calls (db s') = matcher_calls (db s)
        /\ createdCount s' = S (createdCount s)
        /\ sourceLeadIds s' = sourceLeadIds s ++ [next_uuid (db s)]
        /\ duplicateCount s' = duplicateCount s).
Proof.
  cbv zeta. unfold transform_row.
  set (normalized := mapFields (rr_raw_data rawRow) fieldMapping).
  set (lsid := match leadSource with
               | Some ls => Some (ls_id ls)
               | None => ri_lead_source_id ingestion
               end).
  set (existing := match field normalized "email" with
                   | Some email =>
                       if String.eqb email EmptyString then None
                       else find_existing (db s) (ri_organization_id ingestion)
                              lsid email
                   | None => None
                   end).
  destruct existing as [lead|] eqn:Eex.
  - left. cbn [db createdCount duplicateCount sourceLeadIds].
    destruct (mark_duplicate_frame (db s) (rr_id rawRow) lead)
      as (H1 & H2 & _ & H4 & H5).
    repeat split; try assumption; lia.
  - destruct lsid as [ls|] eqn:Els;
      [destruct (ri_organization_id ingestion) as [org|] eqn:Eorg|].
    + right. exists ls, org.
      cbn [db createdCount duplicateCount sourceLeadIds].
      unfold queue_lead, update_raw_row.
      cbn [source_leads data_lineage raw_ingestions matcher_calls next_uuid
           raw_lead_rows lead_sources embedding_queue].
      split; [reflexivity|]. split.
      { intros e He. subst existing. rewrite He in Eex.
        destruct (String.eqb e EmptyString) eqn:Ee; [|exact Eex].
        exfalso. apply String.eqb_eq in Ee. subst e.
        apply field_In in He. apply mapFields_some in He.
        now destruct He as [He _]. }
      split; [rewrite length_app; simpl; lia|].
      repeat split.
    + left. repeat split; lia.
    + left. repeat split; lia.
Qed.

(** ** Uniqueness of the normalised e-mail *)

Lemma emails_unique_snoc (leads : list source_lead) (l : source_lead) :
  emails_unique leads ->
  (forall e, sl_email_normalized l = Some e ->
     filter (same_email_key (sl_organization_id l) (sl_lead_source_id l) e)
       leads = []) ->
  emails_unique (leads ++ [l]).
Proof.
  intros Hu Hnew org ls e. rewrite filter_app, length_app. simpl.
  destruct (same_email_key org ls e l) eqn:E; [|simpl; specialize (Hu org ls e); lia].
  unfold same_email_key in E.
  apply andb_true_iff in E. destruct E as [E E3].
  apply andb_true_iff in E. destruct E as [E1 E2].
  apply Nat.eqb_eq in E1, E3. subst org ls.
  unfold sql_eq in E2. destruct (sl_email_normalized l) as [e'|] eqn:En;
    [|discriminate].
  apply String.eqb_eq in E2. subst e'.
  rewrite (Hnew e eq_refl). simpl. lia.
Qed.

Lemma find_existing_none (st : store) (org ls : uuid) (email : string) :
  emails_unique (source_leads st) ->
  find_existing st (Some org) (Some ls) email = None ->
  filter (same_email_key org ls (js_trim (toLowerCase email)))
    (source_leads st) = [].
Proof.
  intros Hu. unfold find_existing.
  specialize (Hu org ls (js_trim (toLowerCase email))).
  change (fun l : source_lead =>
            (sl_organization_id l =? org)
            && sql_eq (sl_email_normalized l)
                 (Some (js_trim (toLowerCase email)))
            && (sl_lead_source_id l =? ls))
    with (same_email_key org ls (js_trim (toLowerCase email))).
  destruct (filter _ (source_leads st)) as [|x [|y t]]; simpl in *;
    [reflexivity | discriminate | lia].
Qed.

Lemma transform_row_emails ingestion leadSource fieldMapping s rawRow :
  emails_unique (source_leads (db s)) ->
  emails_unique
    (source_leads
       (db (transform_row ingestion leadSource fieldMapping s rawRow))).
Proof.
  intros Hu.
  destruct (transform_row_cases ingestion leadSource fieldMapping s rawRow)
    as [(H1 & _) | (ls & org & H1 & Hex & _)]; cbv zeta in *.
  - now rewrite H1.
  - rewrite H1. apply emails_unique_snoc; [exact Hu|].
    unfold sl_email_normalized at 1. cbn [sl_email sl_organization_id
                                          sl_lead_source_id].
    intros e He.
    destruct (field (mapFields (rr_raw_data rawRow) fieldMapping) "email")
      as [email|] eqn:Ef; [|discriminate].
    pose proof (field_In _ _ _ Ef) as Hin.
    apply mapFields_some in Hin. destruct Hin as (_ & _ & Htrim & _).
    rewrite (lookup_key_is_normalized email Htrim) in He.
    injection He as <-.
    apply find_existing_none; [exact Hu|]. now apply Hex.
Qed.

Lemma transform_loop_emails ingestion leadSource fieldMapping rows : forall s,
  emails_unique (source_leads (db s)) ->
  emails_unique
    (source_leads
       (db (fold_left (transform_row ingestion leadSource fieldMapping)
              rows s))).
Proof.
  induction rows as [|r rest IH]; intros s Hu; [exact Hu|].
  simpl. apply IH. now apply transform_row_emails.
Qed.

(** X23.  The transformer keeps the normalised e-mail unique: if no two
    leads of the same organization and source share an [email_normalized]
    before a run, none do afterwards.  A row whose e-mail is already on a
    lead, be it a lead of an earlier batch or one made from an earlier row of
    the same batch, and however the two are written (case, white space
    around), never becomes a second lead. *)
Theorem transformer_keeps_emails_unique (st : store) (ingestion_id now : nat) :
  emails_unique (source_leads st) ->
  emails_unique (source_leads (fst (lead_transformer st ingestion_id now))).
Proof.
  intros Hu. unfold lead_transformer.
  destruct (single _) as [ingestion|]; [|exact Hu].
  match goal with
  | |- context [match ?rows with [] => _ | _ :: _ => _ end] =>
      destruct rows as [|r0 rest] eqn:Er
  end; [exact Hu|].
  cbn [fst].
  match goal with
  | |- context [fold_left (transform_row ?a ?b ?c) ?rows ?s0] =>
      pose proof (transform_loop_emails a b c rows s0 Hu) as Hloop;
      set (final := fold_left (transform_row a b c) rows s0) in *
  end.
  destruct (sourceLeadIds final); exact Hloop.
Qed.

Lemma transformer_keeps_emails_unique_witness :
  emails_unique
    (source_leads (fst (lead_transformer store_same_email 100 5000))).
Proof.
  apply (transformer_keeps_emails_unique store_same_email 100 5000).
  intros org ls e. simpl. lia.
Defined.

(** ** The counters of a run *)

Lemma transform_loop_counts ingestion leadSource fieldMapping rows : forall s,
  let final := fold_left (transform_row ingestion leadSource fieldMapping)
                 rows s in
  exists new,
    source_leads (db final) = source_leads (db s) ++ new
    /\ createdCount final = createdCount s + length new
    /\ sourceLeadIds final = sourceLeadIds s ++ map sl_id new
    /\ duplicateCount s <= duplicateCount final
    /\ length new + (duplicateCount final - duplicateCount s) <= length rows
    /\ length (data_lineage (db final))
       = length (data_lineage (db s)) + length new
    /\ raw_ingestions (db final) = raw_ingestions (db s)
    /\ matcher_calls (db final) = matcher_calls (db s)
    /\ Forall (fun l => sl_match_status l = lead_pending
                        /\ sl_match_confidence l = None
                        /\ sl_ingestion_id l = Some (ri_id ingestion)
                        /\ exists r, In r rows
                                     /\ sl_raw_row_id l = Some (rr_id r)) new.
Proof.
  induction rows as [|r rest IH]; intros s; cbn [fold_left].
  - exists []. cbv zeta. rewrite !app_nil_r. simpl. repeat split; try lia.
    constructor.
  - destruct (IH (transform_row ingestion leadSource fieldMapping s r))
      as (new & H1 & H2 & H3 & H4 & H5 & H6 & H7 & H8 & H9).
    assert (Hrest : Forall (fun l => sl_match_status l = lead_pending
                        /\ sl_match_confidence l = None
                        /\ sl_ingestion_id l = Some (ri_id ingestion)
                        /\ exists r0, In r0 (r :: rest)
                                      /\ sl_raw_row_id l = Some (rr_id r0)) new).
    { eapply Forall_impl; [|exact H9].
      intros l (A & B & C & r0 & Hr0 & D). repeat split; try assumption.
      exists r0. split; [now right | exact D]. }
    destruct (transform_row_cases ingestion leadSource fieldMapping s r)
      as [(G1 & G2 & G3 & G4 & G5 & G6 & G7)
         | (ls & org & G1 & _ & G2 & G3 & G4 & G5 & G6 & G7)];
      cbv zeta in *.
    + exists new. rewrite H1, H2, H3, H6, H7, H8, G1, G2, G3, G4, G5, G6.
      repeat split; try lia; try assumption. simpl. lia.
    + eexists (_ :: new).
      rewrite H1, H2, H3, H6, H7, H8, G1, G2, G3, G4, G5, G6, <- !app_assoc.
      simpl. repeat split; try lia.
      constructor; [|exact Hrest]. cbn. repeat split.
      exists r. split; [now left | reflexivity].
Qed.

(** X24.  A transformer run that answers with its counts has appended
    [leads_created] leads to [source_leads], each ['pending'], without a
    confidence, linked to the batch and to one of the valid rows of the
    batch that had no lead; it has written one lineage row per lead; the
    leads created and the duplicates found are together at most the rows
    worked on; [lead-matcher] is called once with the ids of the new leads
    when there are any, and not at all otherwise; and the batch ends
    ['completed'] at the time of the run, with [duplicate_rows] raised by
    [duplicates_found]. *)
Theorem transformer_creates_and_counts (st : store)
    (ingestion_id now created duplicates : nat) (ingestion : raw_ingestion) :
  snd (lead_transformer st ingestion_id now) = transformed created duplicates ->
  single (filter (fun r => ri_id r =? ingestion_id) (raw_ingestions st))
  = Some ingestion ->
  let st' := fst (lead_transformer st ingestion_id now) in
  exists new batch,
    source_leads st' = source_leads st ++ new
    /\ length new = created
    /\ Forall (created_from st ingestion_id) new
    /\ created + duplicates <= length (rows_to_transform st ingestion_id)
    /\ length (data_lineage st') = length (data_lineage st) + created
    /\ matcher_calls st'
       = matcher_calls st
         ++ match new with [] => [] | _ :: _ => [map sl_id new] end
    /\ filter (fun r => ri_id r =? ingestion_id) (raw_ingestions st') = [batch]
    /\ ri_status batch = ing_completed
    /\ ri_completed_at batch = Some now
    /\ ri_duplicate_rows batch = ri_duplicate_rows ingestion + duplicates.
Proof.
  unfold lead_transformer. intros Hr Hs. rewrite Hs in *. revert Hr.
  apply ParserSpec.single_filter_singleton in Hs.
  assert (Hid : ri_id ingestion = ingestion_id).
  { assert (H : In ingestion
                  (filter (fun r => ri_id r =? ingestion_id)
                     (raw_ingestions st))) by (rewrite Hs; now left).
    apply filter_In in H. destruct H as [_ H]. now apply Nat.eqb_eq in H. }
  change (filter _ (raw_lead_rows (update_ingestion st ingestion_id _)))
    with (rows_to_transform st ingestion_id).
  destruct (rows_to_transform st ingestion_id) as [|r0 rest] eqn:Er;
    [discriminate|].
  match goal with
  | |- context [fold_left (transform_row ?a ?b ?c) ?rows ?s0] =>
      destruct (transform_loop_counts a b c rows s0)
        as (new & H1 & H2 & H3 & H4 & H5 & H6 & H7 & H8 & H9);
      set (final := fold_left (transform_row a b c) rows s0) in *
  end.
  cbv zeta in *. cbn [db createdCount duplicateCount sourceLeadIds] in *.
  cbn [source_leads data_lineage raw_ingestions matcher_calls
       update_ingestion] in H1, H6, H7, H8.
  simpl app in H3. simpl Nat.add in H2.
  assert (Hfrom : Forall (created_from st ingestion_id) new).
  { eapply Forall_impl; [|exact H9].
    intros l (A & B & C & r & Hr & D). repeat split; try assumption.
    - now rewrite <- Hid.
    - exists r. split; [now rewrite Er | exact D]. }
  assert (Hcalls : match sourceLeadIds final with
                   | [] => new = []
                   | _ :: _ => new <> []
                   end).
  { rewrite H3. destruct new; [reflexivity | discriminate]. }
  destruct (sourceLeadIds final) as [|i0 ids] eqn:Eids;
    cbn [fst snd]; intros [= <- <-]; exists new; eexists;
    cbn [source_leads data_lineage raw_ingestions matcher_calls
         update_ingestion];
    rewrite H1, H6, H7, ?H8;
    rewrite !ParserSpec.filter_update_by_id by reflexivity; rewrite Hs;
    simpl map at 1;
    (split; [reflexivity|]); (split; [symmetry; exact H2|]);
    (split; [exact Hfrom|]);
    (split; [simpl in H5 |- *; lia|]); (split; [lia|]).
  - subst new. rewrite app_nil_r. split; [reflexivity|].
    split; [reflexivity|]. cbn. repeat split.
  - split.
    { rewrite H3. destruct new; [contradiction | reflexivity]. }
    split; [reflexivity|]. cbn. repeat split.
Qed.

Lemma transformer_creates_and_counts_witness :
  exists new batch,
    source_leads (fst (lead_transformer store_same_email 100 5000))
    = source_leads store_same_email ++ new
    /\ length new = 1
    /\ Forall (created_from store_same_email 100) new
    /\ 1 + 1 <= length (rows_to_transform store_same_email 100)
    /\ length (data_lineage (fst (lead_transformer store_same_email 100 5000)))
       = length (data_lineage store_same_email) + 1
    /\ matcher_calls (fst (lead_transformer store_same_email 100 5000))
       = matcher_calls store_same_email
         ++ match new with [] => [] | _ :: _ => [map sl_id new] end
    /\ filter (fun r => ri_id r =? 100)
         (raw_ingestions (fst (lead_transformer store_same_email 100 5000)))
       = [batch]
    /\ ri_status batch = ing_completed
    /\ ri_completed_at batch = Some 5000
    /\ ri_duplicate_rows batch = ri_duplicate_rows batch_same_email + 1.
Proof.
  apply (transformer_creates_and_counts store_same_email 100 5000 1 1
           batch_same_email); reflexivity.
Defined.

End TransformerCoverage.

Module FubClientSpec.
Import FubClient.

Lemma btoa_prefix (k : nat) (s : list ascii) :
  3 * k <= length s ->
  firstn (4 * k) (btoa s) = btoa (firstn (3 * k) s).
Proof.
  revert s. induction k as [|k IH]; intros s Hs; [reflexivity|].
  destruct s as [|a [|b [|c rest]]]; simpl in Hs; try lia.
  replace (4 * S k) with (S (S (S (S (4 * k))))) by lia.
  replace (3 * S k) with (S (S (S (3 * k)))) by lia.
  cbn [btoa firstn]. rewrite IH by lia. reflexivity.
Qed.

Lemma iterate_from_paging (all : list FubPerson) (b : nat) :
  0 < b ->
  forall fuel offset,
  0 < fuel -> length all - offset <= fuel * b ->
  exists batches,
    iterate_from (paging all) fuel b offset = Finished batches
    /\ concat batches = skipn offset all
    /\ Forall (fun people => 0 < length people <= b) batches.
Proof.
  intros Hb. induction fuel as [|fuel IH]; intros offset Hf Hlen; [lia|].
  cbn [iterate_from paging].
  set (people := firstn b (skipn offset all)).
  assert (Hp : length people = Nat.min b (length all - offset))
    by (unfold people; now rewrite length_firstn, length_skipn).
  assert (Hsplit : skipn offset all = people ++ skipn (offset + b) all).
  { unfold people. rewrite Nat.add_comm, <- skipn_skipn.
    now rewrite firstn_skipn. }
  destruct (offset + length people <? length all) eqn:Emore.
  - apply Nat.ltb_lt in Emore.
    assert (Hfull : length people = b) by lia.
    destruct (IH (offset + b)) as (bs & E & Hc & Hall); [nia | nia |].
    rewrite E. destruct people as [|x people'] eqn:Ep; [simpl in Hfull; lia|].
    cbn [yield]. exists ((x :: people') :: bs). split; [reflexivity|].
    split; [simpl; rewrite Hc; now rewrite Hsplit|].
    constructor; [lia | exact Hall].
  - apply Nat.ltb_ge in Emore.
    assert (Hrest : skipn (offset + b) all = []).
    { apply length_zero_iff_nil. rewrite length_skipn. lia. }
    rewrite Hrest, app_nil_r in Hsplit.
    destruct people as [|x people'] eqn:Ep; cbn [yield].
    + exists []. split; [reflexivity|]. split; [now rewrite Hsplit|].
      constructor.
    + exists [x :: people']. split; [reflexivity|].
      split; [simpl; now rewrite app_nil_r, Hsplit|].
      constructor; [simpl in Hp |- *; lia | constructor].
Qed.

(** X25.  Against a server that holds the people [all] and answers every
    request with the page asked for and the true total, [iteratePeople] ends
    after at most [length all + 1] requests, and the batches it yields are
    the people in the server's order, each one once: no batch is empty or
    longer than the batch size (100 when none is given). *)
Theorem iteratePeople_pages_through (all : list FubPerson)
    (batchSize fuel : nat) :
  length all < fuel ->
  exists batches,
    iteratePeople (paging all) fuel batchSize = Finished batches
    /\ concat batches = all
    /\ Forall (fun people => 0 < length people <= batch_size_of batchSize)
         batches.
Proof.
  intros Hf. unfold iteratePeople.
  assert (Hb : 0 < batch_size_of batchSize)
    by (destruct batchSize; simpl; lia).
  destruct (iterate_from_paging all (batch_size_of batchSize) Hb fuel 0)
    as (bs & E & Hc & Hall); [lia | nia |].
  exists bs. split; [exact E|]. split; [exact Hc | exact Hall].
Qed.

Lemma iteratePeople_pages_through_witness :
  exists batches,
    iteratePeople (paging [sample_person 1; sample_person 2; sample_person 3]) 4 2
    = Finished batches
    /\ concat batches = [sample_person 1; sample_person 2; sample_person 3]
    /\ Forall (fun people => 0 < length people <= 2) batches.
Proof.
  apply (iteratePeople_pages_through [sample_person 1; sample_person 2; sample_person 3] 2 4).
  simpl. lia.
Defined.

Lemma json_plain (s : list ascii) :
  forallb plain s = true -> flat_map json_char s = s.
Proof.
  induction s as [|c s IH]; [reflexivity|].
  cbn [forallb flat_map]. intros H. apply andb_true_iff in H.
  destruct H as [Hc Hs]. rewrite IH by exact Hs.
  unfold plain in Hc. unfold json_char.
  apply andb_true_iff in Hc. destruct Hc as [Hc H92].
  apply andb_true_iff in Hc. destruct Hc as [H32 H34].
  apply negb_true_iff in H92, H34. apply Nat.leb_le in H32.
  rewrite H34, H92.
  repeat match goal with
         | |- context [?n =? ?k] =>
             let E := fresh in
             destruct (n =? k) eqn:E; [apply Nat.eqb_eq in E; lia | clear E]
         end.
  destruct (nat_of_ascii c <? 32) eqn:E; [apply Nat.ltb_lt in E; lia|].
  reflexivity.
Qed.

Lemma sync_hash_prefix (p : FubPerson) :
  24 <= length (hashData p) ->
  sync_hash p = string_of_list_ascii (btoa (firstn 24 (hashData p))).
Proof.
  intros H. unfold sync_hash. f_equal.
  exact (btoa_prefix 8 (hashData p) H).
Qed.

Lemma hashData_email (p : FubPerson) (e : string) :
  primary (emails p) = Some e ->
  plain_string e = true ->
  14 <= String.length e ->
  24 <= length (hashData p)
  /\ firstn 24 (hashData p)
     = list_ascii_of_string "{"
       ++ char 34 :: list_ascii_of_string "email"
       ++ char 34 :: ":"%char :: char 34
       :: firstn 14 (list_ascii_of_string e).
Proof.
  intros He Hp Hl. unfold hashData. rewrite He.
  cbn [json_opt_string]. unfold json_string.
  rewrite (json_plain _ Hp).
  assert (Hlen : 14 <= length (list_ascii_of_string e)).
  { clear -Hl. revert Hl. generalize 14.
    induction e as [|c e IH]; intros n Hn; simpl in *; [exact Hn|].
    destruct n; [lia|]. specialize (IH n). lia. }
  set (l := list_ascii_of_string e) in *.
  set (rest := (json_key false "phone" ++ _)%list).
  cbn [json_key list_ascii_of_string app].
  split.
  - cbn [length]. rewrite !length_app. clearbody l rest. lia.
  - do 10 (rewrite firstn_cons; f_equal).
    rewrite <- app_assoc, firstn_app.
    replace (14 - length l) with 0 by lia.
    cbn [firstn]. now rewrite app_nil_r.
Qed.



End FubClientSpec.

Module FubSyncSpec.
Import ListFacts MoreListFacts Schema FubClient FubSync.

Lemma same_lead_key (c : uuid) (i : nat) (r : fub_lead_row) :
  same_lead c i r = true <-> lead_key r = (c, i).
Proof.
  unfold same_lead, lead_key. rewrite andb_true_iff, !Nat.eqb_eq.
  split; [intros [-> ->]; reflexivity | intros [= -> ->]; now split].
Qed.

Lemma existing_row (c : uuid) (i : nat) (rows : list fub_lead_row)
    (r : fub_lead_row) :
  NoDup (map lead_key rows) -> In r rows -> same_lead c i r = true ->
  filter (same_lead c i) rows = [r].
Proof.
  intros Hnd Hin Hr. apply (filter_unique lead_key); try assumption.
  intros x Hx. apply same_lead_key in Hx, Hr. congruence.
Qed.

Lemma no_row_no_match (c : uuid) (i : nat) (rows : list fub_lead_row) :
  NoDup (map lead_key rows) ->
  single (filter (same_lead c i) rows) = None ->
  existsb (same_lead c i) rows = false.
Proof.
  intros Hnd Hs. destruct (existsb (same_lead c i) rows) eqn:E; [|reflexivity].
  apply existsb_exists in E. destruct E as (r & Hin & Hr).
  now rewrite (existing_row c i rows r Hnd Hin Hr) in Hs.
Qed.

(** What the [update ... where id = existing.id] does to the table. *)
Lemma update_existing (rows : list fub_lead_row) (existing : fub_lead_row)
    (d : LeadData) (now : nat) :
  NoDup (map fr_id rows) -> In existing rows ->
  lead_key (mk_fub_lead_row (fr_id existing) d now) = lead_key existing ->
  let rows' := map (fun r => if fr_id r =? fr_id existing
                             then mk_fub_lead_row (fr_id r) d now else r) rows in
  map fr_id rows' = map fr_id rows
  /\ map lead_key rows' = map lead_key rows
  /\ In (mk_fub_lead_row (fr_id existing) d now) rows'.
Proof.
  intros Hid Hin Hkey rows'. unfold rows'. split; [|split].
  - rewrite map_map. apply map_ext. intros r.
    now destruct (fr_id r =? fr_id existing).
  - rewrite map_map. apply map_ext_in. intros r Hr.
    destruct (Nat.eqb_spec (fr_id r) (fr_id existing)) as [E|E];
      [|reflexivity].
    rewrite (NoDup_key_eq fr_id rows existing r Hid Hin Hr E).
    exact Hkey.
  - apply in_map_iff. exists existing. now rewrite Nat.eqb_refl.
Qed.

Section WithConnection.

Variable connectionId organizationId : uuid.
Variable users : list FubUser.
Variable now : nat.

Abbreviation step := (sync_person connectionId organizationId users now).
Abbreviation lead_of p :=
  (transformFubPerson p connectionId organizationId (users_map users)).

(** The three ways through [sync_person] when the keys hold. *)
Lemma sync_person_cases (s : sync_state) (p : FubPerson) :
  keys_hold (db s) ->
  let rows := fub_leads (db s) in
  let s' := step s p in
  (exists existing,
      filter (same_lead connectionId (person_id p)) rows = [existing]
      /\ ld_sync_hash (fr_data existing) = sync_hash p
      /\ s' = s)
  \/ (exists existing,
      filter (same_lead connectionId (person_id p)) rows = [existing]
      /\ ld_sync_hash (fr_data existing) <> sync_hash p
      /\ map fr_id (fub_leads (db s')) = map fr_id rows
      /\ map lead_key (fub_leads (db s')) = map lead_key rows
      /\ In (mk_fub_lead_row (fr_id existing) (lead_of p) now)
           (fub_leads (db s'))
      /\ next_uuid (db s') = next_uuid (db s)
      /\ leadsCreated s' = leadsCreated s
      /\ leadsUpdated s' = S (leadsUpdated s)
      /\ leadsFetched s' = leadsFetched s
      /\ errors s' = errors s)
  \/ (filter (same_lead connectionId (person_id p)) rows = []
      /\ fub_leads (db s')
         = rows ++ [mk_fub_lead_row (next_uuid (db s)) (lead_of p) now]
      /\ next_uuid (db s') = S (next_uuid (db s))
      /\ leadsCreated s' = S (leadsCreated s)
      /\ leadsUpdated s' = leadsUpdated s
      /\ leadsFetched s' = leadsFetched s
      /\ errors s' = errors s).
Proof.
  intros [Hid Hkey Hlt] rows s'. unfold s', sync_person. fold rows.
  destruct (single (filter (same_lead connectionId (person_id p)) rows))
    as [existing|] eqn:Es.
  - assert (Ef : filter (same_lead connectionId (person_id p)) rows
                 = [existing]).
    { destruct (filter (same_lead connectionId (person_id p)) rows)
        as [|x [|y t]]; try discriminate. now injection Es as ->. }
    assert (Hin : In existing rows /\
                  same_lead connectionId (person_id p) existing = true).
    { apply filter_In. rewrite Ef. now left. }
    destruct Hin as [Hin Hsame].
    cbn [ld_sync_hash transformFubPerson].
    destruct (String.eqb_spec (ld_sync_hash (fr_data existing)) (sync_hash p))
      as [E|E].
    + left. exists existing. auto.
    + right. left. exists existing.
      destruct (update_existing rows existing (lead_of p) now Hid Hin)
        as (B1 & B2 & B3).
      { apply same_lead_key in Hsame. rewrite Hsame. reflexivity. }
      split; [exact Ef|]. split; [exact E|].
      cbn [db queue fub_leads next_uuid leadsCreated leadsUpdated
             leadsFetched errors].
      split; [exact B1|]. split; [exact B2|]. split; [exact B3|].
      repeat split.
  - rewrite (no_row_no_match _ _ rows Hkey Es).
    right. right.
    cbn [db queue fub_leads next_uuid leadsCreated leadsUpdated
           leadsFetched errors].
    split; [|repeat split].
    apply filter_none. intros r Hr.
    pose proof (no_row_no_match _ _ rows Hkey Es) as Hex.
    destruct (same_lead connectionId (person_id p) r) eqn:E; [|reflexivity].
    assert (existsb (same_lead connectionId (person_id p)) rows = true)
      by (apply existsb_exists; now exists r).
    congruence.
Qed.

Lemma lead_of_key (p : FubPerson) (id : uuid) :
  lead_key (mk_fub_lead_row id (lead_of p) now) = (connectionId, person_id p).
Proof. reflexivity. Qed.

Lemma sync_person_keys (s : sync_state) (p : FubPerson) :
  keys_hold (db s) -> keys_hold (db (step s p)).
Proof.
  intros Hk. pose proof Hk as [Hid Hkey Hlt].
  destruct (sync_person_cases s p Hk)
    as [(e & _ & _ & ->) | [(e & Ef & _ & B1 & B2 & _ & B4 & _) |
                            (Ef & B1 & B2 & _)]].
  - exact Hk.
  - constructor.
    + now rewrite B1.
    + now rewrite B2.
    + rewrite B4. apply Forall_forall. intros r Hr.
      assert (Hi : In (fr_id r) (map fr_id (fub_leads (db s))))
        by (rewrite <- B1; now apply in_map).
      apply in_map_iff in Hi. destruct Hi as (r0 & E & Hr0).
      pose proof (proj1 (Forall_forall _ _) Hlt r0 Hr0) as Hr0'.
      simpl in Hr0'. now rewrite <- E.
  - constructor; rewrite B1.
    + rewrite map_app. apply NoDup_snoc; [exact Hid|]. simpl.
      intros Hin. apply in_map_iff in Hin. destruct Hin as (r & E & Hr).
      pose proof (proj1 (Forall_forall _ _) Hlt r Hr) as Hr'.
      simpl in Hr'. lia.
    + rewrite map_app. apply NoDup_snoc; [exact Hkey|]. simpl.
      intros Hin. apply in_map_iff in Hin. destruct Hin as (r & E & Hr).
      assert (Hf : In r (filter (same_lead connectionId (person_id p))
                           (fub_leads (db s)))).
      { apply filter_In. split; [exact Hr|]. now apply same_lead_key. }
      now rewrite Ef in Hf.
    + rewrite B2. apply Forall_app. split.
      * eapply Forall_impl; [|exact Hlt]. simpl. intros; lia.
      * constructor; [simpl; lia | constructor].
Qed.

Lemma sync_person_row (s : sync_state) (p : FubPerson) :
  keys_hold (db s) ->
  exists row,
    filter (same_lead connectionId (person_id p)) (fub_leads (db (step s p)))
    = [row]
    /\ ld_sync_hash (fr_data row) = sync_hash p.
Proof.
  intros Hk. pose proof (sync_person_keys s p Hk) as [_ Hkey' _].
  destruct (sync_person_cases s p Hk)
    as [(e & Ef & Eh & E) | [(e & Ef & _ & _ & _ & B3 & _) |
                             (Ef & B1 & _)]].
  - rewrite E. now exists e.
  - exists (mk_fub_lead_row (fr_id e) (lead_of p) now).
    split; [|reflexivity].
    apply existing_row; [exact Hkey' | exact B3 |].
    apply same_lead_key. apply lead_of_key.
  - exists (mk_fub_lead_row (next_uuid (db s)) (lead_of p) now).
    split; [|reflexivity].
    apply existing_row; [exact Hkey' | |].
    + rewrite B1. apply in_or_app. right. now left.
    + apply same_lead_key. apply lead_of_key.
Qed.

Lemma sync_person_again (s : sync_state) (p : FubPerson) :
  keys_hold (db s) -> step (step s p) p = step s p.
Proof.
  intros Hk. destruct (sync_person_row s p Hk) as (row & Ef & Eh).
  set (s1 := step s p) in *.
  unfold sync_person at 1. rewrite Ef. cbn [single].
  cbn [ld_sync_hash transformFubPerson]. rewrite Eh.
  now rewrite String.eqb_refl.
Qed.

End WithConnection.


Lemma empty_store_keys : keys_hold empty_store.
Proof. constructor; simpl; constructor. Qed.


Section Loop.

Variable connectionId organizationId : uuid.
Variable users : list FubUser.
Variable now : nat.

Lemma sync_steps (people : list FubPerson) (s : sync_state) :
  keys_hold (db s) ->
  let s' := fold_left (sync_person connectionId organizationId users now)
              people s in
  keys_hold (db s')
  /\ errors s' = errors s
  /\ leadsFetched s' = leadsFetched s
  /\ leadsCreated s <= leadsCreated s'
  /\ leadsUpdated s <= leadsUpdated s'
  /\ leadsCreated s' + leadsUpdated s'
     <= leadsCreated s + leadsUpdated s + length people
  /\ length (fub_leads (db s')) + leadsCreated s
     = length (fub_leads (db s)) + leadsCreated s'
  /\ incl (map lead_key (fub_leads (db s))) (map lead_key (fub_leads (db s')))
  /\ (forall p, In p people ->
        In (connectionId, person_id p) (map lead_key (fub_leads (db s')))).
Proof.
  revert s. induction people as [|p people IH]; intros s Hk; cbn [fold_left].
  - cbv zeta.
    repeat (split; [first [exact Hk | reflexivity | lia | apply incl_refl]|]).
    intros p [].
  - pose proof (sync_person_keys connectionId organizationId users now s p Hk)
      as Hk1.
    pose proof (sync_person_cases connectionId organizationId users now s p Hk)
      as Hc.
    pose proof (sync_person_row connectionId organizationId users now s p Hk)
      as Hrow.
    cbv zeta in Hc.
    remember (sync_person connectionId organizationId users now s p) as s1
      eqn:Es1.
    clear Es1.
    assert (H1 : errors s1 = errors s
                 /\ leadsFetched s1 = leadsFetched s
                 /\ leadsCreated s <= leadsCreated s1
                 /\ leadsUpdated s <= leadsUpdated s1
                 /\ leadsCreated s1 + leadsUpdated s1
                    <= leadsCreated s + leadsUpdated s + 1
                 /\ length (fub_leads (db s1)) + leadsCreated s
                    = length (fub_leads (db s)) + leadsCreated s1
                 /\ incl (map lead_key (fub_leads (db s)))
                      (map lead_key (fub_leads (db s1)))).
    { destruct Hc
        as [(e & _ & _ & E) | [(e & _ & _ & B1 & B2 & _ & _ & C1 & C2 & C3 & C4)
                               | (_ & B1 & _ & C1 & C2 & C3 & C4)]].
      - rewrite E. repeat split; try lia. apply incl_refl.
      - rewrite C1, C2, C3, C4, B2.
        assert (Hl : length (fub_leads (db s1)) = length (fub_leads (db s))).
        { rewrite <- (length_map fr_id), B1. apply length_map. }
        rewrite Hl. repeat split; try lia. apply incl_refl.
      - rewrite C1, C2, C3, C4, B1, length_app, map_app. simpl.
        repeat split; try lia. apply incl_appl, incl_refl. }
    destruct H1 as (A1 & A2 & A3 & A4 & A5 & A6 & A7).
    destruct Hrow as (row & Ef & _).
    destruct (IH s1 Hk1) as (I0 & I1 & I2 & I3 & I4 & I5 & I6 & I7 & I8).
    split; [exact I0|]. split; [congruence|]. split; [congruence|].
    split; [lia|]. split; [lia|]. split; [simpl; lia|]. split; [lia|].
    split; [eapply incl_tran; eassumption|].
    intros q [<- | Hq]; [|now apply I8].
    apply I7. assert (Hin : In row [row]) by now left.
    rewrite <- Ef in Hin. apply filter_In in Hin. destruct Hin as [Hin Hs].
    apply same_lead_key in Hs. rewrite <- Hs. now apply in_map.
Qed.

Lemma sync_batches_run (batches : list (list FubPerson)) (s : sync_state) :
  keys_hold (db s) ->
  let s' := fold_left (sync_batch connectionId organizationId users now)
              batches s in
  keys_hold (db s')
  /\ errors s' = errors s
  /\ leadsFetched s' = leadsFetched s + length (concat batches)
  /\ leadsCreated s <= leadsCreated s'
  /\ leadsUpdated s <= leadsUpdated s'
  /\ leadsCreated s' + leadsUpdated s'
     <= leadsCreated s + leadsUpdated s + length (concat batches)
  /\ length (fub_leads (db s')) + leadsCreated s
     = length (fub_leads (db s)) + leadsCreated s'
  /\ incl (map lead_key (fub_leads (db s))) (map lead_key (fub_leads (db s')))
  /\ (forall p, In p (concat batches) ->
        In (connectionId, person_id p) (map lead_key (fub_leads (db s')))).
Proof.
  revert s. induction batches as [|b batches IH]; intros s Hk;
    cbn [fold_left concat].
  - cbv zeta.
    repeat (split; [first [exact Hk | reflexivity | (simpl; lia)
                          | apply incl_refl]|]).
    intros p [].
  - cbv zeta.
    change (sync_batch connectionId organizationId users now s b)
      with (fold_left (sync_person connectionId organizationId users now) b
              (mk_sync_state (db s) (leadsCreated s) (leadsUpdated s)
                 (leadsFetched s + length b) (errors s))).
    pose proof (sync_steps b
                  (mk_sync_state (db s) (leadsCreated s) (leadsUpdated s)
                     (leadsFetched s + length b) (errors s)) Hk) as H.
    cbv zeta in H. cbn [db leadsCreated leadsUpdated leadsFetched errors] in H.
    destruct H as (A0 & A1 & A2 & A3 & A4 & A5 & A6 & A7 & A8).
    set (s1 := fold_left (sync_person connectionId organizationId users now)
                 b _) in *.
    destruct (IH s1 A0) as (I0 & I1 & I2 & I3 & I4 & I5 & I6 & I7 & I8).
    rewrite length_app.
    split; [exact I0|]. split; [congruence|]. split; [lia|].
    split; [lia|]. split; [lia|]. split; [lia|]. split; [lia|].
    split; [eapply incl_tran; eassumption|].
    intros p Hp. apply in_app_or in Hp. destruct Hp as [Hp | Hp].
    + apply I7. now apply A8.
    + now apply I8.
Qed.

End Loop.





End FubSyncSpec.

Module ConversationsSpec.
Import ListFacts Schema Conversations.

Lemma add_to_count_rows (delta : Z) (now : nat) (id : uuid)
    (rows rows' : list ai_conversation) :
  add_to_count delta now id rows = Some rows' ->
  Forall2 (fun c c' =>
             conv_id c' = conv_id c
             /\ conv_message_count c'
                = if conv_id c =? id
                  then option_map (fun n => (n + delta)%Z)
                         (conv_message_count c)
                  else conv_message_count c) rows rows'.
Proof.
  unfold add_to_count. destruct (forallb _ rows); [|discriminate].
  intros [= <-]. induction rows as [|c rows IH]; simpl; constructor; auto.
  destruct (conv_id c =? id); now split.
Qed.

Lemma filter_split_length {A : Type} (P Q : A -> bool) (l : list A) :
  length (filter P (filter Q l))
  + length (filter P (filter (fun x => negb (Q x)) l))
  = length (filter P l).
Proof.
  induction l as [|x l IH]; simpl; [reflexivity|].
  destruct (Q x), (P x) eqn:E; simpl; rewrite ?E; simpl; lia.
Qed.

(** What [after_delete] does to the counts: every conversation loses as many
    as it has rows among the deleted ones. *)
Lemma after_delete_rows (now : nat) (deleted : list ai_message) :
  forall rows rows',
  after_delete now deleted rows = Some rows' ->
  Forall2 (fun c c' =>
             conv_id c' = conv_id c
             /\ conv_message_count c'
                = option_map
                    (fun n =>
                       (n - Z.of_nat
                              (length (messages_in deleted (conv_id c))))%Z)
                    (conv_message_count c)) rows rows'.
Proof.
  unfold messages_in.
  induction deleted as [|m deleted IH]; intros rows rows'; simpl.
  - intros [= <-]. induction rows as [|c rows IHr]; constructor; auto.
    split; [reflexivity|]. destruct (conv_message_count c); simpl;
      [f_equal; lia | reflexivity].
  - destruct (add_to_count (-1) now (msg_conversation_id m) rows)
      as [rows1|] eqn:E1; [|discriminate].
    intros E2. apply add_to_count_rows in E1. apply IH in E2.
    clear IH. revert rows' E2.
    induction E1 as [|c c1 rows rows1 [Hid Hc] _ IHr]; intros rows' E2;
      inversion E2 as [|? c' ? rows2 [Hid' Hc'] Hrest]; subst;
      constructor; auto.
    split; [congruence|]. rewrite Hc', Hid, Hc.
    rewrite (Nat.eqb_sym (msg_conversation_id m) (conv_id c)).
    destruct (conv_id c =? msg_conversation_id m);
      destruct (conv_message_count c); simpl; try reflexivity; f_equal; lia.
Qed.

(** The invariant: every count that is not NULL is the number of messages of
    the conversation, and no row refers to an id not yet given out. *)
Lemma execute_keeps_counts (now : nat) (st : store) (s : statement) :
  (Forall (fun c => conv_message_count c
                    = Some (Z.of_nat (length (messages_of st (conv_id c))))
                    /\ conv_id c < next_uuid st) (ai_conversations st)
   /\ Forall (fun m => msg_conversation_id m < next_uuid st) (ai_messages st))
  ->
  let st' := execute now st s in
  Forall (fun c => conv_message_count c
                   = Some (Z.of_nat (length (messages_of st' (conv_id c))))
                   /\ conv_id c < next_uuid st') (ai_conversations st')
  /\ Forall (fun m => msg_conversation_id m < next_uuid st') (ai_messages st').
Proof.
  intros [Hc Hm]. destruct s as [|cid role content|cond|id]; simpl.
  - (* a new conversation *)
    unfold insert_conversation, messages_of, messages_in. simpl. split.
    + apply Forall_app. split.
      * eapply Forall_impl; [|exact Hc]. simpl. intros c [H1 H2].
        split; [exact H1 | lia].
      * constructor; [|constructor]. simpl. split; [|lia].
        rewrite (filter_none _ (ai_messages st)); [reflexivity|].
        intros m Hin. apply Nat.eqb_neq.
        pose proof (proj1 (Forall_forall _ _) Hm m Hin) as H. simpl in H. lia.
    + eapply Forall_impl; [|exact Hm]. simpl. intros; lia.
  - (* a new message *)
    unfold insert_message.
    destruct content as [text|]; [|now split].
    destruct (negb (role_ok role)); [now split|].
    destruct (negb (existsb _ (ai_conversations st))) eqn:Eex; [now split|].
    cbn [update_conversation_message_count msg_conversation_id].
    destruct (add_to_count 1 now cid (ai_conversations st)) as [rows|] eqn:Ea;
      [|now split].
    apply add_to_count_rows in Ea. unfold messages_of, messages_in. simpl.
    split.
    + clear Eex. induction Ea as [|c c' rows0 rows' [Hid Hcount] _ IH];
        [constructor|].
      inversion Hc as [|? ? [H1 H2] Hrest]; subst.
      constructor; [|now apply IH].
      rewrite Hid, Hcount, H1, filter_app, length_app. simpl.
      rewrite (Nat.eqb_sym cid (conv_id c)).
      split; [|lia].
      destruct (conv_id c =? cid); simpl; f_equal; unfold messages_of, messages_in; lia.
    + apply Forall_app. split.
      * eapply Forall_impl; [|exact Hm]. simpl. intros; lia.
      * constructor; [|constructor]. simpl.
        apply negb_false_iff, existsb_exists in Eex.
        destruct Eex as (c & Hin & E). apply Nat.eqb_eq in E.
        pose proof (proj1 (Forall_forall _ _) Hc c Hin) as [_ H]. lia.
  - (* messages deleted *)
    unfold delete_messages.
    destruct (after_delete now (filter cond (ai_messages st))
                (ai_conversations st)) as [rows|] eqn:Ea; [|now split].
    apply after_delete_rows in Ea. unfold messages_of, messages_in. simpl.
    split.
    + induction Ea as [|c c' rows0 rows' [Hid Hcount] _ IH]; [constructor|].
      inversion Hc as [|? ? [H1 H2] Hrest]; subst.
      constructor; [|now apply IH].
      rewrite Hid, Hcount, H1. simpl. split; [|exact H2].
      f_equal. unfold messages_of, messages_in.
      pose proof (filter_split_length
                    (fun m => msg_conversation_id m =? conv_id c) cond
                    (ai_messages st)) as Hs.
      lia.
    + apply Forall_forall. intros m Hin. apply filter_In in Hin.
      now apply (proj1 (Forall_forall _ _) Hm).
  - (* a conversation deleted *)
    unfold delete_conversation, messages_of, messages_in. simpl. split.
    + apply Forall_forall. intros c Hin. apply filter_In in Hin.
      destruct Hin as [Hin Hne]. apply negb_true_iff, Nat.eqb_neq in Hne.
      pose proof (proj1 (Forall_forall _ _) Hc c Hin) as [H1 H2].
      split; [|exact H2]. rewrite H1. do 2 f_equal.
      unfold messages_of, messages_in.
      clear -Hne. induction (ai_messages st) as [|m l IH]; simpl; [reflexivity|].
      destruct (Nat.eqb_spec (msg_conversation_id m) id) as [E|E]; simpl.
      * destruct (Nat.eqb_spec (msg_conversation_id m) (conv_id c));
          [congruence | exact IH].
      * destruct (msg_conversation_id m =? conv_id c); simpl; now rewrite IH.
    + apply Forall_forall. intros m Hin. apply filter_In in Hin.
      now apply (proj1 (Forall_forall _ _) Hm).
Qed.

(** X30.  Whatever statements are run on the two tables, starting from empty
    ones (conversations created, messages inserted, also refused ones,
    messages deleted by any condition, conversations deleted with their
    messages), [message_count] of every conversation is the number of its
    rows in [ai_messages]. *)
Theorem message_count_is_the_count (now : nat) (statements : list statement)
    (c : ai_conversation) :
  let st := fold_left (execute now) statements empty in
  In c (ai_conversations st) ->
  conv_message_count c = Some (Z.of_nat (length (messages_of st (conv_id c)))).
Proof.
  intros st Hin.
  assert (H : Forall (fun c => conv_message_count c
                        = Some (Z.of_nat (length (messages_of st (conv_id c))))
                        /\ conv_id c < next_uuid st) (ai_conversations st)
              /\ Forall (fun m => msg_conversation_id m < next_uuid st)
                   (ai_messages st)).
  { unfold st. clear Hin.
    assert (H0 : Forall (fun c => conv_message_count c
                           = Some (Z.of_nat
                                     (length (messages_of empty (conv_id c))))
                           /\ conv_id c < next_uuid empty)
                   (ai_conversations empty)
                 /\ Forall (fun m => msg_conversation_id m < next_uuid empty)
                      (ai_messages empty))
      by (split; constructor).
    revert H0. generalize empty.
    induction statements as [|s l IH]; intros st0 H0; [exact H0|].
    simpl. apply IH. now apply execute_keeps_counts. }
  destruct H as [H _].
  now apply (proj1 (Forall_forall _ _) H c Hin).
Qed.

Lemma message_count_is_the_count_witness :
  conv_message_count (mk_ai_conversation 0 (Some 1%Z) 5)
  = Some (Z.of_nat
            (length
               (messages_of
                  (fold_left (execute 5)
                     [InsertConversation;
                      InsertMessage 0 "user" (Some "hello"%string);
                      InsertMessage 0 "assistant" None;
                      InsertMessage 0 "assistant" (Some "hi"%string);
                      DeleteMessages (fun m => String.eqb (msg_role m) "user")]
                     empty) 0))).
Proof.
  apply (message_count_is_the_count 5
           [InsertConversation;
            InsertMessage 0 "user" (Some "hello"%string);
            InsertMessage 0 "assistant" None;
            InsertMessage 0 "assistant" (Some "hi"%string);
            DeleteMessages (fun m => String.eqb (msg_role m) "user")]
           (mk_ai_conversation 0 (Some 1%Z) 5)).
  simpl. now left.
Defined.

End ConversationsSpec.
